(** * Augmentor.Operations: the geometric operations, embedded and verified

    Shallow embedding of the geometry computed by [Skew], [Rotate],
    [RotateRange], [Flip], [Crop], [CropPercentage], [CropRandom], [Shear],
    [Scale], [Distort] and [Zoom] of [Augmentor/Operations.py].

    Conventions of the embedding.
    - Python [int] is [Z]; Python [float] is idealised as an exact rational
      [Q] (no rounding error), except where the floor of a float product
      decides a size: there the product is rounded to binary64.
    - Library routines whose floating-point results the embedding does not
      reproduce are functions handed to the operations: [math.sin] and
      [math.tan] composed with [math.radians], the canvas of PIL's
      [rotate], and [numpy.linalg.inv].
    - The module-level random generator is an explicit state: an infinite
      supply of raw draws and a cursor into it.
    - A Python exception is an [Err] result; everything that follows the
      raising statement is skipped.
    - The image itself is opaque: an operation is described by the sequence
      of PIL calls (with their geometric arguments) it performs. *)

From Stdlib Require Import ZArith QArith Qround Qabs Qpower List String Bool Lia Lqa FinFun.
Import ListNotations.

#[local] Open Scope Z_scope.

(** ** Exceptions, results and the random generator *)

Inductive exn : Type :=
| ZeroDivisionError
| IndexError
| ValueError
| UnboundLocalError
| LinAlgError.

Inductive result (A : Type) : Type :=
| Ok (a : A)
| Err (e : exn).
Arguments Ok {A} a.
Arguments Err {A} e.

Record rstate : Type := mkRState { supply : nat -> Z; cursor : nat }.

(** Computations that draw random numbers and may raise. *)
Definition M (A : Type) : Type := rstate -> result (A * rstate).

Definition ret {A} (a : A) : M A := fun g => Ok (a, g).
Definition raise {A} (e : exn) : M A := fun _ => Err e.
Definition bind {A B} (m : M A) (k : A -> M B) : M B :=
  fun g => match m g with
           | Ok (a, g') => k a g'
           | Err e => Err e
           end.

Declare Scope py_scope.
Delimit Scope py_scope with py.
Notation "x <- m ;; k" := (bind m (fun x => k))
  (at level 100, m at next level, right associativity) : py_scope.
Notation "' p <- m ;; k" := (bind m (fun p => k))
  (at level 100, p pattern, m at next level, right associativity) : py_scope.
#[local] Open Scope py_scope.

Definition lift {A} (r : result A) : M A :=
  fun g => match r with Ok a => Ok (a, g) | Err e => Err e end.

Definition next_raw : M Z :=
  fun g => Ok (supply g (cursor g), mkRState (supply g) (S (cursor g))).

(** The state reached after [n] raw draws. *)
Definition advance (g : rstate) (n : nat) : rstate :=
  mkRState (supply g) (cursor g + n).

(** [random.randint(lo, hi)]: an integer of the closed range, [ValueError]
    on an empty range. *)
Definition randint (lo hi : Z) : M Z :=
  if hi <? lo then raise ValueError
  else (r <- next_raw ;; ret (lo + r mod (hi - lo + 1))).

(** [range(n)] and [range(a, b)]. *)
Definition range (n : Z) : list Z := map Z.of_nat (seq 0 (Z.to_nat n)).
Definition range2 (a b : Z) : list Z := map (fun k => a + k) (range (b - a)).

(** [x in l] for a list of integers. *)
Definition mem (x : Z) (l : list Z) : bool := existsb (Z.eqb x) l.

(** [l[i]] and [l[i] = x], with Python's negative indices. *)
Definition norm_index {A} (l : list A) (i : Z) : option nat :=
  let n := Z.of_nat (List.length l) in
  let j := if i <? 0 then i + n else i in
  if (0 <=? j) && (j <? n) then Some (Z.to_nat j) else None.

Fixpoint update {A} (l : list A) (k : nat) (x : A) : list A :=
  match l, k with
  | [], _ => []
  | _ :: t, O => x :: t
  | h :: t, S k' => h :: update t k' x
  end.

Definition getitem {A} (l : list A) (i : Z) : result A :=
  match norm_index l i with
  | Some k => match nth_error l k with Some x => Ok x | None => Err IndexError end
  | None => Err IndexError
  end.

Definition setitem {A} (l : list A) (i : Z) (x : A) : result (list A) :=
  match norm_index l i with
  | Some k => Ok (update l k x)
  | None => Err IndexError
  end.

(** ** Distort *)

Module Distort.

(** A cell bounding box [[x1, y1, x2, y2]]. *)
Record box : Type := mkBox { bx1 : Z; by1 : Z; bx2 : Z; by2 : Z }.

(** A cell quadrilateral [[x1, y1, x2, y2, x3, y3, x4, y4]]. *)
Record polygon : Type := mkPolygon {
  px1 : Z; py1 : Z; px2 : Z; py2 : Z; px3 : Z; py3 : Z; px4 : Z; py4 : Z }.

(** The operation object; [__init__] stores [abs(magnitude)]. *)
Record t : Type := mkDistort { grid_width : Z; grid_height : Z; magnitude : Z }.

Definition init (grid_width grid_height magnitude : Z) : t :=
  mkDistort grid_width grid_height (Z.abs magnitude).

(** [int(floor(n / float(d)))]. *)
Definition floor_div (n d : Z) : result Z :=
  if d =? 0 then Err ZeroDivisionError else Ok (n / d).

Section Grid.
Variables (w h horizontal_tiles vertical_tiles : Z).
Variables (width_of_square height_of_square : Z).

Definition width_of_last_square : Z :=
  w - width_of_square * (horizontal_tiles - 1).
Definition height_of_last_square : Z :=
  h - height_of_square * (vertical_tiles - 1).

Definition cell (vertical_tile horizontal_tile : Z) : box :=
  if (vertical_tile =? vertical_tiles - 1) && (horizontal_tile =? horizontal_tiles - 1) then
    mkBox (horizontal_tile * width_of_square)
          (vertical_tile * height_of_square)
          (width_of_last_square + horizontal_tile * width_of_square)
          (height_of_last_square + height_of_square * vertical_tile)
  else if vertical_tile =? vertical_tiles - 1 then
    mkBox (horizontal_tile * width_of_square)
          (vertical_tile * height_of_square)
          (width_of_square + horizontal_tile * width_of_square)
          (height_of_last_square + height_of_square * vertical_tile)
  else if horizontal_tile =? horizontal_tiles - 1 then
    mkBox (horizontal_tile * width_of_square)
          (vertical_tile * height_of_square)
          (width_of_last_square + horizontal_tile * width_of_square)
          (height_of_square + height_of_square * vertical_tile)
  else
    mkBox (horizontal_tile * width_of_square)
          (vertical_tile * height_of_square)
          (width_of_square + horizontal_tile * width_of_square)
          (height_of_square + height_of_square * vertical_tile).

Definition dimensions : list box :=
  flat_map (fun vertical_tile =>
              map (fun horizontal_tile => cell vertical_tile horizontal_tile)
                  (range horizontal_tiles))
           (range vertical_tiles).

Definition last_column : list Z :=
  map (fun i => (horizontal_tiles - 1) + horizontal_tiles * i) (range vertical_tiles).

Definition last_row : list Z :=
  range2 (horizontal_tiles * vertical_tiles - horizontal_tiles)
         (horizontal_tiles * vertical_tiles).

Definition polygon_of_box (b : box) : polygon :=
  mkPolygon (bx1 b) (by1 b) (bx1 b) (by2 b) (bx2 b) (by2 b) (bx2 b) (by1 b).

Definition quad (i : Z) : Z * Z * Z * Z :=
  (i, i + 1, i + horizontal_tiles, i + 1 + horizontal_tiles).

Definition inner (i : Z) : bool :=
  negb (mem i last_row) && negb (mem i last_column).

Definition polygon_indices : list (Z * Z * Z * Z) :=
  map quad (filter inner (range (vertical_tiles * horizontal_tiles - 1))).
End Grid.

(** One iteration of the displacement loop. *)
Definition displace (mag : Z) (polygons : list polygon) (q : Z * Z * Z * Z)
  : M (list polygon) :=
  let '(a, b, c, d) := q in
  dx <- randint (- mag) mag ;;
  dy <- randint (- mag) mag ;;
  p <- lift (getitem polygons a) ;;
  polygons <- lift (setitem polygons a
     (mkPolygon (px1 p) (py1 p) (px2 p) (py2 p) (px3 p + dx) (py3 p + dy) (px4 p) (py4 p))) ;;
  p <- lift (getitem polygons b) ;;
  polygons <- lift (setitem polygons b
     (mkPolygon (px1 p) (py1 p) (px2 p + dx) (py2 p + dy) (px3 p) (py3 p) (px4 p) (py4 p))) ;;
  p <- lift (getitem polygons c) ;;
  polygons <- lift (setitem polygons c
     (mkPolygon (px1 p) (py1 p) (px2 p) (py2 p) (px3 p) (py3 p) (px4 p + dx) (py4 p + dy))) ;;
  p <- lift (getitem polygons d) ;;
  lift (setitem polygons d
     (mkPolygon (px1 p + dx) (py1 p + dy) (px2 p) (py2 p) (px3 p) (py3 p) (px4 p) (py4 p))).

Fixpoint displace_all (mag : Z) (polygons : list polygon) (qs : list (Z * Z * Z * Z))
  : M (list polygon) :=
  match qs with
  | [] => ret polygons
  | q :: qs' => polygons' <- displace mag polygons q ;; displace_all mag polygons' qs'
  end.

Fixpoint zip_mesh (dims : list box) (polygons : list polygon) (ixs : list Z)
  : result (list (box * polygon)) :=
  match ixs with
  | [] => Ok []
  | i :: ixs' =>
      match getitem dims i, getitem polygons i, zip_mesh dims polygons ixs' with
      | Ok b, Ok p, Ok rest => Ok ((b, p) :: rest)
      | Err e, _, _ => Err e
      | _, Err e, _ => Err e
      | _, _, Err e => Err e
      end
  end.

(** [Distort.perform_operation], up to the mesh handed to
    [image.transform(image.size, Image.MESH, generated_mesh, ...)]. *)
Definition generated_mesh (self : t) (w h : Z) : M (list (box * polygon)) :=
  let horizontal_tiles := grid_width self in
  let vertical_tiles := grid_height self in
  width_of_square <- lift (floor_div w horizontal_tiles) ;;
  height_of_square <- lift (floor_div h vertical_tiles) ;;
  let dims := dimensions w h horizontal_tiles vertical_tiles width_of_square height_of_square in
  let polygons := map polygon_of_box dims in
  polygons <- displace_all (magnitude self) polygons
                (polygon_indices horizontal_tiles vertical_tiles) ;;
  lift (zip_mesh dims polygons (range (Z.of_nat (List.length dims)))).

(** *** Notions used to state the properties *)

(** The [k]-th raw draw after state [g], mapped to [-mag .. mag]. *)
Definition draw (mag : Z) (g : rstate) (k : nat) : Z :=
  - mag + supply g (cursor g + k) mod (mag - - mag + 1).

(** What one iteration does to the polygon stored at index [j]. *)
Definition bump (q : Z * Z * Z * Z) (dx dy : Z) (j : Z) (p : polygon) : polygon :=
  let '(a, b, c, d) := q in
  mkPolygon (px1 p + (if d =? j then dx else 0)) (py1 p + (if d =? j then dy else 0))
            (px2 p + (if b =? j then dx else 0)) (py2 p + (if b =? j then dy else 0))
            (px3 p + (if a =? j then dx else 0)) (py3 p + (if a =? j then dy else 0))
            (px4 p + (if c =? j then dx else 0)) (py4 p + (if c =? j then dy else 0)).

Definition quad_in_range (n : nat) (q : Z * Z * Z * Z) : Prop :=
  let '(a, b, c, d) := q in
  0 <= a < Z.of_nat n /\ 0 <= b < Z.of_nat n /\ 0 <= c < Z.of_nat n /\ 0 <= d < Z.of_nat n.

(** Total displacement collected, over the iterations [L] started in state
    [g], by the vertex whose iteration index is [i]. *)
Fixpoint disp (mag : Z) (g : rstate) (L : list Z) (i : Z) : Z * Z :=
  match L with
  | [] => (0, 0)
  | i' :: L' =>
      let t := disp mag (advance g 2) L' i in
      if i' =? i then (draw mag g 0 + fst t, draw mag g 1 + snd t) else t
  end.

Definition displaced (ht mag : Z) (g : rstate) (L : list Z) (j : Z) (p : polygon) : polygon :=
  mkPolygon (px1 p + fst (disp mag g L (j - 1 - ht))) (py1 p + snd (disp mag g L (j - 1 - ht)))
            (px2 p + fst (disp mag g L (j - 1))) (py2 p + snd (disp mag g L (j - 1)))
            (px3 p + fst (disp mag g L j)) (py3 p + snd (disp mag g L j))
            (px4 p + fst (disp mag g L (j - ht))) (py4 p + snd (disp mag g L (j - ht))).

(** The iteration indices of the displacement loop of a [gw] x [gh] grid. *)
Definition inner_cells (gw gh : Z) : list Z :=
  filter (inner gw gh) (range (gh * gw - 1)).

(** The corner of a cell quadrilateral at grid offset [(dr, dc)] from the
    cell's own row and column: [(0,0)] top-left, [(1,0)] bottom-left,
    [(1,1)] bottom-right, [(0,1)] top-right. *)
Definition corner (p : polygon) (dr dc : Z) : Z * Z :=
  if dr =? 0 then (if dc =? 0 then (px1 p, py1 p) else (px4 p, py4 p))
  else (if dc =? 0 then (px2 p, py2 p) else (px3 p, py3 p)).

(** Pixel [(x, y)] lies in the box (left and top edges included, right and
    bottom edges excluded, as PIL reads a box). *)
Definition inside (b : box) (x y : Z) : Prop :=
  bx1 b <= x < bx2 b /\ by1 b <= y < by2 b.

(** End of the [c]-th of [n] spans of a length [len] cut in steps of [s]. *)
Definition span_end (len n s c : Z) : Z :=
  if c =? n - 1 then (len - s * (n - 1)) + c * s else s + c * s.

End Distort.

(** The value of a computation started in state [g]. *)
Definition run {A} (m : M A) (g : rstate) : result A :=
  match m g with Ok (a, _) => Ok a | Err e => Err e end.

(** A generator whose raw draws are 1, 4, 7, 10, ... *)
Definition demo_supply : nat -> Z := fun n => Z.of_nat n * 3 + 1.
Definition demo_rng : rstate := mkRState demo_supply 0.

(** ** Floats as rationals: division, rounding, truncation *)

(** [a / b] on floats: [ZeroDivisionError] on a zero divisor. *)
Definition fdiv (a b : Q) : result Q :=
  if Qeq_bool b 0 then Err ZeroDivisionError else Ok (a / b)%Q.

(** [int(round(q))]: to the nearest integer, ties to the even one. *)
Definition py_round (q : Q) : Z :=
  let f := Qfloor q in
  match (q - inject_Z f ?= 1 # 2)%Q with
  | Lt => f
  | Gt => f + 1
  | Eq => if Z.even f then f else f + 1
  end.

(** [int(q)]: towards zero. *)
Definition py_int (q : Q) : Z := Z.quot (Qnum q) (Z.pos (Qden q)).

Definition py_abs (q : Q) : Q := if Qle_bool 0 q then q else (- q)%Q.

(** ** One float operation: rounding to binary64 *)

(** [2 ^ e], for an exponent of either sign. *)
Definition pow2 (e : Z) : Q := (2 ^ e)%Q.

(** The binade of a positive [q]: the [e] with [2 ^ e <= q < 2 ^ (e + 1)]. *)
Definition binade (q : Q) : Z :=
  let l := Z.log2 (Qnum q) - Z.log2 (Z.pos (Qden q)) in
  if Qle_bool (pow2 l) q then l else l - 1.

(** The binary64 float nearest to [q], ties to the even mantissa: what a
    float operation returns when its exact result is [q] (a mantissa of 53
    bits; overflow and the subnormal range apart). *)
Definition round_double (q : Q) : Q :=
  if Qeq_bool q 0 then 0%Q
  else let e := binade (Qabs q) - 52 in
       (inject_Z (py_round (q / pow2 e)) * pow2 e)%Q.

(** [a * b] on floats. *)
Definition fmul (a b : Q) : Q := round_double (a * b).

(** ** Skew *)

Module Skew.

#[local] Open Scope Q_scope.

Definition point : Type := (Q * Q)%type.
Definition matrix : Type := list (list Q).

Record t : Type := mkSkew { skew_type : string; magnitude : Z }.

(** *** Linear algebra on lists of rows, in exact arithmetic *)

Definition dot (u v : list Q) : Q :=
  fold_right (fun '(a, b) acc => Qred (a * b + acc)) 0 (combine u v).

Fixpoint transpose (n : nat) (m : matrix) : matrix :=
  match n with
  | O => []
  | S n' => map (fun r => hd 0 r) m :: transpose n' (map (fun r => tl r) m)
  end.

Definition matvec (m : matrix) (v : list Q) : list Q := map (fun r => dot r v) m.

Definition matmul (n : nat) (a b : matrix) : matrix :=
  let bt := transpose n b in map (fun r => map (fun c => dot r c) bt) a.

Definition unit_row (n i : nat) : list Q :=
  map (fun j => if Nat.eqb i j then 1 else 0) (seq 0 n).

Definition identity (n : nat) : matrix := map (unit_row n) (seq 0 n).

Definition scale (k : Q) (r : list Q) : list Q := map (fun a => Qred (k * a)) r.

(** [r - k * p], entry by entry. *)
Definition axpy (k : Q) (p r : list Q) : list Q :=
  map (fun '(a, b) => Qred (b - k * a)) (combine p r).

Definition entry (r : list Q) (c : nat) : Q := nth c r 0.

Definition is_zero (a : Q) : bool := Qeq_bool a 0.

(** First row with a non-zero entry in column [c], with the rows before and
    after it. *)
Fixpoint find_pivot (c : nat) (rows : list (list Q))
  : option (list (list Q) * list Q * list (list Q)) :=
  match rows with
  | [] => None
  | r :: rest =>
      if is_zero (entry r c) then
        match find_pivot c rest with
        | Some (before, p, after) => Some (r :: before, p, after)
        | None => None
        end
      else Some ([], r, rest)
  end.

Definition eliminate (c : nat) (p : list Q) (rows : list (list Q)) : list (list Q) :=
  map (fun r => axpy (entry r c) p r) rows.

(** Gauss-Jordan elimination of the columns [c, c+1, ...] ([fuel] of them):
    [done] holds the rows already reduced, [todo] the others. *)
Fixpoint gauss_jordan (fuel c : nat) (done todo : list (list Q))
  : option (list (list Q)) :=
  match fuel with
  | O => Some done
  | S fuel' =>
      match find_pivot c todo with
      | None => None
      | Some (before, p, after) =>
          let p' := scale (/ entry p c) p in
          gauss_jordan fuel' (S c)
            (eliminate c p' done ++ [p'])
            (eliminate c p' (before ++ after))
      end
  end.

(** The exact inverse of an [n] x [n] matrix of rationals, [LinAlgError]
    when there is none.  It is not [np.linalg.inv], which works on floats
    and is a parameter of the operation below: it is the value that
    routine approximates, and serves to evaluate the examples. *)
Definition exact_inv (n : nat) (m : matrix) : result matrix :=
  let aug := map (fun '(r, e) => r ++ e) (combine m (identity n)) in
  match gauss_jordan n 0 [] aug with
  | Some rows => Ok (map (skipn n) rows)
  | None => Err LinAlgError
  end.

(** *** The operation *)

(** Lines 313-319: the skew distance. *)
Definition skew_amount (self : t) (w h : Z) : M Q :=
  let max_skew_amount := Z.max w h in
  if (magnitude self =? 0)%Z then
    (r <- randint 1 max_skew_amount ;; ret (inject_Z r))
  else
    ret (inject_Z max_skew_amount / inject_Z (magnitude self)).

(** [random.randint(1, skew_amount)] with a possibly fractional upper end:
    [ValueError] unless it is integral. *)
Definition randint_q (lo : Z) (hi : Q) : M Q :=
  if (Qnum hi mod Z.pos (Qden hi) =? 0)%Z then
    (r <- randint lo (Qnum hi / Z.pos (Qden hi)) ;; ret (inject_Z r))
  else raise ValueError.

Section Planes.
Variables (x1 x2 y1 y2 skew_amount : Q).

Definition tilt_plane (skew_direction : Z) : option (list point) :=
  if (skew_direction =? 0)%Z then
    Some [(y1, x1 - skew_amount); (y2, x1); (y2, x2); (y1, x2 + skew_amount)]
  else if (skew_direction =? 1)%Z then
    Some [(y1, x1); (y2, x1 - skew_amount); (y2, x2 + skew_amount); (y1, x2)]
  else if (skew_direction =? 2)%Z then
    Some [(y1 - skew_amount, x1); (y2 + skew_amount, x1); (y2, x2); (y1, x2)]
  else if (skew_direction =? 3)%Z then
    Some [(y1, x1); (y2, x1); (y2 + skew_amount, x2); (y1 - skew_amount, x2)]
  else None.

Definition corner_plane (skew_direction : Z) : option (list point) :=
  if (skew_direction =? 0)%Z then
    Some [(y1 - skew_amount, x1); (y2, x1); (y2, x2); (y1, x2)]
  else if (skew_direction =? 1)%Z then
    Some [(y1, x1 - skew_amount); (y2, x1); (y2, x2); (y1, x2)]
  else if (skew_direction =? 2)%Z then
    Some [(y1, x1); (y2 + skew_amount, x1); (y2, x2); (y1, x2)]
  else if (skew_direction =? 3)%Z then
    Some [(y1, x1); (y2, x1 - skew_amount); (y2, x2); (y1, x2)]
  else if (skew_direction =? 4)%Z then
    Some [(y1, x1); (y2, x1); (y2 + skew_amount, x2); (y1, x2)]
  else if (skew_direction =? 5)%Z then
    Some [(y1, x1); (y2, x1); (y2, x2 + skew_amount); (y1, x2)]
  else if (skew_direction =? 6)%Z then
    Some [(y1, x1); (y2, x1); (y2, x2); (y1 - skew_amount, x2)]
  else if (skew_direction =? 7)%Z then
    Some [(y1, x1); (y2, x1); (y2, x2); (y1, x2 + skew_amount)]
  else None.

Definition all_plane : M (list point) :=
  a <- randint_q 1 skew_amount ;; b <- randint_q 1 skew_amount ;;
  let top_left := (y1 - a, x1 - b) in
  a <- randint_q 1 skew_amount ;; b <- randint_q 1 skew_amount ;;
  let top_right := (y2 + a, x1 - b) in
  a <- randint_q 1 skew_amount ;; b <- randint_q 1 skew_amount ;;
  let bottom_right := (y2 + a, x2 + b) in
  a <- randint_q 1 skew_amount ;; b <- randint_q 1 skew_amount ;;
  let bottom_left := (y1 - a, x2 + b) in
  ret [top_left; top_right; bottom_right; bottom_left].
End Planes.

(** Lines 324-398: the destination quadrilateral, [None] while the name
    [new_plane] is still unbound. *)
Definition new_plane (self : t) (w h : Z) (skew_amount : Q) : M (option (list point)) :=
  let x1 := 0 in let x2 := inject_Z h in let y1 := 0 in let y2 := inject_Z w in
  let ty := skew_type self in
  new_plane <-
    (if String.eqb ty "TILT" || String.eqb ty "TILT_LEFT_RIGHT"
        || String.eqb ty "TILT_TOP_BOTTOM" then
       skew_direction <-
         (if String.eqb ty "TILT" then randint 0 3
          else if String.eqb ty "TILT_LEFT_RIGHT" then randint 0 1
          else randint 2 3) ;;
       ret (tilt_plane x1 x2 y1 y2 skew_amount skew_direction)
     else ret None) ;;
  new_plane <-
    (if String.eqb ty "CORNER" then
       skew_direction <- randint 0 7 ;;
       ret (corner_plane x1 x2 y1 y2 skew_amount skew_direction)
     else ret new_plane) ;;
  if String.eqb ty "ALL" then
    (p <- all_plane x1 x2 y1 y2 skew_amount ;; ret (Some p))
  else ret new_plane.

(** Lines 402-406: the rows of the 8 x 8 system. *)
Definition equations (new_plane original_plane : list point) : matrix :=
  flat_map (fun '(p1, p2) =>
              [ [fst p1; snd p1; 1; 0; 0; 0; - fst p2 * fst p1; - fst p2 * snd p1];
                [0; 0; 0; fst p1; snd p1; 1; - snd p2 * fst p1; - snd p2 * snd p1] ])
           (combine new_plane original_plane).

Section WithLibraries.
(** [np.linalg.inv] on the 8 x 8 matrix of the solve: a matrix, or the
    exception the routine raises. *)
Variable linalg_inv : matrix -> result matrix.

(** Lines 408-412: the coefficients [inv(A.T * A) * A.T] applied to [B]. *)
Definition coefficients (new_plane original_plane : list point) : result (list Q) :=
  let A := equations new_plane original_plane in
  let B := flat_map (fun p => [fst p; snd p]) original_plane in
  let At := transpose 8 A in
  match linalg_inv (matmul 8 At A) with
  | Ok N => Ok (matvec (matmul 8 N At) B)
  | Err e => Err e
  end.

(** [Skew.perform_operation], up to the coefficients handed to
    [image.transform(image.size, Image.PERSPECTIVE, ...)]. *)
Definition perform_operation (self : t) (w h : Z) : M (list Q) :=
  let x1 := 0 in let x2 := inject_Z h in let y1 := 0 in let y2 := inject_Z w in
  let original_plane := [(y1, x1); (y2, x1); (y2, x2); (y1, x2)] in
  skew_amount <- skew_amount self w h ;;
  new_plane <- new_plane self w h skew_amount ;;
  match new_plane with
  | None => raise UnboundLocalError
  | Some new_plane => lift (coefficients new_plane original_plane)
  end.
End WithLibraries.

(** *** Notions used to state the properties *)

(** The matrix [A.T * A] handed to the inversion. *)
Definition normal_matrix (new_plane original_plane : list point) : matrix :=
  let A := equations new_plane original_plane in
  matmul 8 (transpose 8 A) A.

(** Vectors of floats compared by value; the zero vectors. *)
Definition veq (u v : list Q) : Prop := Forall2 Qeq u v.
Definition vzero (v : list Q) : Prop := Forall (fun a => a == 0) v.

(** Some non-zero combination of the columns of the [n] x [n] matrix is zero. *)
Definition singular (n : nat) (M : matrix) : Prop :=
  exists v, List.length v = n /\ ~ vzero v /\ vzero (matvec M v).

Definition delta (i j : nat) : Q := if Nat.eqb i j then 1 else 0.

(** The rows are, on their first [c] columns, the unit rows [k], [k+1], ... *)
Fixpoint unit_rows (c k : nat) (rows : list (list Q)) : Prop :=
  match rows with
  | [] => True
  | r :: rs => (forall j, (j < c)%nat -> entry r j == delta k j) /\ unit_rows c (S k) rs
  end.

(** A generator whose draws make [random.randint(0, 3)] return 2. *)
Definition forward_tilt_rng : rstate := mkRState (fun _ => 2%Z) 0.

Definition known_skew_type (st : string) : Prop :=
  st = "TILT"%string \/ st = "TILT_LEFT_RIGHT"%string \/ st = "TILT_TOP_BOTTOM"%string
  \/ st = "CORNER"%string \/ st = "ALL"%string.

End Skew.

(** ** Rotate and RotateRange *)

Module Rotate.

#[local] Open Scope Q_scope.

Record t : Type := mkRotate { rotation : Q }.

(** What the operation asks of PIL: a right-angle turn, or a crop of the
    expanded canvas followed by a resize. *)
Inductive calls : Type :=
| Rotate90 (random_factor : Z)
| CropResize (box : Z * Z * Z * Z) (size : Z * Z).

(** Lines 494-496 (and 576-578): the offset [E], given the quotient
    [sin_angle_a / sin_angle_b]. *)
Definition crop_E (sin_angle_a sin_angle_b ratio : Q) (X Y : Z) : Q :=
  let E := ratio * (inject_Z Y - inject_Z X * ratio) in
  E / 1 - (sin_angle_a ^ 2 / sin_angle_b ^ 2).

(** Lines 494-501 (and 576-584): the crop box of the expanded canvas. *)
Definition crop_box (sin_angle_a sin_angle_b : Q) (X Y : Z) : result (Z * Z * Z * Z) :=
  match fdiv sin_angle_a sin_angle_b with
  | Err e => Err e
  | Ok ratio =>
      let E := crop_E sin_angle_a sin_angle_b ratio X Y in
      let B := inject_Z X - E in
      let A := ratio * B in
      Ok (py_round E, py_round A, py_round (inject_Z X - E), py_round (inject_Z Y - A))
  end.

Section WithLibraries.
(** [math.sin(math.radians(a))]. *)
Variable sin_deg : Q -> Q.
(** The size of [image.rotate(angle, expand=True)] for an image of the
    given size. *)
Variable expanded_size : Q -> Z * Z -> Z * Z.

Definition crop_resize (rotation : Q) (x y : Z) : result calls :=
  let '(X, Y) := expanded_size rotation (x, y) in
  let angle_a := py_abs rotation in
  let angle_b := 90 - angle_a in
  let sin_angle_a := sin_deg angle_a in
  let sin_angle_b := sin_deg angle_b in
  match crop_box sin_angle_a sin_angle_b X Y with
  | Ok box => Ok (CropResize box (x, y))
  | Err e => Err e
  end.

(** [Rotate.perform_operation] on an image of size [(x, y)]. *)
Definition perform_operation (self : t) (x y : Z) : M calls :=
  if Qeq_bool (rotation self) (-1) then
    (random_factor <- randint 1 3 ;; ret (Rotate90 random_factor))
  else lift (crop_resize (rotation self) x y).
End WithLibraries.

(** *** Notions used to state the properties *)

(** The offset [E] in the specification's words:
    [E = (sin a / sin b) * (Y - X * sin a / sin b)], then
    [E = E / (1 - sin^2 a / sin^2 b)]. *)
Definition claimed_E (sin_angle_a sin_angle_b : Q) (X Y : Z) : Q :=
  let E := (sin_angle_a / sin_angle_b)
           * (inject_Z Y - inject_Z X * sin_angle_a / sin_angle_b) in
  E / (1 - sin_angle_a ^ 2 / sin_angle_b ^ 2).

(** The crop window in the specification's words: [B = X - E],
    [A = (sin a / sin b) * B], window
    [(round(E), round(A), round(X - E), round(Y - A))]. *)
Definition claimed_crop_box (sin_angle_a sin_angle_b : Q) (X Y : Z) : Z * Z * Z * Z :=
  let E := claimed_E sin_angle_a sin_angle_b X Y in
  let B := inject_Z X - E in
  let A := (sin_angle_a / sin_angle_b) * B in
  (py_round E, py_round A, py_round (inject_Z X - E), py_round (inject_Z Y - A)).

(** What CPython's [math.sin(math.radians(a))] returns at the angles of the
    examples, 0 standing for the angles they never ask. *)
Definition sin_deg_sample (a : Q) : Q :=
  if Qeq_bool a 30 then 0.49999999999999994
  else if Qeq_bool a 60 then 0.8660254037844386
  else if Qeq_bool a 90 then 1
  else if Qeq_bool a 120 then 0.8660254037844387
  else if Qeq_bool a (-30) then - 0.49999999999999994
  else 0.

(** The canvas PIL's [rotate(angle, expand=True)] returns for a 200 x 100
    image at 30 and at 120 degrees; other calls are not used by the
    examples and keep the size. *)
Definition expanded_size_sample (angle : Q) (size : Z * Z) : Z * Z :=
  if Qeq_bool angle 30 then (224, 188)%Z
  else if Qeq_bool angle 120 then (188, 224)%Z
  else size.

End Rotate.

Module RotateRange.

Record t : Type := mkRotateRange { max_left_rotation : Z; max_right_rotation : Z }.

Definition init (max_left_rotation max_right_rotation : Z) : t :=
  mkRotateRange (- Z.abs max_left_rotation) (Z.abs max_right_rotation).

Section WithLibraries.
Variable sin_deg : Q -> Q.
Variable expanded_size : Q -> Z * Z -> Z * Z.

(** [RotateRange.perform_operation] on an image of size [(x, y)]. *)
Definition perform_operation (self : t) (x y : Z) : M Rotate.calls :=
  random_left <- randint (max_left_rotation self) (-5) ;;
  random_right <- randint 5 (max_right_rotation self) ;;
  left_or_right <- randint 0 1 ;;
  let rotation :=
    if left_or_right =? 0 then random_left
    else if left_or_right =? 1 then random_right
    else 0 in
  lift (Rotate.crop_resize sin_deg expanded_size (inject_Z rotation) x y).
End WithLibraries.

(** A generator whose draws make [RotateRange] rotate by 30 degrees to the
    right when built with (40, 40). *)
Definition rotate_range_rng : rstate := mkRState (fun _ => 25%Z) 0.

End RotateRange.

(** ** Shear *)

Module Shear.

#[local] Open Scope Q_scope.

Record t : Type := mkShear { max_shear_left : Q; max_shear_right : Q }.

(** The arguments of [image.transform(size, Image.AFFINE, matrix)],
    [image.crop(box)] and [image.resize(size)]. *)
Record calls : Type := mkCalls {
  canvas : Z * Z;
  transform_matrix : Q * Q * Q * Q * Q * Q;
  crop : Q * Q * Q * Q;
  resize : Z * Z }.

(** [random.random()]: 53 random bits over [2 ** 53]. *)
Definition random : M Q :=
  r <- next_raw ;; ret ((r mod 2 ^ 53)%Z # 2 ^ 53).

(** [random.uniform(a, b)]. *)
Definition uniform (a b : Q) : M Q :=
  u <- random ;; ret (a + (b - a) * u).

(** [random.choice(l)] on a non-empty list. *)
Definition choice {A} (l : list A) (default : A) : M A :=
  r <- next_raw ;; ret (nth (Z.to_nat (r mod Z.of_nat (List.length l))) l default).

Inductive axis : Type := AxisX | AxisY.

(** Lines 727-731. *)
Definition angle_to_shear : M Z :=
  let max_shear_left := -20 in
  let max_shear_right := 20 in
  u <- uniform (max_shear_left - 1) (max_shear_right + 1) ;;
  let angle_to_shear := py_int u in
  ret (if negb (angle_to_shear =? -1)%Z then (angle_to_shear + 1)%Z else angle_to_shear).

(** Lines 756-789. *)
Definition shear_x (angle_to_shear : Z) (phi : Q) (width height : Z) : calls :=
  let shift_in_pixels := phi * inject_Z height in
  let shift_in_pixels :=
    if Qlt_le_dec 0 shift_in_pixels then Qceiling shift_in_pixels
    else Qfloor shift_in_pixels in
  let matrix_offset := shift_in_pixels in
  let '(shift_in_pixels, matrix_offset, phi) :=
    if (angle_to_shear <=? 0)%Z then (Z.abs shift_in_pixels, 0%Z, py_abs phi * -1)
    else (shift_in_pixels, matrix_offset, phi) in
  mkCalls (py_round (inject_Z (width + shift_in_pixels)), height)
          (1, phi, - inject_Z matrix_offset, 0, 1, 0)
          (inject_Z (Z.abs shift_in_pixels), 0, inject_Z width, inject_Z height)
          (width, height).

(** Lines 791-810. *)
Definition shear_y (angle_to_shear : Z) (phi : Q) (width height : Z) : calls :=
  let shift_in_pixels := phi * inject_Z width in
  let matrix_offset := shift_in_pixels in
  let '(shift_in_pixels, matrix_offset, phi) :=
    if (angle_to_shear <=? 0)%Z then (py_abs shift_in_pixels, 0, py_abs phi * -1)
    else (shift_in_pixels, matrix_offset, phi) in
  mkCalls (width, py_round (inject_Z height + shift_in_pixels))
          (1, 0, 0, phi, 1, - matrix_offset)
          (0, py_abs shift_in_pixels, inject_Z width, inject_Z height)
          (width, height).

Section WithLibraries.
(** [math.tan(math.radians(a))]. *)
Variable tan_deg : Z -> Q.

(** [Shear.perform_operation] on an image of size [(width, height)]. *)
Definition perform_operation (self : t) (width height : Z) : M calls :=
  angle_to_shear <- angle_to_shear ;;
  let phi := tan_deg angle_to_shear in
  direction <- choice [AxisX; AxisY] AxisX ;;
  match direction with
  | AxisX => ret (shear_x angle_to_shear phi width height)
  | AxisY => ret (shear_y angle_to_shear phi width height)
  end.
End WithLibraries.

(** *** Notions used to state the properties *)

(** The same PIL calls with the two axes exchanged. *)
Definition transpose_calls (c : calls) : calls :=
  let '(a, b, c0, d, e, f) := transform_matrix c in
  let '(x0, y0, x1, y1) := crop c in
  mkCalls (snd (canvas c), fst (canvas c))
          (e, d, f, b, a, c0)
          (y0, x0, y1, x1)
          (snd (resize c), fst (resize c)).

(** Equality of calls, floats compared by value. *)
Definition calls_equiv (c1 c2 : calls) : Prop :=
  canvas c1 = canvas c2 /\ resize c1 = resize c2 /\
  (let '(a1, b1, c1', d1, e1, f1) := transform_matrix c1 in
   let '(a2, b2, c2', d2, e2, f2) := transform_matrix c2 in
   a1 == a2 /\ b1 == b2 /\ c1' == c2' /\ d1 == d2 /\ e1 == e2 /\ f1 == f2) /\
  (let '(l1, u1, r1, w1) := crop c1 in
   let '(l2, u2, r2, w2) := crop c2 in
   l1 == l2 /\ u1 == u2 /\ r1 == r2 /\ w1 == w2).

(** A float with an integer value. *)
Definition integral (q : Q) : Prop := exists k : Z, q == inject_Z k.

(** What CPython's [math.tan(math.radians(a))] returns at the angles of the
    examples, 0 standing for the angles they never ask. *)
Definition tan_deg_sample (a : Z) : Q :=
  if (a =? 10)%Z then 0.17632698070846498
  else if (a =? 16)%Z then 0.2867453857588079
  else if (a =? -10)%Z then - 0.17632698070846498
  else 0.

(** A generator whose first draw makes [random.uniform(-21, 21)] return
    about 15.54, and [random.choice] pick the x axis. *)
Definition shear_rng_sample : rstate := mkRState (fun _ => 7836008576058950%Z) 0.

End Shear.

(** ** Flip *)

Module Flip.

Record t : Type := mkFlip { top_bottom_left_right : string }.

(** The argument of [image.transpose]. *)
Inductive method : Type := FLIP_LEFT_RIGHT | FLIP_TOP_BOTTOM.

(** [Flip.perform_operation]: the transposition asked of PIL, [None] when
    the method falls off its end and returns Python's [None]. *)
Definition perform_operation (self : t) : M (option method) :=
  if String.eqb (top_bottom_left_right self) "LEFT_RIGHT" then
    ret (Some FLIP_LEFT_RIGHT)
  else if String.eqb (top_bottom_left_right self) "TOP_BOTTOM" then
    ret (Some FLIP_TOP_BOTTOM)
  else if String.eqb (top_bottom_left_right self) "RANDOM" then
    random_axis <- randint 0 1 ;;
    if random_axis =? 0 then ret (Some FLIP_LEFT_RIGHT)
    else if random_axis =? 1 then ret (Some FLIP_TOP_BOTTOM)
    else ret None
  else ret None.

End Flip.

(** ** Crop, CropPercentage and CropRandom *)

Module Crop.

#[local] Open Scope Q_scope.

Record t : Type := mkCrop { width : Z; height : Z; centre : bool }.

(** [Crop.perform_operation] on an image of size [(w, h)]: the box handed
    to [image.crop]. *)
Definition perform_operation (self : t) (w h : Z) : M (Q * Q * Q * Q) :=
  if centre self then
    let new_width := inject_Z (width self) / 2 in
    let new_height := inject_Z (height self) / 2 in
    let half_the_width := inject_Z w / 2 in
    let half_the_height := inject_Z h / 2 in
    ret (half_the_width - inject_Z (Qceiling new_width),
         half_the_height - inject_Z (Qceiling new_height),
         half_the_width + inject_Z (Qfloor new_width),
         half_the_height + inject_Z (Qfloor new_height))
  else
    random_right_shift <- randint 0 (w - width self) ;;
    random_down_shift <- randint 0 (h - height self) ;;
    ret (inject_Z random_right_shift,
         inject_Z random_down_shift,
         inject_Z (width self + random_right_shift),
         inject_Z (height self + random_down_shift)).

End Crop.

Module CropPercentage.

#[local] Open Scope Q_scope.

Record t : Type := mkCropPercentage { percentage_area : Q; centre : bool }.

(** [CropPercentage.perform_operation] on an image of size [(w, h)]: the box
    handed to [image.crop].  [w * self.percentage_area] is one float
    product, [w] being converted without loss. *)
Definition perform_operation (self : t) (w h : Z) : M (Z * Z * Z * Z) :=
  let w_new := Qfloor (fmul (inject_Z w) (percentage_area self)) in
  let h_new := Qfloor (fmul (inject_Z h) (percentage_area self)) in
  if centre self then
    let left_shift := Qfloor (inject_Z w_new / 2) in
    let down_shift := Qfloor (inject_Z h_new / 2) in
    ret (left_shift, down_shift, w_new + left_shift, h_new + down_shift)%Z
  else
    random_left_shift <- randint 0 (w - w_new) ;;
    random_down_shift <- randint 0 (h - h_new) ;;
    ret (random_left_shift, random_down_shift,
         w_new + random_left_shift, h_new + random_down_shift)%Z.

End CropPercentage.

Module CropRandom.

#[local] Open Scope Q_scope.

Record t : Type := mkCropRandom { percentage_area : Q }.

(** [CropRandom.perform_operation] on an image of size [(w, h)]: the box
    handed to [image.crop].  [w * self.percentage_area] is one float
    product, [w] being converted without loss. *)
Definition perform_operation (self : t) (w h : Z) : M (Z * Z * Z * Z) :=
  let w_new := Qfloor (fmul (inject_Z w) (percentage_area self)) in
  let h_new := Qfloor (fmul (inject_Z h) (percentage_area self)) in
  random_left_shift <- randint 0 (w - w_new) ;;
  random_down_shift <- randint 0 (h - h_new) ;;
  ret (random_left_shift, random_down_shift,
       w_new + random_left_shift, h_new + random_down_shift)%Z.

End CropRandom.

(** ** Scale *)

Module Scale.

#[local] Open Scope Q_scope.

Record t : Type := mkScale { scale_factor : Q }.

(** [Scale.perform_operation]: the size handed to [image.resize], for an
    image whose [image.size] is [size]. *)
Definition perform_operation (self : t) (size : Z * Z) : Z * Z :=
  let '(h, w) := size in
  let new_h := (h * Qfloor (scale_factor self))%Z in
  let new_w := (w * Qfloor (scale_factor self))%Z in
  (new_w, new_h).

End Scale.

(** ** Zoom *)

Module Zoom.

#[local] Open Scope Q_scope.

Record t : Type := mkZoom { min_factor : Q; max_factor : Q }.

(** [round(q, 2)]: to the nearest hundredth, ties to the even one. *)
Definition round2 (q : Q) : Q := inject_Z (py_round (q * 100)) / 100.

(** The size handed to [image.resize] and the box handed to
    [image_zoomed.crop]. *)
Record calls : Type := mkCalls { zoomed_size : Z * Z; crop : Q * Q * Q * Q }.

(** [Zoom.perform_operation] on an image of size
    [(original_width, original_height)]. *)
Definition perform_operation (self : t) (original_width original_height : Z) : M calls :=
  u <- Shear.uniform (min_factor self) (max_factor self) ;;
  let factor := round2 u in
  let image_zoomed_size :=
    (py_round (inject_Z original_width * factor),
     py_round (inject_Z original_height * factor)) in
  let half_the_width := inject_Z (fst image_zoomed_size) / 2 in
  let half_the_height := inject_Z (snd image_zoomed_size) / 2 in
  ret (mkCalls image_zoomed_size
         (half_the_width - inject_Z (Qceiling (inject_Z original_width / 2)),
          half_the_height - inject_Z (Qceiling (inject_Z original_height / 2)),
          half_the_width + inject_Z (Qfloor (inject_Z original_width / 2)),
          half_the_height + inject_Z (Qfloor (inject_Z original_height / 2)))).

End Zoom.

(** ** Further notions used to state properties *)

(** Every coordinate of the quadrilateral [p] is within [d] of the same
    coordinate of [q]. *)
Definition polygon_within (d : Z) (p q : Distort.polygon) : Prop :=
  Z.abs (Distort.px1 p - Distort.px1 q) <= d /\ Z.abs (Distort.py1 p - Distort.py1 q) <= d /\
  Z.abs (Distort.px2 p - Distort.px2 q) <= d /\ Z.abs (Distort.py2 p - Distort.py2 q) <= d /\
  Z.abs (Distort.px3 p - Distort.px3 q) <= d /\ Z.abs (Distort.py3 p - Distort.py3 q) <= d /\
  Z.abs (Distort.px4 p - Distort.px4 q) <= d /\ Z.abs (Distort.py4 p - Distort.py4 q) <= d.

(** The corners of an image of size [(w, h)], as [Skew.perform_operation]
    lists them. *)
Definition original_plane (w h : Z) : list Skew.point :=
  [(0, 0); (inject_Z w, 0); (inject_Z w, inject_Z h); (0, inject_Z h)]%Q.

(** The corner [q] is the corner [c] pushed by [amount] along one axis. *)
Definition moved_by (amount : Q) (c q : Skew.point) : Prop :=
  q = (fst c - amount, snd c)%Q \/ q = (fst c + amount, snd c)%Q \/
  q = (fst c, snd c - amount)%Q \/ q = (fst c, snd c + amount)%Q.


(** The floats that Python writes 0.57, 0.6 and 0.7, for the examples. *)
Definition float_0_57 : Q := 5134103575202365 # 9007199254740992.
Definition float_0_6 : Q := 5404319552844595 # 9007199254740992.
Definition float_0_7 : Q := 3152519739159347 # 4503599627370496.

(** * Properties *)

(** ** Lists, indices and the random generator *)

Lemma range_length n : List.length (range n) = Z.to_nat n.
Proof. unfold range. now rewrite length_map, length_seq. Qed.

Lemma nth_error_range n k :
  (k < Z.to_nat n)%nat -> nth_error (range n) k = Some (Z.of_nat k).
Proof.
  intros Hk. unfold range.
  rewrite nth_error_map, nth_error_seq.
  destruct (Nat.ltb_spec k (Z.to_nat n)); [reflexivity | lia].
Qed.

Lemma In_range n x : In x (range n) <-> 0 <= x < n.
Proof.
  unfold range. rewrite in_map_iff. split.
  - intros (k & <- & Hk). apply in_seq in Hk. lia.
  - intros Hx. exists (Z.to_nat x). split; [lia | apply in_seq; lia].
Qed.

Lemma NoDup_range n : NoDup (range n).
Proof.
  unfold range. apply Injective_map_NoDup; [| apply seq_NoDup].
  intros a b Hab. lia.
Qed.

Lemma In_range2 a b x : In x (range2 a b) <-> a <= x < b.
Proof.
  unfold range2. rewrite in_map_iff. split.
  - intros (k & <- & Hk). apply In_range in Hk. lia.
  - intros Hx. exists (x - a). split; [lia | apply In_range; lia].
Qed.

Lemma mem_In x l : mem x l = true <-> In x l.
Proof.
  unfold mem. rewrite existsb_exists. split.
  - intros (y & Hy & Heq). apply Z.eqb_eq in Heq. now subst.
  - intros Hx. exists x. split; [assumption | apply Z.eqb_refl].
Qed.

Lemma update_length {A} (l : list A) k x : List.length (update l k x) = List.length l.
Proof.
  revert k; induction l as [| a l IH]; intros [| k]; simpl; auto.
Qed.

Lemma nth_error_update {A} (l : list A) k x j :
  nth_error (update l k x) j =
  if Nat.eqb j k then (match nth_error l j with Some _ => Some x | None => None end)
  else nth_error l j.
Proof.
  revert k j; induction l as [| a l IH]; intros [| k] [| j]; simpl; auto.
  now destruct (Nat.eqb j k).
Qed.

Lemma norm_index_in_range {A} (l : list A) i :
  0 <= i < Z.of_nat (List.length l) -> norm_index l i = Some (Z.to_nat i).
Proof.
  intros Hi. unfold norm_index.
  destruct (Z.ltb_spec i 0); [lia |].
  destruct (Z.leb_spec 0 i); [| lia].
  destruct (Z.ltb_spec i (Z.of_nat (List.length l))); [reflexivity | lia].
Qed.

Lemma getitem_in_range {A} (l : list A) i :
  0 <= i < Z.of_nat (List.length l) ->
  exists x, nth_error l (Z.to_nat i) = Some x /\ getitem l i = Ok x.
Proof.
  intros Hi. unfold getitem. rewrite norm_index_in_range by assumption.
  destruct (nth_error l (Z.to_nat i)) as [x |] eqn:E.
  - now exists x.
  - apply nth_error_None in E. lia.
Qed.

Lemma setitem_in_range {A} (l : list A) i x :
  0 <= i < Z.of_nat (List.length l) ->
  setitem l i x = Ok (update l (Z.to_nat i) x).
Proof.
  intros Hi. unfold setitem. now rewrite norm_index_in_range.
Qed.

Lemma randint_ok lo hi g :
  lo <= hi ->
  randint lo hi g = Ok (lo + supply g (cursor g) mod (hi - lo + 1), advance g 1).
Proof.
  intros Hle. unfold randint.
  destruct (Z.ltb_spec hi lo); [lia |].
  unfold bind, next_raw, ret, advance. do 3 f_equal. lia.
Qed.

Lemma randint_bounds lo hi r : lo <= hi -> lo <= lo + r mod (hi - lo + 1) <= hi.
Proof.
  intros Hle. pose proof (Z.mod_pos_bound r (hi - lo + 1)). lia.
Qed.

Lemma bind_ok {A B} (m : M A) (k : A -> M B) g a g' :
  m g = Ok (a, g') -> bind m k g = k a g'.
Proof. intros H. unfold bind. now rewrite H. Qed.

Lemma bind_lift_ok {A B} (r : result A) (k : A -> M B) g a :
  r = Ok a -> bind (lift r) k g = k a g.
Proof. intros ->. reflexivity. Qed.

(** ** Distort: the displacement loop *)

Module DistortFacts.
Import Distort.

Lemma get_set_in_range (l : list polygon) i (f : polygon -> polygon) :
  0 <= i < Z.of_nat (List.length l) ->
  exists p l', getitem l i = Ok p /\ setitem l i (f p) = Ok l' /\
    List.length l' = List.length l /\
    forall j q, nth_error l j = Some q ->
      nth_error l' j = Some (if i =? Z.of_nat j then f q else q).
Proof.
  intros Hi.
  destruct (getitem_in_range l i Hi) as (p & Hp & Hget).
  exists p, (update l (Z.to_nat i) (f p)).
  split; [assumption |]. split; [now apply setitem_in_range |].
  split; [apply update_length |].
  intros j q Hq. rewrite nth_error_update, Hq.
  destruct (Nat.eqb_spec j (Z.to_nat i)) as [-> | Hne].
  - rewrite Z2Nat.id by lia. rewrite Z.eqb_refl. congruence.
  - destruct (Z.eqb_spec i (Z.of_nat j)); [lia | reflexivity].
Qed.

Lemma displace_spec mag l q g :
  0 <= mag -> quad_in_range (List.length l) q ->
  exists l', displace mag l q g = Ok (l', advance g 2) /\
    List.length l' = List.length l /\
    forall j p, nth_error l j = Some p ->
      nth_error l' j = Some (bump q (draw mag g 0) (draw mag g 1) (Z.of_nat j) p).
Proof.
  intros Hmag Hq. destruct q as [[[a b] c] d]. destruct Hq as (Ha & Hb & Hc & Hd).
  unfold displace.
  rewrite (bind_ok _ _ _ _ _ (randint_ok (- mag) mag g ltac:(lia))).
  rewrite (bind_ok _ _ _ _ _ (randint_ok (- mag) mag (advance g 1) ltac:(lia))).
  set (dx := - mag + supply g (cursor g) mod (mag - - mag + 1)).
  set (dy := - mag + supply (advance g 1) (cursor (advance g 1)) mod (mag - - mag + 1)).
  set (g2 := advance (advance g 1) 1).
  destruct (get_set_in_range l a
    (fun p => mkPolygon (px1 p) (py1 p) (px2 p) (py2 p) (px3 p + dx) (py3 p + dy) (px4 p) (py4 p)) Ha)
    as (pa & l1 & Hg1 & Hs1 & Hl1 & Hn1).
  rewrite (bind_lift_ok _ _ _ _ Hg1), (bind_lift_ok _ _ _ _ Hs1).
  rewrite <- Hl1 in Hb, Hc, Hd.
  destruct (get_set_in_range l1 b
    (fun p => mkPolygon (px1 p) (py1 p) (px2 p + dx) (py2 p + dy) (px3 p) (py3 p) (px4 p) (py4 p)) Hb)
    as (pb & l2 & Hg2 & Hs2 & Hl2 & Hn2).
  rewrite (bind_lift_ok _ _ _ _ Hg2), (bind_lift_ok _ _ _ _ Hs2).
  rewrite <- Hl2 in Hc, Hd.
  destruct (get_set_in_range l2 c
    (fun p => mkPolygon (px1 p) (py1 p) (px2 p) (py2 p) (px3 p) (py3 p) (px4 p + dx) (py4 p + dy)) Hc)
    as (pc & l3 & Hg3 & Hs3 & Hl3 & Hn3).
  rewrite (bind_lift_ok _ _ _ _ Hg3), (bind_lift_ok _ _ _ _ Hs3).
  rewrite <- Hl3 in Hd.
  destruct (get_set_in_range l3 d
    (fun p => mkPolygon (px1 p + dx) (py1 p + dy) (px2 p) (py2 p) (px3 p) (py3 p) (px4 p) (py4 p)) Hd)
    as (pd & l4 & Hg4 & Hs4 & Hl4 & Hn4).
  rewrite (bind_lift_ok _ _ _ _ Hg4).
  exists l4. split.
  - unfold lift. rewrite Hs4. unfold g2, advance. simpl. do 3 f_equal. lia.
  - split; [congruence |].
    intros j p Hp.
    rewrite (Hn4 _ _ (Hn3 _ _ (Hn2 _ _ (Hn1 _ _ Hp)))).
    f_equal. unfold bump, draw.
    replace (cursor g + 0)%nat with (cursor g) by lia.
    change (supply (advance g 1) (cursor (advance g 1)))
      with (supply g (cursor g + 1)) in dy.
    fold dx dy.
    destruct (a =? Z.of_nat j), (b =? Z.of_nat j), (c =? Z.of_nat j), (d =? Z.of_nat j);
      destruct p; simpl; f_equal; lia.
Qed.

Lemma advance_0 g : advance g 0 = g.
Proof. destruct g. unfold advance. simpl. f_equal. lia. Qed.

Lemma advance_advance g n m : advance (advance g n) m = advance g (n + m).
Proof. unfold advance. simpl. f_equal. lia. Qed.

Lemma draw_advance mag g n k : draw mag (advance g n) k = draw mag g (n + k).
Proof. unfold draw, advance. simpl. do 3 f_equal. lia. Qed.

Lemma displace_all_spec ht mag L : forall l g,
  0 <= mag ->
  Forall (fun i => quad_in_range (List.length l) (quad ht i)) L ->
  exists l', displace_all mag l (map (quad ht) L) g = Ok (l', advance g (2 * List.length L)) /\
    List.length l' = List.length l /\
    forall j p, nth_error l j = Some p ->
      nth_error l' j = Some (displaced ht mag g L (Z.of_nat j) p).
Proof.
  induction L as [| i L IH]; intros l g Hmag HL.
  - exists l. simpl. rewrite advance_0. split; [reflexivity |].
    split; [reflexivity |].
    intros j p Hp. rewrite Hp. f_equal. unfold displaced. simpl.
    destruct p; simpl; f_equal; lia.
  - inversion HL as [| ? ? Hi HL']; subst.
    destruct (displace_spec mag l (quad ht i) g Hmag Hi) as (l1 & Hstep & Hlen1 & Hnth1).
    rewrite <- Hlen1 in HL'.
    destruct (IH l1 (advance g 2) Hmag HL') as (l2 & Hrest & Hlen2 & Hnth2).
    exists l2. split.
    + simpl. rewrite (bind_ok _ _ _ _ _ Hstep), Hrest, advance_advance.
      do 3 f_equal. lia.
    + split; [congruence |].
      intros j p Hp. rewrite (Hnth2 _ _ (Hnth1 _ _ Hp)). f_equal.
      unfold displaced, bump, quad. cbn [disp px1 py1 px2 py2 px3 py3 px4 py4].
      set (J := Z.of_nat j).
      destruct (Z.eqb_spec (i + 1 + ht) J), (Z.eqb_spec i (J - 1 - ht)); try lia;
      destruct (Z.eqb_spec (i + 1) J), (Z.eqb_spec i (J - 1)); try lia;
      destruct (Z.eqb_spec (i + ht) J), (Z.eqb_spec i (J - ht)); try lia;
      destruct (Z.eqb_spec i J); cbn [fst snd]; f_equal; lia.
Qed.

Lemma disp_not_in mag L i : forall g, ~ In i L -> disp mag g L i = (0, 0).
Proof.
  induction L as [| i' L IH]; intros g Hni; [reflexivity |].
  simpl. destruct (Z.eqb_spec i' i) as [-> | Hne].
  - exfalso. apply Hni. now left.
  - apply IH. intros Hin. apply Hni. now right.
Qed.

Lemma disp_in mag L i : forall g k,
  NoDup L -> nth_error L k = Some i ->
  disp mag g L i = (draw mag g (2 * k), draw mag g (2 * k + 1)).
Proof.
  induction L as [| i' L IH]; intros g k Hnd Hk.
  - destruct k; discriminate.
  - inversion Hnd as [| ? ? Hni Hnd']; subst. simpl.
    destruct k as [| k]; simpl in Hk.
    + injection Hk as ->. rewrite Z.eqb_refl.
      rewrite (disp_not_in _ _ _ _ Hni). simpl. f_equal; lia.
    + destruct (Z.eqb_spec i' i) as [-> | Hne].
      * exfalso. apply Hni. eapply nth_error_In; eassumption.
      * rewrite (IH _ k Hnd' Hk), !draw_advance. f_equal; f_equal; lia.
Qed.

Lemma draw_bounds mag g k : 0 <= mag -> - mag <= draw mag g k <= mag.
Proof. intros Hmag. unfold draw. apply randint_bounds. lia. Qed.

(** *** The grid: cells by row and column *)

Lemma flat_map_rows_length {A B} (f : A -> list B) (m : nat) (l : list A) :
  (forall a, List.length (f a) = m) ->
  List.length (flat_map f l) = (List.length l * m)%nat.
Proof.
  intros Hf. induction l as [| a l IH]; simpl; [reflexivity |].
  now rewrite length_app, Hf, IH.
Qed.

Lemma nth_error_flat_map_rows {A B} (f : A -> list B) (m : nat) (l : list A) :
  (forall a, List.length (f a) = m) ->
  forall r c a, nth_error l r = Some a -> (c < m)%nat ->
  nth_error (flat_map f l) (r * m + c) = nth_error (f a) c.
Proof.
  intros Hf. induction l as [| a0 l IH]; intros r c a Hr Hc.
  - destruct r; discriminate.
  - destruct r as [| r]; simpl in Hr |- *.
    + injection Hr as ->. apply nth_error_app1. now rewrite Hf.
    + rewrite nth_error_app2 by (rewrite Hf; lia).
      rewrite Hf. replace (m + r * m + c - m)%nat with (r * m + c)%nat by lia.
      now apply IH.
Qed.

Lemma grid_index_unique ht row col row' col' :
  0 <= col < ht -> 0 <= col' < ht ->
  row * ht + col = row' * ht + col' -> row = row' /\ col = col'.
Proof.
  intros Hc Hc' Heq.
  assert (row = row') by nia. subst. split; [reflexivity | lia].
Qed.

Section GridFacts.
Variables (w h ht vt ws hs : Z).
Hypothesis Hht : 1 <= ht.
Hypothesis Hvt : 1 <= vt.

Let dims := dimensions w h ht vt ws hs.
Let L := filter (inner ht vt) (range (vt * ht - 1)).

Lemma dimensions_length : List.length dims = Z.to_nat (vt * ht).
Proof.
  unfold dims, dimensions.
  rewrite (flat_map_rows_length _ (Z.to_nat ht)).
  - rewrite range_length. lia.
  - intros a. now rewrite length_map, range_length.
Qed.

Lemma dimensions_lookup row col :
  0 <= row < vt -> 0 <= col < ht ->
  nth_error dims (Z.to_nat (row * ht + col)) = Some (cell w h ht vt ws hs row col).
Proof.
  intros Hr Hc. unfold dims, dimensions.
  replace (Z.to_nat (row * ht + col))
    with (Z.to_nat row * Z.to_nat ht + Z.to_nat col)%nat by nia.
  rewrite (nth_error_flat_map_rows _ (Z.to_nat ht) _) with (a := row).
  - rewrite nth_error_map, nth_error_range by lia. simpl.
    now rewrite Z2Nat.id by lia.
  - intros a. now rewrite length_map, range_length.
  - rewrite nth_error_range by lia. f_equal. lia.
  - lia.
Qed.

Lemma inner_spec i :
  0 <= i < vt * ht - 1 ->
  (inner ht vt i = true <->
   exists row col, i = row * ht + col /\ 0 <= row < vt - 1 /\ 0 <= col < ht - 1).
Proof.
  intros Hi. unfold inner.
  rewrite andb_true_iff, !negb_true_iff, <- !not_true_iff_false, !mem_In.
  unfold last_row, last_column. rewrite In_range2, in_map_iff.
  split.
  - intros [Hrow Hcol].
    exists (i / ht), (i mod ht).
    pose proof (Z.div_mod i ht ltac:(lia)) as Hdm.
    pose proof (Z.mod_pos_bound i ht ltac:(lia)) as Hmod.
    split; [lia |].
    assert (0 <= i / ht) by (apply Z.div_pos; lia).
    assert (i / ht < vt) by (apply Z.div_lt_upper_bound; nia).
    split.
    + assert (i / ht <> vt - 1) by nia. lia.
    + assert (i mod ht <> ht - 1); [| lia].
      intros Heq. apply Hcol. exists (i / ht). split; [lia |].
      apply In_range. lia.
  - intros (row & col & -> & Hr & Hc). split.
    + nia.
    + intros (k & Hk & Hin). apply In_range in Hin.
      destruct (grid_index_unique ht row col k (ht - 1)) as [_ ?]; lia.
Qed.

Lemma In_inner_cells i :
  In i L <->
  exists row col, i = row * ht + col /\ 0 <= row < vt - 1 /\ 0 <= col < ht - 1.
Proof.
  unfold L. rewrite filter_In, In_range. split.
  - intros [Hi Hin]. now apply inner_spec.
  - intros (row & col & -> & Hr & Hc).
    assert (0 <= row * ht + col < vt * ht - 1) by nia.
    split; [assumption |]. apply inner_spec; [assumption |]. now exists row, col.
Qed.

Lemma NoDup_inner_cells : NoDup L.
Proof. apply NoDup_filter, NoDup_range. Qed.

Lemma inner_cells_in_range :
  Forall (fun i => quad_in_range (Z.to_nat (vt * ht)) (quad ht i)) L.
Proof.
  apply Forall_forall. intros i Hi.
  apply In_inner_cells in Hi. destruct Hi as (row & col & -> & Hr & Hc).
  unfold quad_in_range, quad. rewrite Z2Nat.id by nia. nia.
Qed.
End GridFacts.

(** *** The emitted mesh *)

Lemma zip_mesh_spec dims polys : forall ixs,
  List.length polys = List.length dims ->
  (forall i, In i ixs -> 0 <= i < Z.of_nat (List.length dims)) ->
  exists mesh, zip_mesh dims polys ixs = Ok mesh /\
    List.length mesh = List.length ixs /\
    forall k i, nth_error ixs k = Some i ->
      exists b p, nth_error dims (Z.to_nat i) = Some b /\
                  nth_error polys (Z.to_nat i) = Some p /\
                  nth_error mesh k = Some (b, p).
Proof.
  intros ixs Hlen. induction ixs as [| i ixs IH]; intros Hin.
  - exists []. repeat split. intros [| k] i; discriminate.
  - destruct IH as (rest & Hrest & Hlrest & Hnth).
    { intros i' Hi'. apply Hin. now right. }
    assert (Hi : 0 <= i < Z.of_nat (List.length dims)) by (apply Hin; now left).
    destruct (getitem_in_range dims i Hi) as (b & Hb & Hgb).
    rewrite <- Hlen in Hi.
    destruct (getitem_in_range polys i Hi) as (p & Hp & Hgp).
    exists ((b, p) :: rest). simpl. rewrite Hgb, Hgp, Hrest.
    split; [reflexivity |]. split; [now rewrite Hlrest |].
    intros [| k] i' Hk; simpl in Hk.
    + injection Hk as <-. now exists b, p.
    + now apply Hnth.
Qed.

Theorem generated_mesh_spec gw gh m w h g :
  1 <= gw -> 1 <= gh ->
  exists mesh,
    generated_mesh (init gw gh m) w h g
      = Ok (mesh, advance g (2 * List.length (inner_cells gw gh))) /\
    List.length mesh = Z.to_nat (gh * gw) /\
    forall row col, 0 <= row < gh -> 0 <= col < gw ->
      let b := cell w h gw gh (w / gw) (h / gh) row col in
      nth_error mesh (Z.to_nat (row * gw + col))
        = Some (b, displaced gw (Z.abs m) g (inner_cells gw gh) (row * gw + col)
                     (polygon_of_box b)).
Proof.
  intros Hgw Hgh. unfold generated_mesh, init, floor_div.
  cbn [grid_width grid_height magnitude].
  destruct (Z.eqb_spec gw 0); [lia |]. destruct (Z.eqb_spec gh 0); [lia |].
  rewrite (bind_lift_ok _ _ _ _ eq_refl), (bind_lift_ok _ _ _ _ eq_refl).
  set (dims := dimensions w h gw gh (w / gw) (h / gh)).
  assert (Hdl : List.length dims = Z.to_nat (gh * gw))
    by (apply dimensions_length; assumption).
  destruct (displace_all_spec gw (Z.abs m) (inner_cells gw gh)
              (map polygon_of_box dims) g ltac:(lia)) as (polys & Hloop & Hpl & Hpn).
  { rewrite length_map, Hdl. now apply inner_cells_in_range. }
  rewrite length_map in Hpl.
  unfold polygon_indices. fold (inner_cells gw gh).
  rewrite (bind_ok _ _ _ _ _ Hloop).
  destruct (zip_mesh_spec dims polys (range (Z.of_nat (List.length dims))) Hpl)
    as (mesh & Hzip & Hml & Hmn).
  { intros i Hi. now apply In_range in Hi. }
  exists mesh. unfold lift. rewrite Hzip. split; [reflexivity |].
  split; [now rewrite Hml, range_length, Nat2Z.id |].
  intros row col Hr Hc. set (b := cell w h gw gh (w / gw) (h / gh) row col).
  assert (Hj : (Z.to_nat (row * gw + col) < Z.to_nat (gh * gw))%nat) by nia.
  destruct (Hmn (Z.to_nat (row * gw + col)) (row * gw + col)) as (b' & p & Hb' & Hp & Hm).
  { rewrite nth_error_range by (rewrite Nat2Z.id; lia). f_equal. nia. }
  rewrite Hm. f_equal.
  pose proof (dimensions_lookup w h gw gh (w / gw) (h / gh) Hgw Hgh row col Hr Hc) as Hcell.
  fold dims in Hcell. rewrite Hcell in Hb'. injection Hb' as <-.
  rewrite (Hpn (Z.to_nat (row * gw + col)) (polygon_of_box b)) in Hp.
  - injection Hp as <-. rewrite Z2Nat.id by nia. reflexivity.
  - rewrite nth_error_map, Hcell. reflexivity.
Qed.

(** *** Vertices *)

Lemma corner_displaced gw mag g L row col dr dc p :
  (dr = 0 \/ dr = 1) -> (dc = 0 \/ dc = 1) ->
  corner (displaced gw mag g L (row * gw + col) p) dr dc =
  (fst (corner p dr dc) + fst (disp mag g L ((row + dr - 1) * gw + (col + dc - 1))),
   snd (corner p dr dc) + snd (disp mag g L ((row + dr - 1) * gw + (col + dc - 1)))).
Proof.
  intros [-> | ->] [-> | ->]; unfold corner, displaced; simpl.
  - replace ((row + 0 - 1) * gw + (col + 0 - 1)) with (row * gw + col - 1 - gw) by ring.
    reflexivity.
  - replace ((row + 0 - 1) * gw + (col + 1 - 1)) with (row * gw + col - gw) by ring.
    reflexivity.
  - replace ((row + 1 - 1) * gw + (col + 0 - 1)) with (row * gw + col - 1) by ring.
    reflexivity.
  - replace ((row + 1 - 1) * gw + (col + 1 - 1)) with (row * gw + col) by ring.
    reflexivity.
Qed.

Lemma border_vertex_not_inner gw gh r c :
  1 <= gw -> 1 <= gh -> 0 <= r <= gh -> 0 <= c <= gw ->
  r = 0 \/ r = gh \/ c = 0 \/ c = gw ->
  ~ In ((r - 1) * gw + (c - 1)) (inner_cells gw gh).
Proof.
  intros Hgw Hgh Hr Hc Hb Hin.
  apply In_inner_cells in Hin; [| assumption | assumption].
  destruct Hin as (row & col & Heq & Hrow & Hcol).
  destruct (Z.eq_dec c 0) as [-> | Hc0].
  - destruct (grid_index_unique gw (r - 2) (gw - 1) row col) as [_ ?]; lia.
  - destruct (grid_index_unique gw (r - 1) (c - 1) row col) as [? ?]; lia.
Qed.

Lemma interior_vertex_inner gw gh r c :
  1 <= gw -> 1 <= gh -> 1 <= r < gh -> 1 <= c < gw ->
  exists k, nth_error (inner_cells gw gh) k = Some ((r - 1) * gw + (c - 1)).
Proof.
  intros Hgw Hgh Hr Hc. apply In_nth_error.
  apply In_inner_cells; [assumption | assumption |].
  exists (r - 1), (c - 1). lia.
Qed.

(** C3. In the mesh emitted by [Distort.perform_operation] on a grid of at
    least one cell per axis, every interior vertex [(r, c)] receives one
    displacement [(dx, dy)] - the pair of consecutive draws of one loop
    iteration, each within [-magnitude .. magnitude] - and each of the four
    cells around the vertex carries, at its corner for that vertex, the same
    coordinate [(c * width_of_square + dx, r * height_of_square + dy)]. *)
Theorem shared_vertex_single_displacement gw gh m w h g :
  1 <= gw -> 1 <= gh ->
  exists mesh g',
    generated_mesh (init gw gh m) w h g = Ok (mesh, g') /\
    forall r c, 1 <= r < gh -> 1 <= c < gw ->
      exists k,
        let dx := draw (Z.abs m) g (2 * k) in
        let dy := draw (Z.abs m) g (2 * k + 1) in
        - Z.abs m <= dx <= Z.abs m /\ - Z.abs m <= dy <= Z.abs m /\
        forall row col, row = r - 1 \/ row = r -> col = c - 1 \/ col = c ->
          exists b p,
            nth_error mesh (Z.to_nat (row * gw + col)) = Some (b, p) /\
            corner p (r - row) (c - col) = (c * (w / gw) + dx, r * (h / gh) + dy).
Proof.
  intros Hgw Hgh.
  destruct (generated_mesh_spec gw gh m w h g Hgw Hgh) as (mesh & Hrun & _ & Hcells).
  exists mesh, (advance g (2 * List.length (inner_cells gw gh))).
  split; [assumption |].
  intros r c Hr Hc.
  destruct (interior_vertex_inner gw gh r c Hgw Hgh Hr Hc) as (k & Hk).
  exists k. cbn zeta.
  split; [apply draw_bounds; lia |]. split; [apply draw_bounds; lia |].
  intros row col Hrow Hcol.
  eexists _, _. split; [apply Hcells; lia |].
  rewrite corner_displaced by lia.
  replace ((row + (r - row) - 1) * gw + (col + (c - col) - 1))
    with ((r - 1) * gw + (c - 1)) by ring.
  rewrite (disp_in _ _ _ g k (NoDup_inner_cells gw gh) Hk). cbn [fst snd].
  unfold corner, polygon_of_box, cell, width_of_last_square, height_of_last_square.
  destruct Hrow as [-> | ->], Hcol as [-> | ->];
    repeat match goal with
    | |- context [Z.eqb ?a ?b] => destruct (Z.eqb_spec a b); try lia
    end; cbn; f_equal; ring.
Qed.

Lemma shared_vertex_single_displacement_witness :
  1 <= 4 /\ 1 <= 4 /\
  exists mesh g',
    generated_mesh (init 4 4 3) 100 100 demo_rng = Ok (mesh, g') /\
    forall r c, 1 <= r < 4 -> 1 <= c < 4 ->
      exists k,
        let dx := draw (Z.abs 3) demo_rng (2 * k) in
        let dy := draw (Z.abs 3) demo_rng (2 * k + 1) in
        - Z.abs 3 <= dx <= Z.abs 3 /\ - Z.abs 3 <= dy <= Z.abs 3 /\
        forall row col, row = r - 1 \/ row = r -> col = c - 1 \/ col = c ->
          exists b p,
            nth_error mesh (Z.to_nat (row * 4 + col)) = Some (b, p) /\
            corner p (r - row) (c - col) = (c * (100 / 4) + dx, r * (100 / 4) + dy).
Proof.
  split; [lia |]. split; [lia |].
  apply (shared_vertex_single_displacement 4 4 3 100 100 demo_rng); lia.
Defined.

(** C4. In the mesh emitted by [Distort.perform_operation], whatever the
    magnitude, every vertex on the outer boundary of the grid keeps, in every
    cell that has it as a corner, the coordinate of the corresponding corner
    of the cell's bounding box. *)
Theorem border_vertices_fixed gw gh m w h g :
  1 <= gw -> 1 <= gh ->
  exists mesh g',
    generated_mesh (init gw gh m) w h g = Ok (mesh, g') /\
    forall r c, 0 <= r <= gh -> 0 <= c <= gw ->
      r = 0 \/ r = gh \/ c = 0 \/ c = gw ->
      forall row col, 0 <= row < gh -> 0 <= col < gw ->
        row = r - 1 \/ row = r -> col = c - 1 \/ col = c ->
        exists b p,
          nth_error mesh (Z.to_nat (row * gw + col)) = Some (b, p) /\
          b = cell w h gw gh (w / gw) (h / gh) row col /\
          corner p (r - row) (c - col) = corner (polygon_of_box b) (r - row) (c - col).
Proof.
  intros Hgw Hgh.
  destruct (generated_mesh_spec gw gh m w h g Hgw Hgh) as (mesh & Hrun & _ & Hcells).
  exists mesh, (advance g (2 * List.length (inner_cells gw gh))).
  split; [assumption |].
  intros r c Hr Hc Hborder row col Hrow Hcol Hrr Hcc.
  eexists _, _. split; [apply Hcells; lia |]. split; [reflexivity |].
  rewrite corner_displaced by lia.
  replace ((row + (r - row) - 1) * gw + (col + (c - col) - 1))
    with ((r - 1) * gw + (c - 1)) by ring.
  rewrite disp_not_in by (apply border_vertex_not_inner; assumption).
  cbn [fst snd]. rewrite !Z.add_0_r. now destruct (corner _ _ _).
Qed.

Lemma border_vertices_fixed_witness :
  1 <= 4 /\ 1 <= 4 /\
  exists mesh g',
    generated_mesh (init 4 4 1000) 100 100 demo_rng = Ok (mesh, g') /\
    forall r c, 0 <= r <= 4 -> 0 <= c <= 4 ->
      r = 0 \/ r = 4 \/ c = 0 \/ c = 4 ->
      forall row col, 0 <= row < 4 -> 0 <= col < 4 ->
        row = r - 1 \/ row = r -> col = c - 1 \/ col = c ->
        exists b p,
          nth_error mesh (Z.to_nat (row * 4 + col)) = Some (b, p) /\
          b = cell 100 100 4 4 (100 / 4) (100 / 4) row col /\
          corner p (r - row) (c - col) = corner (polygon_of_box b) (r - row) (c - col).
Proof.
  split; [lia |]. split; [lia |].
  apply (border_vertices_fixed 4 4 1000 100 100 demo_rng); lia.
Defined.

(** *** Tiling *)

Lemma cell_spans w h gw gh ws hs row col :
  cell w h gw gh ws hs row col =
  mkBox (col * ws) (row * hs) (span_end w gw ws col) (span_end h gh hs row).
Proof.
  unfold cell, span_end, width_of_last_square, height_of_last_square.
  destruct (row =? gh - 1), (col =? gw - 1); simpl; f_equal; ring.
Qed.

Lemma span_cover len n x :
  1 <= n -> 0 <= x < len ->
  exists c, 0 <= c < n /\ c * (len / n) <= x < span_end len n (len / n) c.
Proof.
  intros Hn Hx. set (s := len / n).
  assert (Hs : 0 <= s) by (apply Z.div_pos; lia).
  destruct (Z_lt_le_dec x ((n - 1) * s)) as [Hlt | Hge].
  - assert (Hspos : 0 < s) by nia.
    exists (x / s).
    pose proof (Z.div_mod x s ltac:(lia)) as Hdm.
    pose proof (Z.mod_pos_bound x s Hspos) as Hmod.
    assert (0 <= x / s) by (apply Z.div_pos; lia).
    assert (x / s < n - 1) by (apply Z.div_lt_upper_bound; nia).
    unfold span_end. destruct (Z.eqb_spec (x / s) (n - 1)); [lia |].
    split; [lia | nia].
  - exists (n - 1). unfold span_end. rewrite Z.eqb_refl. split; [lia | nia].
Qed.

Lemma span_inside len n c x :
  1 <= n -> 0 <= len -> 0 <= c < n ->
  c * (len / n) <= x < span_end len n (len / n) c -> 0 <= x < len.
Proof.
  intros Hn Hlen Hc. set (s := len / n).
  assert (Hs : 0 <= s) by (apply Z.div_pos; lia).
  assert (Hns : n * s <= len) by (apply Z.mul_div_le; lia).
  unfold span_end. destruct (Z.eqb_spec c (n - 1)); intros Hx; nia.
Qed.

Lemma span_disjoint len n c c' x :
  1 <= n -> 0 <= len -> 0 <= c < n -> 0 <= c' < n ->
  c * (len / n) <= x < span_end len n (len / n) c ->
  c' * (len / n) <= x < span_end len n (len / n) c' -> c = c'.
Proof.
  intros Hn Hlen Hc Hc'. set (s := len / n).
  assert (Hs : 0 <= s) by (apply Z.div_pos; lia).
  unfold span_end.
  destruct (Z.eqb_spec c (n - 1)), (Z.eqb_spec c' (n - 1)); intros Hx Hx'; nia.
Qed.

Lemma span_width len n c :
  1 <= n -> 0 <= c < n ->
  span_end len n (len / n) c - c * (len / n) =
  if c =? n - 1 then len / n + len mod n else len / n.
Proof.
  intros Hn Hc. unfold span_end.
  pose proof (Z.div_mod len n ltac:(lia)).
  destruct (Z.eqb_spec c (n - 1)); nia.
Qed.

Lemma grid_index_decompose gw gh k :
  1 <= gw -> (k < Z.to_nat (gh * gw))%nat ->
  exists row col, 0 <= row < gh /\ 0 <= col < gw /\ k = Z.to_nat (row * gw + col).
Proof.
  intros Hgw Hk. exists (Z.of_nat k / gw), (Z.of_nat k mod gw).
  pose proof (Z.div_mod (Z.of_nat k) gw ltac:(lia)) as Hdm.
  pose proof (Z.mod_pos_bound (Z.of_nat k) gw ltac:(lia)) as Hmod.
  assert (0 <= Z.of_nat k / gw) by (apply Z.div_pos; lia).
  assert (Z.of_nat k / gw < gh) by (apply Z.div_lt_upper_bound; nia).
  repeat split; try lia.
Qed.

(** C9. For a [w] x [h] image and a grid of [gw >= 1] by [gh >= 1] cells,
    the [gw * gh] cell boxes of the mesh emitted by
    [Distort.perform_operation] tile the image: every pixel of the image is
    in some cell, no pixel is in two cells, no cell reaches outside the
    image, and every cell is [w / gw] wide and [h / gh] high except that the
    last column and the last row are larger by the remainder of the
    division. *)
Theorem cells_tile_image w h gw gh m g :
  1 <= gw -> 1 <= gh -> 0 <= w -> 0 <= h ->
  exists mesh g',
    generated_mesh (init gw gh m) w h g = Ok (mesh, g') /\
    List.length mesh = Z.to_nat (gw * gh) /\
    (forall x y, 0 <= x < w -> 0 <= y < h ->
       exists k b p, nth_error mesh k = Some (b, p) /\ inside b x y) /\
    (forall k1 k2 b1 p1 b2 p2 x y,
       nth_error mesh k1 = Some (b1, p1) -> nth_error mesh k2 = Some (b2, p2) ->
       inside b1 x y -> inside b2 x y -> k1 = k2) /\
    (forall k b p x y,
       nth_error mesh k = Some (b, p) -> inside b x y -> 0 <= x < w /\ 0 <= y < h) /\
    (forall row col, 0 <= row < gh -> 0 <= col < gw ->
       exists b p, nth_error mesh (Z.to_nat (row * gw + col)) = Some (b, p) /\
         bx2 b - bx1 b = (if col =? gw - 1 then w / gw + w mod gw else w / gw) /\
         by2 b - by1 b = (if row =? gh - 1 then h / gh + h mod gh else h / gh)).
Proof.
  intros Hgw Hgh Hw Hh.
  destruct (generated_mesh_spec gw gh m w h g Hgw Hgh) as (mesh & Hrun & Hlen & Hcells).
  exists mesh, (advance g (2 * List.length (inner_cells gw gh))).
  split; [assumption |]. split; [rewrite Hlen; f_equal; ring |].
  assert (Hinv : forall k b p, nth_error mesh k = Some (b, p) ->
            exists row col, 0 <= row < gh /\ 0 <= col < gw /\
              k = Z.to_nat (row * gw + col) /\
              b = cell w h gw gh (w / gw) (h / gh) row col).
  { intros k b p Hk.
    assert (Hlt : (k < Z.to_nat (gh * gw))%nat)
      by (rewrite <- Hlen; apply nth_error_Some; congruence).
    destruct (grid_index_decompose gw gh k Hgw Hlt) as (row & col & Hr & Hc & ->).
    exists row, col. repeat split; try lia.
    rewrite (Hcells row col Hr Hc) in Hk. congruence. }
  split; [| split; [| split]].
  - intros x y Hx Hy.
    destruct (span_cover w gw x Hgw Hx) as (col & Hc & Hxc).
    destruct (span_cover h gh y Hgh Hy) as (row & Hr & Hyr).
    eexists _, _, _. split; [apply (Hcells row col); lia |].
    rewrite cell_spans. unfold inside. simpl. lia.
  - intros k1 k2 b1 p1 b2 p2 x y H1 H2 Hin1 Hin2.
    destruct (Hinv _ _ _ H1) as (r1 & c1 & Hr1 & Hc1 & -> & ->).
    destruct (Hinv _ _ _ H2) as (r2 & c2 & Hr2 & Hc2 & -> & ->).
    rewrite cell_spans in Hin1, Hin2. unfold inside in Hin1, Hin2. simpl in Hin1, Hin2.
    assert (c1 = c2) by (apply (span_disjoint w gw c1 c2 x); lia).
    assert (r1 = r2) by (apply (span_disjoint h gh r1 r2 y); lia).
    now subst.
  - intros k b p x y Hk Hin.
    destruct (Hinv _ _ _ Hk) as (r1 & c1 & Hr1 & Hc1 & -> & ->).
    rewrite cell_spans in Hin. unfold inside in Hin. simpl in Hin.
    split.
    + apply (span_inside w gw c1 x); lia.
    + apply (span_inside h gh r1 y); lia.
  - intros row col Hr Hc. eexists _, _. split; [apply (Hcells row col); lia |].
    rewrite cell_spans. simpl. split; apply span_width; lia.
Qed.

Lemma cells_tile_image_witness :
  1 <= 3 /\ 1 <= 2 /\ 0 <= 100 /\ 0 <= 51 /\
  exists mesh g',
    generated_mesh (init 3 2 5) 100 51 demo_rng = Ok (mesh, g') /\
    List.length mesh = Z.to_nat (3 * 2) /\
    (forall x y, 0 <= x < 100 -> 0 <= y < 51 ->
       exists k b p, nth_error mesh k = Some (b, p) /\ inside b x y) /\
    (forall k1 k2 b1 p1 b2 p2 x y,
       nth_error mesh k1 = Some (b1, p1) -> nth_error mesh k2 = Some (b2, p2) ->
       inside b1 x y -> inside b2 x y -> k1 = k2) /\
    (forall k b p x y,
       nth_error mesh k = Some (b, p) -> inside b x y -> 0 <= x < 100 /\ 0 <= y < 51) /\
    (forall row col, 0 <= row < 2 -> 0 <= col < 3 ->
       exists b p, nth_error mesh (Z.to_nat (row * 3 + col)) = Some (b, p) /\
         bx2 b - bx1 b = (if col =? 3 - 1 then 100 / 3 + 100 mod 3 else 100 / 3) /\
         by2 b - by1 b = (if row =? 2 - 1 then 51 / 2 + 51 mod 2 else 51 / 2)).
Proof.
  split; [lia |]. split; [lia |]. split; [lia |]. split; [lia |].
  apply (cells_tile_image 100 51 3 2 5 demo_rng); lia.
Defined.

End DistortFacts.

(** ** Skew: distance and unknown skew types *)

Module SkewFacts.
Import Skew.

#[local] Open Scope Q_scope.

Lemma skew_amount_set st m w h g :
  m <> 0%Z ->
  skew_amount (mkSkew st m) w h g = Ok (inject_Z (Z.max w h) / inject_Z m, g).
Proof.
  intros Hm. unfold skew_amount. cbn [magnitude].
  destruct (Z.eqb_spec m 0); [contradiction | reflexivity].
Qed.






Lemma new_plane_unbound st m w h amount g :
  ~ known_skew_type st ->
  new_plane (mkSkew st m) w h amount g = Ok (None, g).
Proof.
  intros Hst. unfold known_skew_type in Hst.
  unfold new_plane. cbn [skew_type].
  destruct (String.eqb_spec st "TILT"); [tauto |].
  destruct (String.eqb_spec st "TILT_LEFT_RIGHT"); [tauto |].
  destruct (String.eqb_spec st "TILT_TOP_BOTTOM"); [tauto |].
  destruct (String.eqb_spec st "CORNER"); [tauto |].
  destruct (String.eqb_spec st "ALL"); [tauto |].
  reflexivity.
Qed.

(** C10. For every skew type other than the five the operation knows, and
    an image with at least one pixel, [Skew.perform_operation] reaches the
    solving step with [new_plane] unbound and raises [UnboundLocalError]:
    no coefficients are returned and no other exception is raised. *)
Theorem unknown_skew_type_unbound linalg_inv st m w h g :
  ~ known_skew_type st -> (1 <= w)%Z -> (1 <= h)%Z ->
  perform_operation linalg_inv (mkSkew st m) w h g = Err UnboundLocalError.
Proof.
  intros Hst Hw Hh. unfold perform_operation.
  destruct (Z.eq_dec m 0) as [-> | Hm].
  - unfold skew_amount at 1. cbn [magnitude]. simpl (0 =? 0)%Z. cbv iota.
    unfold bind at 1. unfold bind at 1.
    rewrite randint_ok by lia. cbn beta iota. unfold ret at 1.
    unfold bind. rewrite (new_plane_unbound _ _ _ _ _ _ Hst). reflexivity.
  - rewrite (bind_ok _ _ _ _ _ (skew_amount_set st m w h g Hm)).
    unfold bind. rewrite (new_plane_unbound _ _ _ _ _ _ Hst). reflexivity.
Qed.

Lemma unknown_skew_type_unbound_witness :
  ~ known_skew_type "TILT_FORWARD" /\ (1 <= 200)%Z /\ (1 <= 100)%Z /\
  perform_operation (exact_inv 8) (mkSkew "TILT_FORWARD" 3) 200 100 demo_rng
    = Err UnboundLocalError.
Proof.
  assert (H : ~ known_skew_type "TILT_FORWARD").
  { unfold known_skew_type. intros [H | [H | [H | [H | H]]]]; discriminate H. }
  split; [exact H |]. split; [lia |]. split; [lia |].
  apply (unknown_skew_type_unbound (exact_inv 8) "TILT_FORWARD" 3 200 100 demo_rng H); lia.
Defined.

End SkewFacts.

(** ** Rotate: the crop box *)

Module RotateFacts.
Import Rotate.

#[local] Open Scope Q_scope.

Lemma fdiv_ok a b : ~ b == 0 -> fdiv a b = Ok (a / b).
Proof.
  intros Hb. unfold fdiv.
  destruct (Qeq_bool b 0) eqn:E; [| reflexivity].
  apply Qeq_bool_eq in E. contradiction.
Qed.


(** The offset the code computes, and the one of the specification, in
    terms of the quotient [t] of the two sines. *)
Lemma crop_E_value sa sb X Y :
  ~ sb == 0 ->
  let t := sa / sb in
  crop_E sa sb t X Y == t * (inject_Z Y - inject_Z X * t) - t * t.
Proof.
  intros Hsb t. unfold crop_E, t. field. assumption.
Qed.

Lemma claimed_E_value sa sb X Y :
  ~ sb == 0 ->
  let t := sa / sb in
  claimed_E sa sb X Y == t * (inject_Z Y - inject_Z X * t) / (1 - t * t).
Proof.
  intros Hsb t. unfold claimed_E, t.
  apply Qmult_comp; [| apply Qinv_comp]; field; assumption.
Qed.

(** Below 45 degrees ([0 < sin a < sin b]) and on a canvas with
    [X * sin a < Y * sin b], the code's offset is strictly smaller than the
    offset divided by the whole factor. *)
Lemma crop_E_below_claimed sa sb X Y :
  0 < sa -> sa < sb -> inject_Z X * sa < inject_Z Y * sb ->
  crop_E sa sb (sa / sb) X Y < claimed_E sa sb X Y.
Proof.
  intros Hsa Hab HXY.
  assert (Hsb : 0 < sb) by (apply Qlt_trans with sa; assumption).
  assert (Hsb0 : ~ sb == 0) by (intros E; rewrite E in Hsb; discriminate).
  rewrite (crop_E_value sa sb X Y Hsb0), (claimed_E_value sa sb X Y Hsb0).
  set (t := sa / sb).
  assert (Ht0 : 0 < t) by (apply Qlt_shift_div_l; [assumption | now rewrite Qmult_0_l]).
  assert (Ht1 : t < 1) by (apply Qlt_shift_div_r; [assumption | now rewrite Qmult_1_l]).
  assert (HN : inject_Z X * t < inject_Z Y).
  { unfold t, Qdiv. rewrite Qmult_assoc. apply Qlt_shift_div_r; assumption. }
  set (x := inject_Z X) in *. set (y := inject_Z Y) in *.
  assert (Hu : 0 < t * t) by (apply Qmult_lt_0_compat; assumption).
  assert (Hd : 0 < 1 - t * t) by nra.
  assert (HNpos : 0 < t * (y - x * t)) by (apply Qmult_lt_0_compat; lra).
  apply Qlt_shift_div_l; [assumption |].
  set (N := t * (y - x * t)) in *. set (u := t * t) in *.
  assert (Hprod : 0 < u * (N + 1 - u)) by (apply Qmult_lt_0_compat; lra).
  nra.
Qed.

(** C1. Rotating a 200 x 100 image by 30 degrees (expanded canvas
    224 x 188): [Rotate.perform_operation], and [RotateRange.perform_operation]
    when it draws 30 degrees, crop the window [(34, 110, 190, 78)], whose
    offset [E] is the product minus [sin^2 a / sin^2 b]; dividing by the
    whole factor [1 - sin^2 a / sin^2 b], as the method's docstring and the
    specification have it, gives the window [(51, 100, 173, 88)]. *)
Theorem rotate_crop_precedence :
  run (perform_operation sin_deg_sample expanded_size_sample (mkRotate 30) 200 100)
      demo_rng
    = Ok (CropResize (34, 110, 190, 78)%Z (200, 100)%Z) /\
  run (RotateRange.perform_operation sin_deg_sample expanded_size_sample
         (RotateRange.init 40 40) 200 100) RotateRange.rotate_range_rng
    = Ok (CropResize (34, 110, 190, 78)%Z (200, 100)%Z) /\
  claimed_crop_box (sin_deg_sample 30) (sin_deg_sample 60) 224 188
    = (51, 100, 173, 88)%Z.
Proof. repeat split; vm_compute; reflexivity. Qed.




End RotateFacts.

(** ** Shear: the angle and the two axes *)

Module ShearFacts.
Import Shear.

#[local] Open Scope Q_scope.

Lemma py_int_bounds q a b :
  (a <= 0 < b)%Z -> inject_Z a <= q -> q < inject_Z b ->
  (a <= py_int q <= b - 1)%Z.
Proof.
  intros Hab Hlo Hhi. destruct q as [n d]. unfold py_int, Qle, Qlt in *.
  simpl in *. rewrite Z.mul_1_r in Hlo, Hhi.
  destruct (Z_lt_le_dec n 0) as [Hneg | Hpos].
  - replace n with (- - n)%Z by lia. rewrite Z.quot_opp_l by lia.
    rewrite Z.quot_div_nonneg by lia.
    assert (0 <= - n / Z.pos d)%Z by (apply Z.div_pos; lia).
    assert (- n / Z.pos d <= - a)%Z by (apply Z.div_le_upper_bound; lia).
    lia.
  - rewrite Z.quot_div_nonneg by lia.
    assert (0 <= n / Z.pos d)%Z by (apply Z.div_pos; lia).
    assert (n / Z.pos d < b)%Z by (apply Z.div_lt_upper_bound; lia).
    lia.
Qed.

Lemma angle_to_shear_range g :
  exists angle, angle_to_shear g = Ok (angle, advance g 1) /\ (-20 <= angle <= 21)%Z.
Proof.
  unfold angle_to_shear, uniform, random, bind, next_raw, ret.
  set (f := ((supply g (cursor g) mod 2 ^ 53)%Z # 2 ^ 53)).
  set (u := -20 - 1 + (20 + 1 - (-20 - 1)) * f).
  assert (Hf : 0 <= f /\ f < 1).
  { pose proof (Z.mod_pos_bound (supply g (cursor g)) (2 ^ 53) ltac:(lia)) as Hm.
    unfold f, Qle, Qlt. simpl. change (Z.pos (2 ^ 53)) with (2 ^ 53)%Z. lia. }
  assert (Hu : (-21 <= py_int u <= 21 - 1)%Z).
  { destruct Hf as [Hf0 Hf1]. clearbody f.
    apply py_int_bounds; [lia | |]; unfold u, inject_Z; lra. }
  exists (if negb (py_int u =? -1)%Z then (py_int u + 1)%Z else py_int u). split.
  - unfold advance. do 3 f_equal. lia.
  - destruct (Z.eqb_spec (py_int u) (-1)); simpl; lia.
Qed.

(** C7. The bounds a [Shear] object is built with play no part in
    [Shear.perform_operation]: two objects with any bounds perform the same
    computation, the angle always lies between -20 and 21 degrees, and an
    object with bounds (-5, 5) shears a 100 x 100 image by 16 degrees when
    [random.uniform(-21, 21)] returns about 15.54. *)
Theorem shear_angle_ignores_bounds :
  (forall tan_deg self self' width height g,
     perform_operation tan_deg self width height g
       = perform_operation tan_deg self' width height g) /\
  (forall g, exists angle,
     run angle_to_shear g = Ok angle /\ (-20 <= angle <= 21)%Z) /\
  run angle_to_shear shear_rng_sample = Ok 16%Z /\
  run (perform_operation tan_deg_sample (mkShear (-5) 5) 100 100) shear_rng_sample
    = Ok (shear_x 16 (tan_deg_sample 16) 100 100).
Proof.
  split; [reflexivity |]. split.
  - intros g. destruct (angle_to_shear_range g) as (angle & Hrun & Hrange).
    exists angle. unfold run. now rewrite Hrun.
  - split; vm_compute; reflexivity.
Qed.

Lemma integral_floor q : integral q -> inject_Z (Qfloor q) == q.
Proof.
  intros [k Hk]. rewrite Hk at 1. rewrite Qfloor_Z. symmetry. assumption.
Qed.

Lemma py_abs_integral q k : py_abs q == inject_Z k -> integral q.
Proof.
  unfold py_abs. destruct (Qle_bool 0 q); intros H.
  - now exists k.
  - exists (- k)%Z. rewrite inject_Z_opp, <- H. symmetry. apply Qopp_involutive.
Qed.

Lemma py_abs_nonneg q : 0 <= py_abs q.
Proof.
  unfold py_abs. destruct (Qle_bool 0 q) eqn:E.
  - now apply Qle_bool_iff.
  - assert (~ 0 <= q) by (rewrite <- Qle_bool_iff; congruence).
    apply Qnot_le_lt in H. apply Qlt_le_weak.
    apply Qopp_lt_compat in H. exact H.
Qed.

Lemma py_abs_idem q : py_abs (py_abs q) = py_abs q.
Proof.
  unfold py_abs at 1. pose proof (py_abs_nonneg q) as H.
  apply Qle_bool_iff in H. now rewrite H.
Qed.

(** Whenever the shift of the y branch is not a whole number of pixels, the
    calls of the y branch are not the transposed calls of the x branch. *)
Lemma shear_y_fractional_shift angle phi width height :
  ~ integral (phi * inject_Z width) ->
  ~ calls_equiv (shear_y angle phi width height)
                (transpose_calls (shear_x angle phi height width)).
Proof.
  intros Hfrac (_ & _ & _ & Hcrop). apply Hfrac.
  unfold shear_y, shear_x, transpose_calls in Hcrop.
  destruct (angle <=? 0)%Z; cbn in Hcrop; destruct Hcrop as (_ & Hu & _).
  - rewrite py_abs_idem in Hu. eapply py_abs_integral. exact Hu.
  - eapply py_abs_integral. exact Hu.
Qed.

(** C8. Shearing a 100 x 100 image by 10 degrees: the x branch rounds its
    shift up to 18 pixels (canvas 118 x 100, crop from x = 18), the y branch
    keeps the shift 17.63..., so its calls are not those of the x branch
    with the axes exchanged. *)
Theorem shear_y_not_transposed_x :
  shear_x 10 (tan_deg_sample 10) 100 100
    = mkCalls (118, 100)%Z (1, tan_deg_sample 10, - (18), 0, 1, 0)
              (18, 0, 100, 100) (100, 100)%Z /\
  crop (shear_y 10 (tan_deg_sample 10) 100 100)
    = (0, tan_deg_sample 10 * 100, 100, 100) /\
  ~ calls_equiv (shear_y 10 (tan_deg_sample 10) 100 100)
                (transpose_calls (shear_x 10 (tan_deg_sample 10) 100 100)).
Proof.
  split; [vm_compute; reflexivity |]. split; [vm_compute; reflexivity |].
  apply shear_y_fractional_shift. intros H.
  apply integral_floor in H. revert H. vm_compute. discriminate.
Qed.

End ShearFacts.

(** ** Skew: the projective solve *)

(** The solve itself takes [np.linalg.inv] as it comes.  The examples
    evaluate it with [exact_inv]; the first parts of this module show that
    [exact_inv] is what its name says: a left and right inverse, which fails
    exactly on singular matrices. *)

Module SolveFacts.
Import Skew.

#[local] Open Scope Q_scope.

(** *** Dot products and entries *)

Lemma dot_nil_l v : dot [] v = 0.
Proof. reflexivity. Qed.

Lemma dot_nil_r u : dot u [] = 0.
Proof. destruct u; reflexivity. Qed.

Lemma dot_cons a u b v : dot (a :: u) (b :: v) == a * b + dot u v.
Proof. unfold dot. cbn [combine fold_right]. apply Qred_correct. Qed.

Lemma dot_scale k p : forall z, dot (scale k p) z == k * dot p z.
Proof.
  induction p as [| a p IH]; intros [| b z]; cbn [scale map];
    rewrite ?dot_nil_r; try (unfold dot; cbn [combine fold_right]; ring).
  fold (scale k p). rewrite !dot_cons, IH, Qred_correct. ring.
Qed.

Lemma dot_axpy k : forall p r z,
  List.length p = List.length r ->
  dot (axpy k p r) z == dot r z - k * dot p z.
Proof.
  induction p as [| a p IH]; intros [| b r] z Hlen; try discriminate.
  - unfold axpy, dot. cbn [combine map fold_right]. ring.
  - destruct z as [| c z].
    + rewrite !dot_nil_r. ring.
    + unfold axpy in *. cbn [combine map].
      rewrite !dot_cons, IH, Qred_correct by (simpl in Hlen; lia). ring.
Qed.

Lemma entry_nil j : entry [] j = 0.
Proof. unfold entry. now destruct j. Qed.

Lemma entry_scale k p : forall j, entry (scale k p) j == k * entry p j.
Proof.
  induction p as [| a p IH]; intros j.
  - cbn [scale map]. rewrite entry_nil. ring.
  - destruct j as [| j]; unfold entry in *; cbn [scale map nth].
    + apply Qred_correct.
    + apply IH.
Qed.

Lemma entry_axpy k : forall p r j,
  List.length p = List.length r ->
  entry (axpy k p r) j == entry r j - k * entry p j.
Proof.
  induction p as [| a p IH]; intros [| b r] j Hlen; try discriminate.
  - unfold axpy. cbn [combine map]. rewrite entry_nil. ring.
  - destruct j as [| j]; unfold entry, axpy in *; cbn [combine map nth].
    + apply Qred_correct.
    + apply IH. simpl in Hlen. lia.
Qed.

Lemma length_scale k p : List.length (scale k p) = List.length p.
Proof. unfold scale. apply length_map. Qed.

Lemma length_axpy k p r :
  List.length p = List.length r -> List.length (axpy k p r) = List.length r.
Proof.
  intros H. unfold axpy. rewrite length_map, length_combine. lia.
Qed.

Lemma is_zero_true a : is_zero a = true <-> a == 0.
Proof. unfold is_zero. apply Qeq_bool_iff. Qed.

Lemma is_zero_false a : is_zero a = false <-> ~ a == 0.
Proof.
  rewrite <- is_zero_true. destruct (is_zero a); split; congruence.
Qed.

Lemma find_pivot_some c : forall rows before p after,
  find_pivot c rows = Some (before, p, after) ->
  rows = before ++ p :: after /\ ~ entry p c == 0.
Proof.
  induction rows as [| r rows IH]; intros before p after H; simpl in H.
  - discriminate.
  - destruct (is_zero (entry r c)) eqn:E.
    + destruct (find_pivot c rows) as [[[b q] a] |]; [| discriminate].
      injection H as <- <- <-.
      destruct (IH b q a eq_refl) as [-> Hq]. split; [reflexivity | assumption].
    + injection H as <- <- <-. split; [reflexivity |]. now apply is_zero_false.
Qed.

Lemma find_pivot_none c : forall rows,
  find_pivot c rows = None -> Forall (fun r => entry r c == 0) rows.
Proof.
  induction rows as [| r rows IH]; intros H; simpl in H; [constructor |].
  destruct (is_zero (entry r c)) eqn:E; [| discriminate].
  destruct (find_pivot c rows) as [[[b q] a] |]; [discriminate |].
  constructor; [now apply is_zero_true | now apply IH].
Qed.

(** *** Elimination keeps what the rows have in common *)

Section Elimination.
Variable L : nat.
Variable z : list Q.

Let sized (r : list Q) : Prop := List.length r = L.
Let vanishes (r : list Q) : Prop := dot r z == 0.
Let zero_before (c : nat) (r : list Q) : Prop := forall j, (j < c)%nat -> entry r j == 0.

Lemma eliminate_sized c p rows :
  sized p -> Forall sized rows -> Forall sized (eliminate c p rows).
Proof.
  intros Hp Hrows. unfold eliminate. apply Forall_map.
  eapply Forall_impl; [| exact Hrows]. intros r Hr. unfold sized in *.
  rewrite length_axpy; congruence.
Qed.

Lemma eliminate_vanishes c p rows :
  sized p -> Forall sized rows -> vanishes p -> Forall vanishes rows ->
  Forall vanishes (eliminate c p rows).
Proof.
  intros Hp Hlen Hvp Hrows. unfold eliminate. apply Forall_map.
  rewrite Forall_forall in *. intros r Hr. unfold vanishes, sized in *.
  rewrite dot_axpy by (rewrite Hp; symmetry; now apply Hlen).
  rewrite (Hrows r Hr), Hvp. ring.
Qed.

Lemma eliminate_vanishes_rev c p rows :
  sized p -> Forall sized rows -> vanishes p ->
  Forall vanishes (eliminate c p rows) -> Forall vanishes rows.
Proof.
  intros Hp Hlen Hvp Hrows. unfold eliminate in Hrows.
  rewrite Forall_map in Hrows. rewrite Forall_forall in *.
  intros r Hr. specialize (Hrows r Hr). unfold vanishes, sized in *.
  rewrite dot_axpy in Hrows by (rewrite Hp; symmetry; now apply Hlen).
  rewrite Hvp in Hrows. rewrite <- Hrows. ring.
Qed.

Lemma unit_rows_app c : forall l1 l2 k,
  unit_rows c k l1 -> unit_rows c (k + List.length l1) l2 -> unit_rows c k (l1 ++ l2).
Proof.
  induction l1 as [| r l1 IH]; intros l2 k H1 H2; simpl in *.
  - now rewrite Nat.add_0_r in H2.
  - destruct H1 as [Hr H1]. split; [assumption |].
    apply IH; [assumption |]. now rewrite Nat.add_succ_comm.
Qed.

Lemma eliminate_unit_rows c p : forall rows k,
  sized p -> Forall sized rows ->
  zero_before c p -> entry p c == 1 ->
  unit_rows c k rows -> (k + List.length rows <= c)%nat ->
  unit_rows (S c) k (eliminate c p rows).
Proof.
  intros rows k Hsp Hsr Hp0 Hp1. unfold zero_before in Hp0. revert k.
  induction rows as [| r rows IH]; intros k Hunit Hk; simpl in *; [exact I |].
  inversion Hsr as [| ? ? Hr Hsr']; subst. destruct Hunit as [Hrk Hunit].
  split.
  - intros j Hj. rewrite entry_axpy by (unfold sized in *; congruence).
    destruct (Nat.eq_dec j c) as [-> | Hne].
    + rewrite Hp1. unfold delta.
      destruct (Nat.eqb_spec k c); [lia | ring].
    + rewrite Hp0, Hrk by lia. ring.
  - apply IH; [assumption | assumption | lia].
Qed.

Lemma eliminate_zero_before c p rows :
  sized p -> Forall sized rows ->
  zero_before c p -> entry p c == 1 ->
  Forall (zero_before c) rows ->
  Forall (zero_before (S c)) (eliminate c p rows).
Proof.
  intros Hsp Hsr Hp0 Hp1 Hrows. unfold zero_before in *.
  unfold eliminate. apply Forall_map.
  rewrite Forall_forall in *. intros r Hr j Hj.
  rewrite entry_axpy by (unfold sized in *; rewrite Hsp; symmetry; now apply Hsr).
  destruct (Nat.eq_dec j c) as [-> | Hne].
  - rewrite Hp1. ring.
  - rewrite Hp0, (Hrows r Hr) by lia. ring.
Qed.

(** One round: pivot row [p], found between [before] and [after]. *)
Section Step.
Variables (c : nat) (done before after : list (list Q)) (p : list Q).
Hypothesis Hpivot : ~ entry p c == 0.
Hypothesis Hsd : Forall sized done.
Hypothesis Hst : Forall sized (before ++ p :: after).

Let p' := scale (/ entry p c) p.
Let done' := eliminate c p' done ++ [p'].
Let todo' := eliminate c p' (before ++ after).

Lemma step_parts : sized p /\ sized p' /\ Forall sized (before ++ after).
Proof.
  apply Forall_app in Hst. destruct Hst as [Hsb Hsa].
  apply Forall_cons_iff in Hsa. destruct Hsa as [Hsp Hsa'].
  split; [assumption |]. split.
  - unfold sized, p'. now rewrite length_scale.
  - apply Forall_app. now split.
Qed.

Lemma step_sized : Forall sized done' /\ Forall sized todo'.
Proof.
  destruct step_parts as (Hsp & Hsp' & Hsba). split.
  - apply Forall_app. split; [now apply eliminate_sized | now constructor].
  - now apply eliminate_sized.
Qed.

Lemma step_vanishes :
  Forall vanishes done -> Forall vanishes (before ++ p :: after) ->
  Forall vanishes done' /\ Forall vanishes todo'.
Proof.
  intros Hvd Hvt. destruct step_parts as (Hsp & Hsp' & Hsba).
  apply Forall_app in Hvt. destruct Hvt as [Hvb Hva].
  apply Forall_cons_iff in Hva. destruct Hva as [Hvp Hva'].
  assert (Hvp' : vanishes p').
  { unfold vanishes in Hvp |- *. unfold p'. rewrite dot_scale, Hvp. ring. }
  split.
  - apply Forall_app. split; [now apply eliminate_vanishes | now constructor].
  - apply eliminate_vanishes; try assumption. apply Forall_app. now split.
Qed.

Lemma step_vanishes_rev :
  Forall vanishes done' -> Forall vanishes todo' ->
  Forall vanishes done /\ Forall vanishes (before ++ p :: after).
Proof.
  intros Hvd' Hvt'. destruct step_parts as (Hsp & Hsp' & Hsba).
  apply Forall_app in Hvd'. destruct Hvd' as [Hvd' Hvp'].
  apply Forall_cons_iff in Hvp'. destruct Hvp' as [Hvp' _].
  assert (Hvp : vanishes p).
  { unfold vanishes in Hvp' |- *. unfold p' in Hvp'. rewrite dot_scale in Hvp'.
    rewrite <- (Qmult_1_l (dot p z)), <- (Qmult_inv_r (entry p c) Hpivot).
    rewrite <- Qmult_assoc, Hvp'. ring. }
  apply eliminate_vanishes_rev in Hvd'; try assumption.
  apply eliminate_vanishes_rev in Hvt'; try assumption.
  apply Forall_app in Hvt'. destruct Hvt' as [Hvb Hva].
  split; [assumption |]. apply Forall_app. split; [assumption | now constructor].
Qed.

Lemma step_unit_rows :
  List.length done = c -> unit_rows c 0 done ->
  Forall (zero_before c) (before ++ p :: after) ->
  List.length done' = S c /\ unit_rows (S c) 0 done' /\
  Forall (zero_before (S c)) todo'.
Proof.
  intros Hlen Hunit Hzero. destruct step_parts as (Hsp & Hsp' & Hsba).
  apply Forall_app in Hzero. destruct Hzero as [Hzb Hza].
  apply Forall_cons_iff in Hza. destruct Hza as [Hzp Hza'].
  assert (Hp0 : zero_before c p').
  { intros j Hj. unfold p'. rewrite entry_scale, (Hzp j Hj : entry p j == 0). ring. }
  assert (Hp1 : entry p' c == 1).
  { unfold p'. rewrite entry_scale. field. assumption. }
  split; [| split].
  - unfold done', eliminate. rewrite length_app, length_map. simpl. lia.
  - apply unit_rows_app.
    + apply eliminate_unit_rows; try assumption. lia.
    + unfold eliminate. rewrite length_map, Hlen. simpl. split; [| exact I].
      intros j Hj. unfold delta.
      destruct (Nat.eqb_spec c j) as [<- | Hne]; [assumption |].
      apply Hp0. lia.
  - apply eliminate_zero_before; try assumption. apply Forall_app. now split.
Qed.
End Step.

Lemma gauss_jordan_vanishes : forall fuel c done todo rows,
  gauss_jordan fuel c done todo = Some rows ->
  Forall sized done -> Forall sized todo ->
  Forall vanishes done -> Forall vanishes todo ->
  Forall sized rows /\ Forall vanishes rows.
Proof.
  induction fuel as [| fuel IH]; intros c done todo rows Hrun Hsd Hst Hvd Hvt.
  - injection Hrun as <-. now split.
  - simpl in Hrun.
    destruct (find_pivot c todo) as [[[before p] after] |] eqn:Hpiv; [| discriminate].
    destruct (find_pivot_some _ _ _ _ _ Hpiv) as [-> Hp].
    destruct (step_sized c done before after p Hsd Hst) as [Hsd' Hst'].
    destruct (step_vanishes c done before after p Hsd Hst Hvd Hvt) as [Hvd' Hvt'].
    exact (IH _ _ _ _ Hrun Hsd' Hst' Hvd' Hvt').
Qed.

Lemma gauss_jordan_vanishes_rev : forall fuel c done todo rows,
  gauss_jordan fuel c done todo = Some rows ->
  Forall sized done -> Forall sized todo -> List.length todo = fuel ->
  Forall vanishes rows ->
  Forall vanishes done /\ Forall vanishes todo.
Proof.
  induction fuel as [| fuel IH]; intros c done todo rows Hrun Hsd Hst Hfuel Hvr.
  - simpl in Hrun. injection Hrun as <-.
    destruct todo; [| discriminate]. split; [assumption | constructor].
  - simpl in Hrun.
    destruct (find_pivot c todo) as [[[before p] after] |] eqn:Hpiv; [| discriminate].
    destruct (find_pivot_some _ _ _ _ _ Hpiv) as [-> Hp].
    destruct (step_sized c done before after p Hsd Hst) as [Hsd' Hst'].
    destruct (IH _ _ _ _ Hrun Hsd' Hst') as [Hvd' Hvt']; [| assumption |].
    { unfold eliminate. rewrite length_map, length_app.
      rewrite length_app in Hfuel. simpl in Hfuel. lia. }
    exact (step_vanishes_rev c done before after p Hp Hsd Hst Hvd' Hvt').
Qed.

Lemma gauss_jordan_unit_rows : forall fuel c done todo rows,
  gauss_jordan fuel c done todo = Some rows ->
  Forall sized done -> Forall sized todo ->
  List.length done = c -> unit_rows c 0 done ->
  Forall (zero_before c) todo ->
  List.length rows = (c + fuel)%nat /\ unit_rows (c + fuel) 0 rows.
Proof.
  induction fuel as [| fuel IH]; intros c done todo rows Hrun Hsd Hst Hlen Hunit Hzero.
  - injection Hrun as <-. rewrite Nat.add_0_r. now split.
  - simpl in Hrun.
    destruct (find_pivot c todo) as [[[before p] after] |] eqn:Hpiv; [| discriminate].
    destruct (find_pivot_some _ _ _ _ _ Hpiv) as [-> Hp].
    destruct (step_sized c done before after p Hsd Hst) as [Hsd' Hst'].
    destruct (step_unit_rows c done before after p Hp Hsd Hst Hlen Hunit Hzero)
      as (Hlen' & Hunit' & Hzero').
    rewrite <- Nat.add_succ_comm.
    exact (IH _ _ _ _ Hrun Hsd' Hst' Hlen' Hunit' Hzero').
Qed.

End Elimination.

(** *** The inverse is a left inverse *)

Lemma dot_zero_l : forall x r,
  (forall j, (j < List.length x)%nat -> entry r j == 0) -> dot r x == 0.
Proof.
  induction x as [| b x IH]; intros r Hr; [now rewrite dot_nil_r |].
  destruct r as [| a r]; [reflexivity |].
  assert (Ha : a == 0) by (apply (Hr 0%nat); simpl; lia).
  rewrite dot_cons, IH, Ha; [ring |].
  intros j Hj. apply (Hr (S j)). simpl. lia.
Qed.

Lemma dot_delta : forall x i r,
  (i < List.length x)%nat ->
  (forall j, (j < List.length x)%nat -> entry r j == delta i j) ->
  dot r x == entry x i.
Proof.
  induction x as [| b x IH]; intros i r Hi Hr; [simpl in Hi; lia |].
  destruct r as [| a r].
  - specialize (Hr i Hi). rewrite entry_nil in Hr. unfold delta in Hr.
    rewrite Nat.eqb_refl in Hr. discriminate Hr.
  - assert (Ha : a == delta i 0) by (apply (Hr 0%nat); simpl; lia).
    rewrite dot_cons, Ha. destruct i as [| i].
    + rewrite dot_zero_l; [unfold entry, delta; simpl; ring |].
      intros j Hj. apply (Hr (S j)). simpl. lia.
    + rewrite (IH i r).
      * unfold entry, delta. simpl. ring.
      * simpl in Hi. lia.
      * intros j Hj. apply (Hr (S j)). simpl. lia.
Qed.

Lemma dot_app_r : forall x r y,
  (List.length x <= List.length r)%nat ->
  dot r (x ++ y) == dot r x + dot (skipn (List.length x) r) y.
Proof.
  induction x as [| b x IH]; intros r y Hlen.
  - simpl. rewrite dot_nil_r. ring.
  - destruct r as [| a r]; [simpl in Hlen; lia |].
    simpl app. simpl skipn. rewrite !dot_cons, IH by (simpl in Hlen; lia). ring.
Qed.

Lemma dot_app_both : forall u x e y,
  List.length u = List.length x ->
  dot (u ++ e) (x ++ y) == dot u x + dot e y.
Proof.
  induction u as [| a u IH]; intros [| b x] e y Hlen; try discriminate.
  - simpl. unfold dot at 2. simpl. ring.
  - simpl app. rewrite !dot_cons, IH by (simpl in Hlen; lia). ring.
Qed.

Lemma dot_opp_r : forall u v, dot u (map Qopp v) == - dot u v.
Proof.
  induction u as [| a u IH]; intros [| b v]; simpl map;
    rewrite ?dot_nil_r; try (unfold dot; simpl; ring).
  rewrite !dot_cons, IH. ring.
Qed.

Lemma entry_map {A} (f : A -> Q) l i a :
  nth_error l i = Some a -> entry (map f l) i = f a.
Proof.
  intros H. unfold entry. apply nth_error_nth. now apply map_nth_error.
Qed.

Lemma entry_unit_row n i j : (j < n)%nat -> entry (unit_row n i) j = delta i j.
Proof.
  intros Hj. unfold unit_row.
  rewrite (entry_map _ _ _ j); [reflexivity |].
  rewrite nth_error_seq. destruct (Nat.ltb_spec j n); [reflexivity | lia].
Qed.

Lemma length_unit_row n i : List.length (unit_row n i) = n.
Proof. unfold unit_row. now rewrite length_map, length_seq. Qed.

Lemma unit_rows_nth c : forall rows k i r,
  unit_rows c k rows -> nth_error rows i = Some r ->
  forall j, (j < c)%nat -> entry r j == delta (k + i) j.
Proof.
  induction rows as [| r0 rows IH]; intros k i r Hunit Hi; [destruct i; discriminate |].
  destruct Hunit as [Hr0 Hunit]. destruct i as [| i]; simpl in Hi.
  - injection Hi as <-. now rewrite Nat.add_0_r.
  - rewrite <- Nat.add_succ_comm. now apply (IH _ _ _ Hunit Hi).
Qed.

Lemma In_combine_seq {A B} (f : nat -> B) : forall (l : list A) k m u v,
  In (u, v) (combine l (map f (seq k m))) ->
  exists i, nth_error l i = Some u /\ v = f (k + i)%nat /\ (i < m)%nat.
Proof.
  induction l as [| a l IH]; intros k m u v Hin; [contradiction |].
  destruct m as [| m]; [contradiction |]. simpl in Hin.
  destruct Hin as [Heq | Hin].
  - injection Heq as <- <-. exists 0%nat. rewrite Nat.add_0_r.
    split; [reflexivity |]. split; [reflexivity | lia].
  - destruct (IH _ _ _ _ Hin) as (i & Hi & -> & Hlt).
    exists (S i). split; [assumption |]. split; [f_equal; lia | lia].
Qed.

Theorem inv_left_inverse n M N :
  exact_inv n M = Ok N ->
  List.length M = n -> Forall (fun r => List.length r = n) M ->
  forall x, List.length x = n ->
  forall i, (i < n)%nat -> entry (matvec N (matvec M x)) i == entry x i.
Proof.
  intros Hinv HM Hrows x Hx i Hi. unfold exact_inv in Hinv.
  set (aug := map (fun '(r, e) => r ++ e) (combine M (identity n))) in Hinv.
  destruct (gauss_jordan n 0 [] aug) as [rows |] eqn:Hrun; [| discriminate].
  injection Hinv as <-.
  set (y := map Qopp (matvec M x)).
  assert (Hy : List.length y = n) by (unfold y, matvec; now rewrite !length_map).
  assert (Hsized : Forall (fun r => List.length r = (n + n)%nat) aug).
  { apply Forall_forall. intros r Hr. unfold aug in Hr.
    apply in_map_iff in Hr. destruct Hr as ([u e] & <- & Hin).
    destruct (In_combine_seq _ _ _ _ _ _ Hin) as (k & Hk & -> & _).
    rewrite length_app, length_unit_row. f_equal.
    rewrite Forall_forall in Hrows. apply Hrows. eapply nth_error_In; eassumption. }
  assert (Hvanish : Forall (fun r => dot r (x ++ y) == 0) aug).
  { apply Forall_forall. intros r Hr. unfold aug in Hr.
    apply in_map_iff in Hr. destruct Hr as ([u e] & <- & Hin).
    destruct (In_combine_seq _ _ _ _ _ _ Hin) as (k & Hk & -> & Hkn).
    assert (Hu : List.length u = n).
    { rewrite Forall_forall in Hrows. apply Hrows. eapply nth_error_In; eassumption. }
    rewrite dot_app_both by congruence.
    rewrite (dot_delta y k) by
      (rewrite ?Hy; try assumption; intros j Hj; rewrite entry_unit_row by lia; reflexivity).
    unfold y, matvec. rewrite map_map. rewrite (entry_map _ _ _ _ Hk). ring. }
  destruct (gauss_jordan_vanishes (n + n) (x ++ y) _ _ _ _ _ Hrun
              (Forall_nil _) Hsized (Forall_nil _) Hvanish) as [Hsz Hvan].
  destruct (gauss_jordan_unit_rows (n + n) _ _ _ _ _ Hrun
              (Forall_nil _) Hsized eq_refl I) as [Hlen Hunit].
  { apply Forall_forall. intros r _ j Hj. lia. }
  simpl in Hlen, Hunit.
  destruct (nth_error rows i) as [r |] eqn:Hr;
    [| apply nth_error_None in Hr; lia].
  assert (Hrz : dot r (x ++ y) == 0).
  { rewrite Forall_forall in Hvan. apply Hvan. eapply nth_error_In; eassumption. }
  assert (Hrl : List.length r = (n + n)%nat).
  { rewrite Forall_forall in Hsz. apply Hsz. eapply nth_error_In; eassumption. }
  rewrite dot_app_r in Hrz by lia.
  rewrite (dot_delta x i) in Hrz by
    (rewrite ?Hx; try assumption; intros j Hj;
     apply (unit_rows_nth _ _ _ _ _ Hunit Hr); lia).
  unfold y in Hrz. rewrite dot_opp_r, Hx in Hrz.
  unfold matvec at 1. rewrite map_map.
  rewrite (entry_map _ _ _ _ Hr).
  rewrite <- (Qplus_0_r (dot _ _)), <- Hrz. ring.
Qed.

Lemma nth_error_combine_seq {A B} (f : nat -> B) : forall (l : list A) k m i u,
  nth_error l i = Some u -> (i < m)%nat ->
  nth_error (combine l (map f (seq k m))) i = Some (u, f (k + i)%nat).
Proof.
  induction l as [| a l IH]; intros k m i u Hi Hlt; [destruct i; discriminate |].
  destruct m as [| m]; [lia |]. destruct i as [| i]; simpl in *.
  - injection Hi as <-. now rewrite Nat.add_0_r.
  - rewrite (IH (S k) m i u Hi) by lia. now rewrite Nat.add_succ_comm.
Qed.

Lemma Forall_nth_error {A} (P : A -> Prop) l :
  (forall i a, nth_error l i = Some a -> P a) -> Forall P l.
Proof.
  intros H. apply Forall_forall. intros a Ha.
  destruct (In_nth_error _ _ Ha) as [i Hi]. eauto.
Qed.

Theorem inv_right_inverse n M N :
  exact_inv n M = Ok N ->
  List.length M = n -> Forall (fun r => List.length r = n) M ->
  forall b, List.length b = n ->
  forall i, (i < n)%nat -> entry (matvec M (matvec N b)) i == entry b i.
Proof.
  intros Hinv HM Hrows b Hb i Hi. unfold exact_inv in Hinv.
  set (aug := map (fun '(r, e) => r ++ e) (combine M (identity n))) in Hinv.
  destruct (gauss_jordan n 0 [] aug) as [rows |] eqn:Hrun; [| discriminate].
  injection Hinv as <-.
  set (x := matvec (map (skipn n) rows) b).
  assert (Hsized : Forall (fun r => List.length r = (n + n)%nat) aug).
  { apply Forall_forall. intros r Hr. unfold aug in Hr.
    apply in_map_iff in Hr. destruct Hr as ([u e] & <- & Hin).
    destruct (In_combine_seq _ _ _ _ _ _ Hin) as (k & Hk & -> & _).
    rewrite length_app, length_unit_row. f_equal.
    rewrite Forall_forall in Hrows. apply Hrows. eapply nth_error_In; eassumption. }
  destruct (gauss_jordan_unit_rows (n + n) _ _ _ _ _ Hrun
              (Forall_nil _) Hsized eq_refl I) as [Hlen Hunit].
  { apply Forall_forall. intros r _ j Hj. lia. }
  simpl in Hlen, Hunit.
  assert (Hx : List.length x = n) by (unfold x, matvec; now rewrite !length_map).
  assert (Hsz : Forall (fun r => List.length r = (n + n)%nat) rows).
  { destruct (gauss_jordan_vanishes (n + n) [] _ _ _ _ _ Hrun
                (Forall_nil _) Hsized (Forall_nil _)) as [H _]; [| exact H].
    apply Forall_forall. intros r _. now rewrite dot_nil_r. }
  assert (Hvan : Forall (fun r => dot r (x ++ map Qopp b) == 0) rows).
  { apply Forall_nth_error. intros k r Hr.
    assert (Hk : (k < n)%nat) by (rewrite <- Hlen; apply nth_error_Some; congruence).
    assert (Hrl : List.length r = (n + n)%nat).
    { rewrite Forall_forall in Hsz. apply Hsz. eapply nth_error_In; eassumption. }
    rewrite dot_app_r by lia.
    rewrite (dot_delta x k) by
      (rewrite ?Hx; try assumption; intros j Hj;
       apply (unit_rows_nth _ _ _ _ _ Hunit Hr); lia).
    rewrite dot_opp_r, Hx. unfold x, matvec. rewrite map_map.
    rewrite (entry_map _ _ _ _ Hr). ring. }
  destruct (gauss_jordan_vanishes_rev (n + n) (x ++ map Qopp b) _ _ _ _ _ Hrun
              (Forall_nil _) Hsized) as [_ Horig]; [| exact Hvan |].
  { unfold aug, identity.
    rewrite length_map, length_combine, length_map, length_seq. lia. }
  destruct (nth_error M i) as [u |] eqn:Hu;
    [| apply nth_error_None in Hu; lia].
  assert (Hul : List.length u = n).
  { rewrite Forall_forall in Hrows. apply Hrows. eapply nth_error_In; eassumption. }
  assert (Hin : In (u ++ unit_row n i) aug).
  { unfold aug. apply in_map_iff. exists (u, unit_row n i). split; [reflexivity |].
    eapply nth_error_In. unfold identity.
    apply (nth_error_combine_seq (unit_row n) M 0 n i u Hu Hi). }
  rewrite Forall_forall in Horig. specialize (Horig _ Hin).
  rewrite dot_app_both in Horig by congruence.
  rewrite (dot_delta (map Qopp b) i) in Horig by
    (rewrite ?length_map, ?Hb; try assumption;
     intros j Hj; rewrite entry_unit_row by lia; reflexivity).
  destruct (nth_error b i) as [bi |] eqn:Hbi;
    [| apply nth_error_None in Hbi; lia].
  rewrite (entry_map _ _ _ _ Hbi) in Horig.
  unfold matvec at 1. rewrite (entry_map _ _ _ _ Hu).
  unfold entry at 1. rewrite (nth_error_nth _ _ _ Hbi).
  fold x. rewrite <- (Qplus_0_r bi), <- Horig. ring.
Qed.

(** *** Products of matrices and vectors *)

Lemma dot_zeros_l : forall u v, vzero u -> dot u v == 0.
Proof.
  induction u as [| a u IH]; intros [| b v] Hu; try reflexivity.
  apply Forall_cons_iff in Hu. destruct Hu as [Ha Hu].
  rewrite dot_cons, Ha, IH by assumption. ring.
Qed.

Lemma dot_zeros_r : forall u v, vzero v -> dot u v == 0.
Proof.
  induction u as [| a u IH]; intros [| b v] Hv; try reflexivity.
  apply Forall_cons_iff in Hv. destruct Hv as [Hb Hv].
  rewrite dot_cons, Hb, IH by assumption. ring.
Qed.

Lemma dot_ext_r : forall u v v', veq v v' -> dot u v == dot u v'.
Proof.
  induction u as [| a u IH]; intros v v' H; [reflexivity |].
  destruct H as [| b b' v v' Hb H]; [reflexivity |].
  rewrite !dot_cons, Hb, (IH v v' H). reflexivity.
Qed.

Lemma veq_entries : forall u v,
  List.length u = List.length v ->
  (forall i, (i < List.length u)%nat -> entry u i == entry v i) -> veq u v.
Proof.
  induction u as [| a u IH]; intros [| b v] Hlen H; try discriminate; [constructor |].
  constructor.
  - apply (H 0%nat). simpl. lia.
  - apply IH; [simpl in Hlen; lia |]. intros i Hi. apply (H (S i)). simpl. lia.
Qed.

Lemma veq_entry : forall u v, veq u v -> forall i, entry u i == entry v i.
Proof.
  intros u v H. induction H as [| a b u v Hab H IH]; intros [| i];
    unfold entry in *; simpl; try reflexivity; [assumption | apply IH].
Qed.

Lemma matvec_ext M v v' : veq v v' -> veq (matvec M v) (matvec M v').
Proof.
  intros H. unfold matvec. induction M as [| r M IH]; simpl; constructor;
    [now apply dot_ext_r | assumption].
Qed.

Lemma veq_trans u v w : veq u v -> veq v w -> veq u w.
Proof.
  intros H. revert w. induction H as [| a b u v Hab H IH]; intros w Hw;
    inversion Hw; subst; constructor; [now rewrite Hab | now apply IH].
Qed.

Lemma veq_sym u v : veq u v -> veq v u.
Proof.
  intros H. induction H; constructor; [now symmetry | assumption].
Qed.

(** A row times the matrix [b] of [m] columns, one more row at a time. *)
Lemma row_matmul_cons : forall m a r y Y v,
  (List.length v <= m)%nat ->
  dot (map (fun c => dot (a :: r) c) (transpose m (y :: Y))) v ==
  a * dot y v + dot (map (fun c => dot r c) (transpose m Y)) v.
Proof.
  induction m as [| m IH]; intros a r y Y v Hv.
  - destruct v; [| simpl in Hv; lia]. simpl. rewrite !dot_nil_r. ring.
  - cbn [transpose map]. destruct v as [| v0 v]; [rewrite !dot_nil_r; ring |].
    rewrite !dot_cons.
    rewrite (IH a r (tl y) (map (fun r0 => tl r0) Y) v) by (simpl in Hv; lia).
    destruct y as [| y0 y]; cbn [hd tl].
    + rewrite !dot_nil_l. ring.
    + rewrite dot_cons. ring.
Qed.

Lemma transpose_nil : forall m c, In c (transpose m []) -> c = [].
Proof.
  induction m as [| m IH]; intros c Hc; simpl in Hc; [contradiction |].
  destruct Hc as [<- | Hc]; [reflexivity | now apply IH].
Qed.

Lemma row_matmul : forall Y m r v,
  (List.length v <= m)%nat ->
  dot (map (fun c => dot r c) (transpose m Y)) v == dot r (matvec Y v).
Proof.
  induction Y as [| y Y IH]; intros m r v Hv.
  - simpl matvec. rewrite dot_nil_r. apply dot_zeros_l.
    apply Forall_map. apply Forall_forall. intros c Hc.
    rewrite (transpose_nil _ _ Hc). now rewrite dot_nil_r.
  - destruct r as [| a r].
    + unfold dot at 3. simpl. apply dot_zeros_l.
      apply Forall_map. apply Forall_forall. intros c _. reflexivity.
    + rewrite row_matmul_cons by assumption.
      simpl matvec. rewrite dot_cons, IH by assumption. reflexivity.
Qed.

Lemma matvec_matmul m X Y v :
  (List.length v <= m)%nat ->
  veq (matvec (matmul m X Y) v) (matvec X (matvec Y v)).
Proof.
  intros Hv. unfold matmul, matvec at 1 2. rewrite map_map.
  induction X as [| r X IH]; simpl; constructor; [| assumption].
  now apply row_matmul.
Qed.

(** *** Failure of the inversion *)

Lemma skipn_entry : forall c (r : list Q),
  (c < List.length r)%nat -> skipn c r = entry r c :: skipn (S c) r.
Proof.
  induction c as [| c IH]; intros [| a r] Hc; simpl in Hc; try lia.
  - reflexivity.
  - simpl skipn at 1. rewrite (IH r) by lia. reflexivity.
Qed.

Lemma vzero_repeat k : vzero (repeat 0 k).
Proof.
  apply Forall_forall. intros a Ha. apply repeat_spec in Ha. now subst.
Qed.

Lemma dot_app_l : forall u e v,
  List.length u = List.length v -> dot (u ++ e) v == dot u v.
Proof.
  intros u e v Hlen. rewrite <- (app_nil_r v) at 1.
  rewrite dot_app_both, dot_nil_r by assumption. ring.
Qed.

Lemma gauss_jordan_none n : forall fuel c done todo,
  gauss_jordan fuel c done todo = None ->
  Forall (fun r => List.length r = (n + n)%nat) done ->
  Forall (fun r => List.length r = (n + n)%nat) todo ->
  List.length done = c -> (c + fuel = n)%nat -> unit_rows c 0 done ->
  Forall (fun r => forall j, (j < c)%nat -> entry r j == 0) todo ->
  exists v, List.length v = n /\ ~ vzero v /\
    Forall (fun r => dot r v == 0) done /\ Forall (fun r => dot r v == 0) todo.
Proof.
  induction fuel as [| fuel IH]; intros c done todo Hrun Hsd Hst Hlen Hcn Hunit Hzero;
    [discriminate |].
  simpl in Hrun.
  destruct (find_pivot c todo) as [[[before p] after] |] eqn:Hpiv.
  - destruct (find_pivot_some _ _ _ _ _ Hpiv) as [-> Hp].
    destruct (step_sized (n + n) c done before after p Hsd Hst) as [Hsd' Hst'].
    destruct (step_unit_rows (n + n) c done before after p Hp Hsd Hst Hlen Hunit Hzero)
      as (Hlen' & Hunit' & Hzero').
    destruct (IH _ _ _ Hrun Hsd' Hst' Hlen' ltac:(lia) Hunit' Hzero')
      as (v & Hv & Hnz & Hvd' & Hvt').
    exists v. split; [assumption |]. split; [assumption |].
    exact (step_vanishes_rev (n + n) v c done before after p Hp Hsd Hst Hvd' Hvt').
  - pose proof (find_pivot_none _ _ Hpiv) as Hcol.
    set (v1 := map (fun r => entry r c) done).
    assert (Hv1 : List.length v1 = c) by (unfold v1; now rewrite length_map).
    exists (v1 ++ (- (1)) :: repeat 0 fuel).
    split; [rewrite length_app; simpl; rewrite repeat_length; lia |].
    split.
    { intros Hz. apply Forall_app in Hz. destruct Hz as [_ Hz].
      apply Forall_cons_iff in Hz. destruct Hz as [Hz _]. discriminate Hz. }
    assert (Htail : forall r, List.length r = (n + n)%nat ->
              dot (skipn c r) (- (1) :: repeat 0 fuel) == - entry r c).
    { intros r Hr. rewrite skipn_entry by lia.
      rewrite dot_cons, (dot_zeros_r _ _ (vzero_repeat fuel)). ring. }
    split.
    + apply Forall_nth_error. intros i r Hr.
      assert (Hi : (i < c)%nat) by (rewrite <- Hlen; apply nth_error_Some; congruence).
      assert (Hrl : List.length r = (n + n)%nat).
      { rewrite Forall_forall in Hsd. apply Hsd. eapply nth_error_In; eassumption. }
      rewrite dot_app_r by lia. rewrite Hv1, (Htail r Hrl).
      rewrite (dot_delta v1 i) by
        (rewrite ?Hv1; try assumption; intros j Hj;
         apply (unit_rows_nth _ _ _ _ _ Hunit Hr); lia).
      unfold v1. rewrite (entry_map _ _ _ _ Hr). ring.
    + rewrite Forall_forall in *. intros r Hr.
      rewrite dot_app_r by (rewrite Hv1, (Hst r Hr); lia).
      rewrite Hv1, (Htail r (Hst r Hr)), (Hcol r Hr).
      rewrite dot_zero_l by (rewrite Hv1; intros j Hj; now apply (Hzero r Hr)).
      ring.
Qed.

Lemma inv_error n M e : exact_inv n M = Err e -> e = LinAlgError.
Proof.
  unfold exact_inv. destruct (gauss_jordan _ _ _ _); [discriminate | congruence].
Qed.

(** On a square matrix the exact inversion fails exactly when the matrix
    is singular. *)
Theorem inv_fails_iff_singular n M :
  List.length M = n -> Forall (fun r => List.length r = n) M ->
  (exact_inv n M = Err LinAlgError <-> singular n M).
Proof.
  intros HM Hrows. split.
  - intros Hinv. unfold exact_inv in Hinv.
    set (aug := map (fun '(r, e) => r ++ e) (combine M (identity n))) in Hinv.
    destruct (gauss_jordan n 0 [] aug) eqn:Hrun; [discriminate |].
    assert (Hsized : Forall (fun r => List.length r = (n + n)%nat) aug).
    { apply Forall_forall. intros r Hr. unfold aug in Hr.
      apply in_map_iff in Hr. destruct Hr as ([u e0] & <- & Hin).
      destruct (In_combine_seq _ _ _ _ _ _ Hin) as (k & Hk & -> & _).
      rewrite length_app, length_unit_row. f_equal.
      rewrite Forall_forall in Hrows. apply Hrows. eapply nth_error_In; eassumption. }
    destruct (gauss_jordan_none n n 0 [] aug Hrun (Forall_nil _) Hsized eq_refl eq_refl I)
      as (v & Hv & Hnz & _ & Hvan).
    { apply Forall_forall. intros r _ j Hj. lia. }
    exists v. split; [assumption |]. split; [assumption |].
    unfold matvec. apply Forall_map. apply Forall_nth_error. intros i u Hu.
    assert (Hi : (i < n)%nat) by (rewrite <- HM; apply nth_error_Some; congruence).
    assert (Hul : List.length u = n).
    { rewrite Forall_forall in Hrows. apply Hrows. eapply nth_error_In; eassumption. }
    assert (Hin : In (u ++ unit_row n i) aug).
    { unfold aug. apply in_map_iff. exists (u, unit_row n i). split; [reflexivity |].
      eapply nth_error_In. unfold identity.
      apply (nth_error_combine_seq (unit_row n) M 0 n i u Hu Hi). }
    rewrite Forall_forall in Hvan. specialize (Hvan _ Hin).
    rewrite dot_app_l in Hvan by congruence. exact Hvan.
  - intros (v & Hv & Hnz & Hzero).
    destruct (exact_inv n M) as [N | e] eqn:Hinv; [| now rewrite (inv_error _ _ _ Hinv)].
    exfalso. apply Hnz. apply Forall_nth_error. intros i a Ha.
    assert (Hi : (i < n)%nat) by (rewrite <- Hv; apply nth_error_Some; congruence).
    pose proof (inv_left_inverse n M N Hinv HM Hrows v Hv i Hi) as Hleft.
    unfold entry at 2 in Hleft. rewrite (nth_error_nth _ _ _ Ha) in Hleft.
    rewrite <- Hleft. unfold matvec at 1.
    destruct (nth_error N i) as [r |] eqn:Hr.
    + rewrite (entry_map _ _ _ _ Hr). now apply dot_zeros_r.
    + unfold entry. rewrite nth_overflow; [reflexivity |].
      rewrite length_map. now apply nth_error_None.
Qed.

(** *** The solve *)

Lemma length_transpose : forall n m, List.length (transpose n m) = n.
Proof.
  induction n as [| n IH]; intros m; simpl; [reflexivity | now rewrite IH].
Qed.

Lemma matmul_square n a b :
  List.length a = n ->
  List.length (matmul n a b) = n /\
  Forall (fun r => List.length r = n) (matmul n a b).
Proof.
  intros Ha. unfold matmul. split; [now rewrite length_map |].
  apply Forall_map. apply Forall_forall. intros r _.
  now rewrite length_map, length_transpose.
Qed.

(** Claim C2 as stated fails on the corners of a 100000 x 1 image tilted
    forward with magnitude 1: the four destination corners all lie in the
    strip [0 <= y <= 1] while they span 300000 in [x].  Whatever matrix the
    inversion returns on this system, the solve returns coefficients and
    raises nothing; the system does have an inverse, and with the exact one
    the coefficients are those shown. *)
Lemma thin_image_solve_returns :
  let new_plane : list point := [(- (100000), 0); (200000, 0); (100000, 1); (0, 1)] in
  let original_plane : list point := [(0, 0); (100000, 0); (100000, 1); (0, 1)] in
  Forall (fun p => 0 <= snd p <= 1) new_plane /\
  (forall linalg_inv N,
     linalg_inv (normal_matrix new_plane original_plane) = Ok N ->
     exists k, coefficients linalg_inv new_plane original_plane = Ok k) /\
  coefficients (exact_inv 8) new_plane original_plane
    = Ok [1 # 3; - (100000) # 3; 100000 # 3; 0; 1 # 3; 0; 0; - (2) # 3] /\
  run (perform_operation (exact_inv 8) (mkSkew "TILT" 1) 100000 1) forward_tilt_rng
    = coefficients (exact_inv 8) new_plane original_plane.
Proof.
  cbv zeta. split; [| split].
  - repeat constructor; discriminate.
  - intros linalg_inv N HN. unfold coefficients.
    change (matmul 8 (transpose 8 (equations ?a ?b)) (equations ?a ?b))
      with (normal_matrix a b).
    rewrite HN. eexists. reflexivity.
  - split; vm_compute; reflexivity.
Qed.

(** C2, amended. The projective solve checks no conditioning and has no
    error of its own.  Whatever the four correspondences, near-degenerate
    or not, and whatever [np.linalg.inv] does on the matrix [A.T * A]: the
    solve fails exactly when the inversion raises, with the exception the
    inversion raised, and it returns exactly when the inversion returns a
    matrix [N], the coefficients being [N * A.T] applied to [B]. *)
Theorem solve_checks_no_conditioning linalg_inv (new_plane original_plane : list point) :
  List.length new_plane = 4%nat -> List.length original_plane = 4%nat ->
  let M := normal_matrix new_plane original_plane in
  let At := transpose 8 (equations new_plane original_plane) in
  let B := flat_map (fun p => [fst p; snd p]) original_plane in
  (forall e, coefficients linalg_inv new_plane original_plane = Err e
             <-> linalg_inv M = Err e) /\
  (forall k, coefficients linalg_inv new_plane original_plane = Ok k
             <-> exists N, linalg_inv M = Ok N /\ k = matvec (matmul 8 N At) B).
Proof.
  intros _ _ M At B.
  assert (Hcoef : coefficients linalg_inv new_plane original_plane =
                  match linalg_inv M with
                  | Ok N => Ok (matvec (matmul 8 N At) B)
                  | Err e => Err e
                  end) by reflexivity.
  rewrite Hcoef. clear Hcoef.
  destruct (linalg_inv M) as [N | e0]; split.
  - intros e. split; discriminate.
  - intros k. split.
    + intros H. injection H as <-. now exists N.
    + intros (N' & HN' & ->). injection HN' as <-. reflexivity.
  - intros e. split; intros H; injection H as <-; reflexivity.
  - intros k. split; [discriminate |]. intros (N & HN & _). discriminate.
Qed.

Lemma solve_checks_no_conditioning_witness :
  let new_plane : list point := [(- (100000), 0); (200000, 0); (100000, 1); (0, 1)] in
  let original_plane : list point := [(0, 0); (100000, 0); (100000, 1); (0, 1)] in
  let M := normal_matrix new_plane original_plane in
  let At := transpose 8 (equations new_plane original_plane) in
  let B := flat_map (fun p => [fst p; snd p]) original_plane in
  List.length new_plane = 4%nat /\ List.length original_plane = 4%nat /\
  (forall e, coefficients (exact_inv 8) new_plane original_plane = Err e
             <-> exact_inv 8 M = Err e) /\
  (forall k, coefficients (exact_inv 8) new_plane original_plane = Ok k
             <-> exists N, exact_inv 8 M = Ok N /\ k = matvec (matmul 8 N At) B).
Proof.
  cbv zeta. split; [reflexivity |]. split; [reflexivity |].
  apply (solve_checks_no_conditioning (exact_inv 8)
           [(- (100000), 0); (200000, 0); (100000, 1); (0, 1)]
           [(0, 0); (100000, 0); (100000, 1); (0, 1)]); reflexivity.
Defined.

End SolveFacts.

(** ** Distort: further properties *)

Module DistortMore.
Import Distort DistortFacts.

(** X1. A grid with no cell along one axis makes [Distort.perform_operation]
    raise [ZeroDivisionError], for every image and magnitude. *)
Theorem distort_zero_grid gw gh m w h g :
  gw = 0 \/ gh = 0 ->
  generated_mesh (init gw gh m) w h g = Err ZeroDivisionError.
Proof.
  intros Hz. unfold generated_mesh, init, floor_div, bind, lift.
  cbn [grid_width grid_height magnitude].
  destruct (Z.eqb_spec gw 0); [reflexivity |].
  destruct (Z.eqb_spec gh 0); [reflexivity | lia].
Qed.

Lemma distort_zero_grid_witness :
  (3 = 0 \/ 0 = 0) /\
  generated_mesh (init 3 0 5) 100 100 demo_rng = Err ZeroDivisionError.
Proof.
  assert (H : 3 = 0 \/ 0 = 0) by (right; reflexivity).
  split; [exact H |]. exact (distort_zero_grid 3 0 5 100 100 demo_rng H).
Defined.

Lemma mesh_cells gw gh m w h g :
  1 <= gw -> 1 <= gh ->
  exists mesh,
    generated_mesh (init gw gh m) w h g
      = Ok (mesh, advance g (2 * List.length (inner_cells gw gh))) /\
    forall k bp, nth_error mesh k = Some bp ->
      exists row col, 0 <= row < gh /\ 0 <= col < gw /\
        bp = (cell w h gw gh (w / gw) (h / gh) row col,
              displaced gw (Z.abs m) g (inner_cells gw gh) (row * gw + col)
                (polygon_of_box (cell w h gw gh (w / gw) (h / gh) row col))).
Proof.
  intros Hgw Hgh.
  destruct (generated_mesh_spec gw gh m w h g Hgw Hgh) as (mesh & Hrun & Hlen & Hcells).
  exists mesh. split; [assumption |].
  intros k bp Hk.
  assert (Hlt : (k < Z.to_nat (gh * gw))%nat)
    by (rewrite <- Hlen; apply nth_error_Some; congruence).
  destruct (grid_index_decompose gw gh k Hgw Hlt) as (row & col & Hr & Hc & ->).
  exists row, col. split; [assumption |]. split; [assumption |].
  rewrite (Hcells row col Hr Hc) in Hk. congruence.
Qed.

Lemma draw_zero g k : draw 0 g k = 0.
Proof. unfold draw. simpl. now rewrite Z.mod_1_r. Qed.

Lemma disp_zero L : forall g i, disp 0 g L i = (0, 0).
Proof.
  induction L as [| i' L IH]; intros g i; simpl; [reflexivity |].
  rewrite IH, !draw_zero. now destruct (i' =? i).
Qed.

(** X2. With magnitude 0 the mesh of [Distort.perform_operation] is the
    identity warp: every cell's quadrilateral is its own bounding box. *)
Theorem distort_magnitude_zero_identity gw gh w h g :
  1 <= gw -> 1 <= gh ->
  exists mesh g',
    generated_mesh (init gw gh 0) w h g = Ok (mesh, g') /\
    Forall (fun bp => snd bp = polygon_of_box (fst bp)) mesh.
Proof.
  intros Hgw Hgh.
  destruct (mesh_cells gw gh 0 w h g Hgw Hgh) as (mesh & Hrun & Hcells).
  eexists mesh, _. split; [exact Hrun |].
  apply SolveFacts.Forall_nth_error. intros k bp Hk.
  destruct (Hcells k bp Hk) as (row & col & _ & _ & ->).
  cbn [fst snd]. unfold displaced. simpl Z.abs. rewrite !disp_zero. cbn [fst snd].
  destruct (polygon_of_box _). simpl. f_equal; lia.
Qed.

Lemma distort_magnitude_zero_identity_witness :
  1 <= 4 /\ 1 <= 3 /\
  exists mesh g',
    generated_mesh (init 4 3 0) 100 50 demo_rng = Ok (mesh, g') /\
    Forall (fun bp => snd bp = polygon_of_box (fst bp)) mesh.
Proof.
  split; [lia |]. split; [lia |].
  apply (distort_magnitude_zero_identity 4 3 100 50 demo_rng); lia.
Defined.

Lemma disp_bounded mag g L i :
  0 <= mag -> NoDup L ->
  - mag <= fst (disp mag g L i) <= mag /\ - mag <= snd (disp mag g L i) <= mag.
Proof.
  intros Hmag Hnd.
  destruct (In_dec Z.eq_dec i L) as [Hin | Hni].
  - destruct (In_nth_error _ _ Hin) as [k Hk].
    rewrite (disp_in _ _ _ g k Hnd Hk). cbn [fst snd].
    split; apply draw_bounds; assumption.
  - rewrite (disp_not_in _ _ _ _ Hni). simpl. lia.
Qed.

(** X3. In the mesh of [Distort.perform_operation] no corner of any cell is
    moved by more than the magnitude, in either coordinate, from the corner
    of the cell's bounding box. *)
Theorem distort_displacement_bounded gw gh m w h g :
  1 <= gw -> 1 <= gh ->
  exists mesh g',
    generated_mesh (init gw gh m) w h g = Ok (mesh, g') /\
    Forall (fun bp => polygon_within (Z.abs m) (snd bp) (polygon_of_box (fst bp))) mesh.
Proof.
  intros Hgw Hgh.
  destruct (mesh_cells gw gh m w h g Hgw Hgh) as (mesh & Hrun & Hcells).
  eexists mesh, _. split; [exact Hrun |].
  apply SolveFacts.Forall_nth_error. intros k bp Hk.
  destruct (Hcells k bp Hk) as (row & col & _ & _ & ->).
  cbn [fst snd]. unfold polygon_within, displaced.
  cbn [px1 py1 px2 py2 px3 py3 px4 py4].
  pose proof (NoDup_inner_cells gw gh) as Hnd.
  pose proof (fun i => disp_bounded (Z.abs m) g (inner_cells gw gh) i
                         (Z.abs_nonneg m) Hnd) as Hb.
  pose proof (Hb (row * gw + col - 1 - gw)). pose proof (Hb (row * gw + col - 1)).
  pose proof (Hb (row * gw + col)). pose proof (Hb (row * gw + col - gw)).
  repeat split; lia.
Qed.

Lemma distort_displacement_bounded_witness :
  1 <= 4 /\ 1 <= 4 /\
  exists mesh g',
    generated_mesh (init 4 4 (-3)) 100 100 demo_rng = Ok (mesh, g') /\
    Forall (fun bp => polygon_within (Z.abs (-3)) (snd bp) (polygon_of_box (fst bp))) mesh.
Proof.
  split; [lia |]. split; [lia |].
  apply (distort_displacement_bounded 4 4 (-3) 100 100 demo_rng); lia.
Defined.

(** The inner cells, row by row. *)
Lemma inner_cells_length gw gh :
  1 <= gw -> 1 <= gh ->
  List.length (inner_cells gw gh) = Z.to_nat ((gw - 1) * (gh - 1)).
Proof.
  intros Hgw Hgh.
  set (E := flat_map (fun row => map (fun col => row * gw + col) (range (gw - 1)))
                     (range (gh - 1))).
  assert (HE : List.length E = Z.to_nat ((gw - 1) * (gh - 1))).
  { unfold E. rewrite (flat_map_rows_length _ (Z.to_nat (gw - 1))).
    - rewrite range_length. nia.
    - intros a. now rewrite length_map, range_length. }
  assert (HinE : forall i, In i E <->
            exists row col, i = row * gw + col /\ 0 <= row < gh - 1 /\ 0 <= col < gw - 1).
  { intros i. unfold E. rewrite in_flat_map. split.
    - intros (row & Hrow & Hi). apply in_map_iff in Hi. destruct Hi as (col & <- & Hcol).
      apply In_range in Hrow, Hcol. now exists row, col.
    - intros (row & col & -> & Hr & Hc). exists row. split; [now apply In_range |].
      apply in_map_iff. exists col. split; [reflexivity | now apply In_range]. }
  assert (HndE : NoDup E).
  { apply NoDup_nth_error. intros i j Hi Hij.
    rewrite HE in Hi.
    assert (Hm : (0 < Z.to_nat (gw - 1))%nat) by nia.
    assert (Hj : (j < List.length E)%nat).
    { apply nth_error_Some. rewrite <- Hij. apply nth_error_Some. lia. }
    rewrite HE in Hj.
    assert (Hlook : forall k, (k < Z.to_nat ((gw - 1) * (gh - 1)))%nat ->
              nth_error E k =
              Some (Z.of_nat (k / Z.to_nat (gw - 1)) * gw
                    + Z.of_nat (k mod Z.to_nat (gw - 1)))).
    { intros k Hk. set (mm := Z.to_nat (gw - 1)) in *.
      pose proof (Nat.div_mod_eq k mm) as Hdm.
      pose proof (Nat.mod_upper_bound k mm ltac:(lia)) as Hmod.
      assert (Hdiv : (k / mm < Z.to_nat (gh - 1))%nat).
      { apply Nat.Div0.div_lt_upper_bound. nia. }
      rewrite Hdm at 1. rewrite (Nat.mul_comm mm). unfold E.
      rewrite (nth_error_flat_map_rows _ mm _) with (a := Z.of_nat (k / mm)).
      - rewrite nth_error_map, nth_error_range by (fold mm; lia). reflexivity.
      - intros a. now rewrite length_map, range_length.
      - now rewrite nth_error_range.
      - assumption. }
    rewrite (Hlook i Hi), (Hlook j Hj) in Hij. injection Hij as Hij.
    pose proof (Nat.mod_upper_bound i (Z.to_nat (gw - 1)) ltac:(lia)) as Hbi.
    pose proof (Nat.mod_upper_bound j (Z.to_nat (gw - 1)) ltac:(lia)) as Hbj.
    apply grid_index_unique in Hij; [| lia | lia]. destruct Hij as [Hq Hr].
    rewrite (Nat.div_mod_eq i (Z.to_nat (gw - 1))),
            (Nat.div_mod_eq j (Z.to_nat (gw - 1))).
    apply Nat2Z.inj in Hq, Hr. now rewrite Hq, Hr. }
  apply Nat.le_antisymm.
  - rewrite <- HE. apply NoDup_incl_length; [apply NoDup_inner_cells |].
    intros i Hi. apply HinE. now apply In_inner_cells in Hi.
  - rewrite <- HE. apply NoDup_incl_length; [assumption |].
    intros i Hi. apply In_inner_cells; [assumption | assumption |]. now apply HinE.
Qed.

(** X4. On a [gw] x [gh] grid [Distort.perform_operation] draws exactly two
    random numbers for each of the [(gw - 1) * (gh - 1)] interior vertices,
    and none for anything else. *)
Theorem distort_draw_count gw gh m w h g :
  1 <= gw -> 1 <= gh ->
  exists mesh,
    generated_mesh (init gw gh m) w h g
      = Ok (mesh, advance g (2 * Z.to_nat ((gw - 1) * (gh - 1)))).
Proof.
  intros Hgw Hgh.
  destruct (generated_mesh_spec gw gh m w h g Hgw Hgh) as (mesh & Hrun & _).
  exists mesh. now rewrite <- (inner_cells_length gw gh Hgw Hgh).
Qed.

Lemma distort_draw_count_witness :
  1 <= 4 /\ 1 <= 3 /\
  exists mesh,
    generated_mesh (init 4 3 7) 100 50 demo_rng
      = Ok (mesh, advance demo_rng (2 * Z.to_nat ((4 - 1) * (3 - 1)))).
Proof.
  split; [lia |]. split; [lia |].
  apply (distort_draw_count 4 3 7 100 50 demo_rng); lia.
Defined.

Lemma range_nonpos n : n <= 0 -> range n = [].
Proof. intros Hn. unfold range. now replace (Z.to_nat n) with 0%nat by lia. Qed.

Lemma range_pos n : 1 <= n -> exists l, range n = 0 :: l.
Proof.
  intros Hn. unfold range. destruct (Z.to_nat n) as [| k] eqn:E; [lia |].
  simpl. eauto.
Qed.

(** X5. Negative grid dimensions are not rejected by
    [Distort.perform_operation]: when exactly one of them is negative the
    mesh is empty and no error is raised; when both are negative (and not
    both -1) the first loop iteration indexes an empty list and raises
    [IndexError]. *)
Theorem distort_negative_grid gw gh m w h g :
  (gw < 0 < gh \/ gh < 0 < gw ->
   generated_mesh (init gw gh m) w h g = Ok ([], g)) /\
  (gw < 0 -> gh < 0 -> 2 <= gw * gh ->
   generated_mesh (init gw gh m) w h g = Err IndexError).
Proof.
  split.
  - intros Hneg. unfold generated_mesh, init, floor_div.
    cbn [grid_width grid_height magnitude].
    destruct (Z.eqb_spec gw 0); [lia |]. destruct (Z.eqb_spec gh 0); [lia |].
    rewrite (bind_lift_ok _ _ _ _ eq_refl), (bind_lift_ok _ _ _ _ eq_refl).
    assert (Hdims : dimensions w h gw gh (w / gw) (h / gh) = []).
    { unfold dimensions. destruct Hneg as [Hn | Hn].
      - rewrite (range_nonpos gw) by lia. simpl.
        induction (range gh); simpl; auto.
      - now rewrite (range_nonpos gh) by lia. }
    rewrite Hdims. unfold polygon_indices.
    rewrite (range_nonpos (gh * gw - 1)) by nia. reflexivity.
  - intros Hgw Hgh Hprod. unfold generated_mesh, init, floor_div.
    cbn [grid_width grid_height magnitude].
    destruct (Z.eqb_spec gw 0); [lia |]. destruct (Z.eqb_spec gh 0); [lia |].
    rewrite (bind_lift_ok _ _ _ _ eq_refl), (bind_lift_ok _ _ _ _ eq_refl).
    assert (Hdims : dimensions w h gw gh (w / gw) (h / gh) = []).
    { unfold dimensions. now rewrite (range_nonpos gh) by lia. }
    rewrite Hdims. unfold polygon_indices.
    destruct (range_pos (gh * gw - 1) ltac:(nia)) as [l Hl]. rewrite Hl.
    assert (Hinner : inner gw gh 0 = true).
    { unfold inner, last_row, last_column, range2.
      rewrite (range_nonpos gh) by lia.
      rewrite (range_nonpos (gw * gh - (gw * gh - gw))) by lia. reflexivity. }
    cbn [filter]. rewrite Hinner. cbn [map displace_all].
    unfold bind at 1. unfold bind at 1.
    unfold displace, quad.
    rewrite (bind_ok _ _ _ _ _ (randint_ok (- Z.abs m) (Z.abs m) g ltac:(lia))).
    rewrite (bind_ok _ _ _ _ _
               (randint_ok (- Z.abs m) (Z.abs m) (advance g 1) ltac:(lia))).
    reflexivity.
Qed.

Lemma distort_negative_grid_witness :
  (-2 < 0 < 3 \/ 3 < 0 < -2) /\
  generated_mesh (init (-2) 3 5) 100 100 demo_rng = Ok ([], demo_rng) /\
  -2 < 0 /\ -3 < 0 /\ 2 <= -2 * -3 /\
  generated_mesh (init (-2) (-3) 5) 100 100 demo_rng = Err IndexError.
Proof.
  assert (H : -2 < 0 < 3 \/ 3 < 0 < -2) by (left; lia).
  split; [exact H |].
  split; [exact (proj1 (distort_negative_grid (-2) 3 5 100 100 demo_rng) H) |].
  split; [lia |]. split; [lia |]. split; [lia |].
  apply (proj2 (distort_negative_grid (-2) (-3) 5 100 100 demo_rng)); lia.
Defined.

End DistortMore.

(** ** Flip *)

Module FlipFacts.
Import Flip.

(** X6. [Flip.perform_operation] never raises, and it returns Python's
    [None] instead of an image exactly when the axis string is none of
    "LEFT_RIGHT", "TOP_BOTTOM" and "RANDOM"; only "RANDOM" draws a random
    number, and its draw always selects one of the two flips. *)
Theorem flip_none_iff_unknown_axis self g :
  exists r g',
    perform_operation self g = Ok (r, g') /\
    (r = None <->
     top_bottom_left_right self <> "LEFT_RIGHT"%string /\
     top_bottom_left_right self <> "TOP_BOTTOM"%string /\
     top_bottom_left_right self <> "RANDOM"%string) /\
    g' = advance g (if String.eqb (top_bottom_left_right self) "RANDOM" then 1 else 0).
Proof.
  unfold perform_operation.
  destruct (String.eqb_spec (top_bottom_left_right self) "LEFT_RIGHT") as [E1 | N1].
  { exists (Some FLIP_LEFT_RIGHT), g. rewrite E1. cbn [String.eqb Ascii.eqb Bool.eqb].
    split; [reflexivity |]. split; [| now rewrite DistortFacts.advance_0].
    split; [discriminate | intros (H & _); now elim H]. }
  destruct (String.eqb_spec (top_bottom_left_right self) "TOP_BOTTOM") as [E2 | N2].
  { exists (Some FLIP_TOP_BOTTOM), g. rewrite E2. cbn [String.eqb Ascii.eqb Bool.eqb].
    split; [reflexivity |]. split; [| now rewrite DistortFacts.advance_0].
    split; [discriminate | intros (_ & H & _); now elim H]. }
  destruct (String.eqb_spec (top_bottom_left_right self) "RANDOM") as [E3 | N3].
  - rewrite (bind_ok _ _ _ _ _ (randint_ok 0 1 g ltac:(lia))).
    pose proof (randint_bounds 0 1 (supply g (cursor g)) ltac:(lia)) as Hb.
    set (a := 0 + supply g (cursor g) mod (1 - 0 + 1)) in *.
    destruct (Z.eqb_spec a 0) as [Ha | Ha].
    + exists (Some FLIP_LEFT_RIGHT), (advance g 1). split; [reflexivity |].
      split; [| reflexivity].
      split; [discriminate | intros (_ & _ & H); now elim H].
    + destruct (Z.eqb_spec a 1) as [Ha1 | Ha1]; [| lia].
      exists (Some FLIP_TOP_BOTTOM), (advance g 1). split; [reflexivity |].
      split; [| reflexivity].
      split; [discriminate | intros (_ & _ & H); now elim H].
  - exists None, g. split; [reflexivity |]. split; [| now rewrite DistortFacts.advance_0].
    split; [now intros _ | reflexivity].
Qed.

End FlipFacts.

(** ** Crop, CropPercentage and CropRandom *)

Lemma randint_empty lo hi g : hi < lo -> randint lo hi g = Err ValueError.
Proof.
  intros H. unfold randint. destruct (Z.ltb_spec hi lo); [reflexivity | lia].
Qed.

Lemma Qfloor_half n : Qfloor (inject_Z n / 2) = n / 2.
Proof.
  unfold Qdiv, Qmult, Qinv, inject_Z, Qfloor. cbn [Qnum Qden].
  now rewrite Z.mul_1_r.
Qed.

Lemma Qceiling_half n : Qceiling (inject_Z n / 2) = - (- n / 2).
Proof.
  unfold Qceiling, Qdiv, Qmult, Qinv, Qopp, inject_Z, Qfloor. cbn [Qnum Qden].
  now rewrite Z.mul_1_r.
Qed.

Lemma floor_ceil_half n :
  Qfloor (inject_Z n / 2) + Qceiling (inject_Z n / 2) = n.
Proof.
  rewrite Qfloor_half, Qceiling_half.
  pose proof (Z.div_mod n 2 ltac:(lia)). pose proof (Z.div_mod (- n) 2 ltac:(lia)).
  pose proof (Z.mod_pos_bound n 2 ltac:(lia)).
  pose proof (Z.mod_pos_bound (- n) 2 ltac:(lia)).
  lia.
Qed.

Lemma ceil_minus_floor_half n :
  Qceiling (inject_Z n / 2) - Qfloor (inject_Z n / 2) = n mod 2.
Proof.
  rewrite Qfloor_half, Qceiling_half.
  pose proof (Z.div_mod n 2 ltac:(lia)). pose proof (Z.div_mod (- n) 2 ltac:(lia)).
  pose proof (Z.mod_pos_bound n 2 ltac:(lia)).
  pose proof (Z.mod_pos_bound (- n) 2 ltac:(lia)).
  lia.
Qed.

(** A box of [n] pixels laid around the abscissa [c]. *)
Lemma centred_box (c : Q) (n : Z) :
  (c + inject_Z (Qfloor (inject_Z n / 2))
     - (c - inject_Z (Qceiling (inject_Z n / 2))) == inject_Z n)%Q /\
  (c - inject_Z (Qceiling (inject_Z n / 2))
     + (c + inject_Z (Qfloor (inject_Z n / 2))) == 2 * c - inject_Z (n mod 2))%Q.
Proof.
  pose proof (floor_ceil_half n) as Hs. pose proof (ceil_minus_floor_half n) as Hd.
  set (f := Qfloor (inject_Z n / 2)) in *.
  set (k := Qceiling (inject_Z n / 2)) in *.
  rewrite <- Hd. clear Hd. rewrite <- Hs. unfold Z.sub.
  rewrite !inject_Z_plus, inject_Z_opp. split; ring.
Qed.

Module CropFacts.
Import Crop.

(** X7. With [centre] set, [Crop.perform_operation] never raises and draws
    no random number; the box it crops has exactly the requested width and
    height, whatever the size of the image, and is centred on the image
    centre up to the half pixel of an odd request. *)
Theorem crop_centre_box self w h g :
  centre self = true ->
  exists x0 y0 x1 y1,
    perform_operation self w h g = Ok ((x0, y0, x1, y1), g) /\
    (x1 - x0 == inject_Z (width self))%Q /\
    (y1 - y0 == inject_Z (height self))%Q /\
    (x0 + x1 == inject_Z (w - width self mod 2))%Q /\
    (y0 + y1 == inject_Z (h - height self mod 2))%Q.
Proof.
  intros Hc. unfold perform_operation. rewrite Hc.
  do 4 eexists. split; [reflexivity |].
  pose proof (floor_ceil_half (width self)) as Hw.
  pose proof (floor_ceil_half (height self)) as Hh.
  pose proof (ceil_minus_floor_half (width self)) as Hw'.
  pose proof (ceil_minus_floor_half (height self)) as Hh'.
  split; [| split; [| split]].
  - rewrite <- Hw at 3. rewrite inject_Z_plus. field.
  - rewrite <- Hh at 3. rewrite inject_Z_plus. field.
  - rewrite <- Hw'. unfold Z.sub.
    repeat (rewrite inject_Z_plus || rewrite inject_Z_opp). field.
  - rewrite <- Hh'. unfold Z.sub.
    repeat (rewrite inject_Z_plus || rewrite inject_Z_opp). field.
Qed.

Lemma crop_centre_box_witness :
  centre (mkCrop 5 4 true) = true /\
  exists x0 y0 x1 y1,
    perform_operation (mkCrop 5 4 true) 3 2 demo_rng = Ok ((x0, y0, x1, y1), demo_rng) /\
    (x1 - x0 == inject_Z 5)%Q /\
    (y1 - y0 == inject_Z 4)%Q /\
    (x0 + x1 == inject_Z (3 - 5 mod 2))%Q /\
    (y0 + y1 == inject_Z (2 - 4 mod 2))%Q.
Proof.
  split; [reflexivity |].
  exact (crop_centre_box (mkCrop 5 4 true) 3 2 demo_rng eq_refl).
Defined.

(** X8. Without [centre], a request that fits the image is cropped at a
    random place inside the image: the box has the requested size and lies
    within [(0, 0, w, h)], and two random numbers are drawn. *)
Theorem crop_random_inside self w h g :
  centre self = false -> width self <= w -> height self <= h ->
  exists dx dy,
    perform_operation self w h g
      = Ok ((inject_Z dx, inject_Z dy,
             inject_Z (width self + dx), inject_Z (height self + dy)),
            advance g 2) /\
    0 <= dx /\ width self + dx <= w /\ 0 <= dy /\ height self + dy <= h.
Proof.
  intros Hc Hw Hh. unfold perform_operation. rewrite Hc.
  rewrite (bind_ok _ _ _ _ _ (randint_ok 0 (w - width self) g ltac:(lia))).
  rewrite (bind_ok _ _ _ _ _ (randint_ok 0 (h - height self) (advance g 1) ltac:(lia))).
  rewrite DistortFacts.advance_advance.
  do 2 eexists. split; [reflexivity |].
  pose proof (randint_bounds 0 (w - width self) (supply g (cursor g)) ltac:(lia)).
  pose proof (randint_bounds 0 (h - height self)
                (supply (advance g 1) (cursor (advance g 1))) ltac:(lia)).
  lia.
Qed.

Lemma crop_random_inside_witness :
  centre (mkCrop 30 20 false) = false /\ 30 <= 100 /\ 20 <= 50 /\
  exists dx dy,
    perform_operation (mkCrop 30 20 false) 100 50 demo_rng
      = Ok ((inject_Z dx, inject_Z dy, inject_Z (30 + dx), inject_Z (20 + dy)),
            advance demo_rng 2) /\
    0 <= dx /\ 30 + dx <= 100 /\ 0 <= dy /\ 20 + dy <= 50.
Proof.
  split; [reflexivity |]. split; [lia |]. split; [lia |].
  apply (crop_random_inside (mkCrop 30 20 false) 100 50 demo_rng); simpl; [reflexivity | lia | lia].
Defined.

(** X9. Without [centre], a request wider or taller than the image makes
    [Crop.perform_operation] raise [ValueError] (from [random.randint] on an
    empty range) rather than crop. *)
Theorem crop_random_too_large self w h g :
  centre self = false -> w < width self \/ h < height self ->
  perform_operation self w h g = Err ValueError.
Proof.
  intros Hc Hbig. unfold perform_operation. rewrite Hc.
  destruct (Z.lt_ge_cases w (width self)) as [Hw | Hw].
  - unfold bind at 1. now rewrite randint_empty by lia.
  - destruct Hbig as [Hbig | Hbig]; [lia |].
    rewrite (bind_ok _ _ _ _ _ (randint_ok 0 (w - width self) g ltac:(lia))).
    unfold bind at 1. now rewrite randint_empty by lia.
Qed.

Lemma crop_random_too_large_witness :
  centre (mkCrop 30 60 false) = false /\ (100 < 30 \/ 50 < 60) /\
  perform_operation (mkCrop 30 60 false) 100 50 demo_rng = Err ValueError.
Proof.
  split; [reflexivity |].
  assert (H : 100 < 30 \/ 50 < 60) by (right; lia).
  split; [exact H |].
  exact (crop_random_too_large (mkCrop 30 60 false) 100 50 demo_rng eq_refl H).
Defined.

End CropFacts.

Lemma Qfloor_lower (q : Q) (a : Z) : (inject_Z a <= q)%Q -> a <= Qfloor q.
Proof.
  intros H. rewrite <- (Qfloor_Z a). now apply Qfloor_resp_le.
Qed.

Lemma Qfloor_upper (q : Q) (a : Z) : (q <= inject_Z a)%Q -> Qfloor q <= a.
Proof.
  intros H. rewrite <- (Qfloor_Z a). now apply Qfloor_resp_le.
Qed.

Lemma inject_Z_nonneg (n : Z) : 0 <= n -> (0 <= inject_Z n)%Q.
Proof. intros H. change 0%Q with (inject_Z 0). now rewrite <- Zle_Qle. Qed.

(** ** Rounding *)

Lemma py_round_comp (q q' : Q) : (q == q')%Q -> py_round q = py_round q'.
Proof.
  intros H. unfold py_round. rewrite (Qfloor_comp q q' H).
  assert (Hc : (q - inject_Z (Qfloor q') ?= 1 # 2)%Q
               = (q' - inject_Z (Qfloor q') ?= 1 # 2)%Q) by (now rewrite H).
  now rewrite Hc.
Qed.

Lemma py_round_Z (n : Z) : py_round (inject_Z n) = n.
Proof.
  unfold py_round. rewrite Qfloor_Z.
  assert (Hc : (inject_Z n - inject_Z n ?= 1 # 2)%Q = Lt).
  { apply Qlt_alt. apply Qlt_minus_iff. ring_simplify. reflexivity. }
  now rewrite Hc.
Qed.

Lemma py_round_lower (n : Z) (q : Q) : (inject_Z n <= q)%Q -> n <= py_round q.
Proof.
  intros H. apply Qfloor_lower in H. unfold py_round.
  destruct (q - inject_Z (Qfloor q) ?= 1 # 2)%Q; [destruct (Z.even _) | |]; lia.
Qed.

Lemma Qfloor_between (q : Q) (k : Z) :
  (inject_Z k <= q)%Q -> (q < inject_Z (k + 1))%Q -> Qfloor q = k.
Proof.
  intros Hlo Hhi. apply Qfloor_lower in Hlo.
  assert (Qfloor q < k + 1); [| lia].
  rewrite Zlt_Qlt. eapply Qle_lt_trans; [apply Qfloor_le | exact Hhi].
Qed.

(** ** Rounding to binary64 *)

Module FloatFacts.

#[local] Open Scope Q_scope.

Lemma py_round_upper (n : Z) (q : Q) : q <= inject_Z n -> (py_round q <= n)%Z.
Proof.
  intros H. unfold py_round.
  pose proof (Qfloor_upper q n H) as Hf.
  destruct (Z.eq_dec (Qfloor q) n) as [E | E].
  - (* q is the integer n itself *)
    assert (Hq : (q - inject_Z (Qfloor q) ?= 1 # 2) = Lt).
    { rewrite E. rewrite <- Qlt_alt. lra. }
    rewrite Hq. lia.
  - destruct (q - inject_Z (Qfloor q) ?= 1 # 2); [destruct (Z.even _) | |]; lia.
Qed.

Lemma pow2_pos e : 0 < pow2 e.
Proof. apply Qpower_0_lt. reflexivity. Qed.

Lemma pow2_add a b : pow2 (a + b) == pow2 a * pow2 b.
Proof. apply Qpower_plus. discriminate. Qed.

Lemma pow2_Z e : (0 <= e)%Z -> pow2 e == inject_Z (2 ^ e).
Proof. intros He. symmetry. apply (Zpower_Qpower 2 e He). Qed.

Lemma pow2_sub a b : pow2 (a - b) == pow2 a / pow2 b.
Proof.
  unfold Z.sub. rewrite pow2_add. unfold pow2 at 2. rewrite Qpower_opp. reflexivity.
Qed.

Lemma binade_lower q : 0 < q -> pow2 (binade q) <= q.
Proof.
  intros Hq. unfold binade.
  set (l := (Z.log2 (Qnum q) - Z.log2 (Z.pos (Qden q)))%Z).
  destruct (Qle_bool (pow2 l) q) eqn:E; [now apply Qle_bool_iff |].
  destruct q as [a b]. unfold Qlt in Hq. simpl in Hq. rewrite Z.mul_1_r in Hq.
  cbn [Qnum Qden] in l.
  pose proof (Z.log2_spec a Hq) as [Ha _].
  pose proof (Z.log2_spec (Z.pos b) ltac:(lia)) as [_ Hb].
  pose proof (Z.log2_nonneg a). pose proof (Z.log2_nonneg (Z.pos b)).
  replace (l - 1)%Z with (Z.log2 a - Z.succ (Z.log2 (Z.pos b)))%Z by (unfold l; lia).
  rewrite pow2_sub, !pow2_Z by lia.
  apply Qle_shift_div_r.
  - change 0 with (inject_Z 0). rewrite <- Zlt_Qlt. lia.
  - unfold Qle, Qmult, inject_Z. cbn [Qnum Qden]. rewrite !Z.mul_1_r.
    nia.
Qed.

Lemma binade_upper q : 0 < q -> q < pow2 (binade q + 1).
Proof.
  intros Hq. unfold binade.
  set (l := (Z.log2 (Qnum q) - Z.log2 (Z.pos (Qden q)))%Z).
  destruct (Qle_bool (pow2 l) q) eqn:E.
  - destruct q as [a b]. unfold Qlt in Hq. simpl in Hq. rewrite Z.mul_1_r in Hq.
    cbn [Qnum Qden] in l.
    pose proof (Z.log2_spec a Hq) as [_ Ha].
    pose proof (Z.log2_spec (Z.pos b) ltac:(lia)) as [Hb _].
    pose proof (Z.log2_nonneg a). pose proof (Z.log2_nonneg (Z.pos b)).
    replace (l + 1)%Z with (Z.succ (Z.log2 a) - Z.log2 (Z.pos b))%Z by (unfold l; lia).
    rewrite pow2_sub, !pow2_Z by lia.
    apply Qlt_shift_div_l.
    + change 0 with (inject_Z 0). rewrite <- Zlt_Qlt. lia.
    + unfold Qlt, Qmult, inject_Z. cbn [Qnum Qden]. rewrite !Z.mul_1_r.
      nia.
  - replace (l - 1 + 1)%Z with l by lia. apply Qnot_le_lt.
    intros H. apply Qle_bool_iff in H. congruence.
Qed.

(** The mantissa of a rounded value has 53 bits: before rounding, the
    scaled value lies between [2 ^ 52] and [2 ^ 53]. *)
Lemma mantissa_range (q : Q) :
  0 < q ->
  let e := (binade q - 52)%Z in
  inject_Z (2 ^ 52) <= q / pow2 e /\ q / pow2 e < inject_Z (2 ^ 53).
Proof.
  intros Hq e. pose proof (pow2_pos e) as HP.
  pose proof (binade_lower q Hq) as Hlo. pose proof (binade_upper q Hq) as Hhi.
  replace (binade q) with (52 + e)%Z in Hlo by (unfold e; lia).
  replace (binade q + 1)%Z with (53 + e)%Z in Hhi by (unfold e; lia).
  rewrite pow2_add, pow2_Z in Hlo, Hhi by lia.
  split.
  - apply Qle_shift_div_l; assumption.
  - apply Qlt_shift_div_r; assumption.
Qed.

(** Rounding a scaled value [y], with a mantissa of at least 52 bits, never
    crosses a bound [D] that is a whole number or has at most 52 bits. *)
Lemma mantissa_upper (y D : Q) :
  inject_Z (2 ^ 52) <= y \/ y <= - inject_Z (2 ^ 52) ->
  (exists N, D == inject_Z N) \/ (- inject_Z (2 ^ 52) <= D /\ D <= inject_Z (2 ^ 52)) ->
  y <= D -> inject_Z (py_round y) <= D.
Proof.
  intros Hy [[N HN] | [HD1 HD2]] HyD.
  - rewrite HN in *. rewrite <- Zle_Qle. now apply py_round_upper.
  - destruct Hy as [Hy | Hy].
    + assert (Hm : (py_round y <= 2 ^ 52)%Z) by (apply py_round_upper; lra).
      rewrite Zle_Qle in Hm. lra.
    + assert (Hm : (py_round y <= - 2 ^ 52)%Z).
      { apply py_round_upper. rewrite inject_Z_opp. exact Hy. }
      rewrite Zle_Qle, inject_Z_opp in Hm. lra.
Qed.

Lemma mantissa_lower (y D : Q) :
  inject_Z (2 ^ 52) <= y \/ y <= - inject_Z (2 ^ 52) ->
  (exists N, D == inject_Z N) \/ (- inject_Z (2 ^ 52) <= D /\ D <= inject_Z (2 ^ 52)) ->
  D <= y -> D <= inject_Z (py_round y).
Proof.
  intros Hy [[N HN] | [HD1 HD2]] HyD.
  - rewrite HN in *. rewrite <- Zle_Qle. now apply py_round_lower.
  - destruct Hy as [Hy | Hy].
    + assert (Hm : (2 ^ 52 <= py_round y)%Z) by (now apply py_round_lower).
      rewrite Zle_Qle in Hm. lra.
    + assert (Hm : (- 2 ^ 52 <= py_round y)%Z).
      { apply py_round_lower. rewrite inject_Z_opp. lra. }
      rewrite Zle_Qle, inject_Z_opp in Hm. lra.
Qed.

(** The scaled value has a mantissa of at least 52 bits. *)
Lemma scaled_mantissa (x : Q) :
  ~ x == 0 ->
  let e := (binade (Qabs x) - 52)%Z in
  inject_Z (2 ^ 52) <= x / pow2 e \/ x / pow2 e <= - inject_Z (2 ^ 52).
Proof.
  intros Hx e. pose proof (pow2_pos e) as HP.
  assert (Hscale : forall a, pow2 (binade (Qabs x)) <= a ->
            inject_Z (2 ^ 52) * pow2 e <= a).
  { intros a Ha. rewrite <- pow2_Z, <- pow2_add by lia.
    replace (52 + e)%Z with (binade (Qabs x)) by (unfold e; lia). exact Ha. }
  destruct (Q_dec x 0) as [[Hneg | Hpos] | Hz]; [| | contradiction].
  - right. assert (Ha : Qabs x == - x) by (apply Qabs_neg; lra).
    assert (Hlow : pow2 (binade (Qabs x)) <= - x).
    { rewrite <- Ha. apply binade_lower. rewrite Ha. lra. }
    apply Hscale in Hlow.
    apply Qle_shift_div_r; [assumption |].
    setoid_replace (- inject_Z (2 ^ 52) * pow2 e)
      with (- (inject_Z (2 ^ 52) * pow2 e)) by ring.
    lra.
  - left. assert (Ha : Qabs x == x) by (apply Qabs_pos; lra).
    assert (Hlow : pow2 (binade (Qabs x)) <= x).
    { rewrite <- Ha at 2. apply binade_lower. rewrite Ha. lra. }
    apply Hscale in Hlow.
    apply Qle_shift_div_l; assumption.
Qed.

(** A bound [n * 2 ^ j] with a mantissa of at most 53 bits, on the scale of
    [2 ^ e], is a whole number or has at most 52 bits. *)
Lemma scaled_bound (n j e : Z) :
  (Z.abs n <= 2 ^ 53)%Z ->
  let D := inject_Z n * pow2 j / pow2 e in
  (exists N, D == inject_Z N) \/ (- inject_Z (2 ^ 52) <= D /\ D <= inject_Z (2 ^ 52)).
Proof.
  intros Hn D. pose proof (pow2_pos e) as HP.
  destruct (Z_le_gt_dec e j) as [Hej | Hej].
  - left. exists (n * 2 ^ (j - e))%Z. unfold D.
    replace j with ((j - e) + e)%Z at 1 by lia.
    rewrite pow2_add, pow2_Z, inject_Z_mult by lia. field. lra.
  - right. unfold D.
    assert (Hd : inject_Z n * pow2 j / pow2 e == inject_Z n / pow2 (e - j)).
    { rewrite pow2_sub. pose proof (pow2_pos j). field. split; lra. }
    rewrite Hd.
    assert (H2 : 2 <= pow2 (e - j)).
    { rewrite pow2_Z by lia. change 2 with (inject_Z 2). rewrite <- Zle_Qle.
      change 2%Z with (2 ^ 1)%Z at 1. apply Z.pow_le_mono_r; lia. }
    assert (Hnq : - inject_Z (2 ^ 53) <= inject_Z n /\ inject_Z n <= inject_Z (2 ^ 53)).
    { rewrite <- inject_Z_opp, <- !Zle_Qle. lia. }
    change (inject_Z (2 ^ 53)) with (2 * inject_Z (2 ^ 52)) in Hnq.
    destruct Hnq as [Hn1 Hn2].
    pose proof (pow2_pos (e - j)) as HP'.
    split.
    + apply Qle_shift_div_l; [assumption |]. set (c := inject_Z (2 ^ 52)) in *.
      assert (0 <= c) by (unfold c; discriminate). nra.
    + apply Qle_shift_div_r; [assumption |]. set (c := inject_Z (2 ^ 52)) in *.
      assert (0 <= c) by (unfold c; discriminate). nra.
Qed.

(** Rounding to binary64 never crosses a float: a value at most (at least)
    a number [n * 2 ^ j] with [|n| <= 2 ^ 53] rounds to at most (at least)
    that number. *)
Lemma round_double_upper (x : Q) (n j : Z) :
  (Z.abs n <= 2 ^ 53)%Z ->
  x <= inject_Z n * pow2 j -> round_double x <= inject_Z n * pow2 j.
Proof.
  intros Hn Hx. unfold round_double.
  destruct (Qeq_bool x 0) eqn:E.
  - apply Qeq_bool_eq in E. now rewrite <- E.
  - assert (Hx0 : ~ x == 0) by (intros H; apply Qeq_eq_bool in H; congruence).
    cbv zeta. set (e := (binade (Qabs x) - 52)%Z).
    pose proof (pow2_pos e) as HP.
    pose proof (mantissa_upper (x / pow2 e) (inject_Z n * pow2 j / pow2 e)
                  (scaled_mantissa x Hx0) (scaled_bound n j e Hn)) as Hm.
    assert (Hdiv : x / pow2 e <= inject_Z n * pow2 j / pow2 e).
    { apply Qle_shift_div_l; [assumption |].
      setoid_replace (x / pow2 e * pow2 e) with x by (field; lra). exact Hx. }
    specialize (Hm Hdiv).
    apply Qle_trans with (inject_Z n * pow2 j / pow2 e * pow2 e).
    + apply Qmult_le_compat_r; [exact Hm | lra].
    + apply Qle_lteq. right. field. lra.
Qed.

Lemma round_double_lower (x : Q) (n j : Z) :
  (Z.abs n <= 2 ^ 53)%Z ->
  inject_Z n * pow2 j <= x -> inject_Z n * pow2 j <= round_double x.
Proof.
  intros Hn Hx. unfold round_double.
  destruct (Qeq_bool x 0) eqn:E.
  - apply Qeq_bool_eq in E. now rewrite <- E.
  - assert (Hx0 : ~ x == 0) by (intros H; apply Qeq_eq_bool in H; congruence).
    cbv zeta. set (e := (binade (Qabs x) - 52)%Z).
    pose proof (pow2_pos e) as HP.
    pose proof (mantissa_lower (x / pow2 e) (inject_Z n * pow2 j / pow2 e)
                  (scaled_mantissa x Hx0) (scaled_bound n j e Hn)) as Hm.
    assert (Hdiv : inject_Z n * pow2 j / pow2 e <= x / pow2 e).
    { apply Qle_shift_div_r; [assumption |].
      setoid_replace (x / pow2 e * pow2 e) with x by (field; lra). exact Hx. }
    specialize (Hm Hdiv).
    apply Qle_trans with (inject_Z n * pow2 j / pow2 e * pow2 e).
    + apply Qle_lteq. right. field. lra.
    + apply Qmult_le_compat_r; [exact Hm | lra].
Qed.

(** Whole numbers of at most 53 bits are floats. *)
Lemma round_double_int_upper (x : Q) (n : Z) :
  (Z.abs n <= 2 ^ 53)%Z -> x <= inject_Z n -> round_double x <= inject_Z n.
Proof.
  intros Hn Hx. pose proof (round_double_upper x n 0 Hn) as H.
  unfold pow2 in H. simpl (2 ^ 0) in H. rewrite Qmult_1_r in H. now apply H.
Qed.

Lemma round_double_int_lower (x : Q) (n : Z) :
  (Z.abs n <= 2 ^ 53)%Z -> inject_Z n <= x -> inject_Z n <= round_double x.
Proof.
  intros Hn Hx. pose proof (round_double_lower x n 0 Hn) as H.
  unfold pow2 in H. simpl (2 ^ 0) in H. rewrite Qmult_1_r in H. now apply H.
Qed.

(** The floor of a rounded value, against whole numbers of at most 53
    bits. *)
Lemma floor_round_lower (x : Q) (n : Z) :
  (Z.abs n <= 2 ^ 53)%Z -> inject_Z n <= x -> (n <= Qfloor (round_double x))%Z.
Proof. intros Hn Hx. apply Qfloor_lower. now apply round_double_int_lower. Qed.

Lemma floor_round_upper (x : Q) (n : Z) :
  (Z.abs n <= 2 ^ 53)%Z -> x <= inject_Z n -> (Qfloor (round_double x) <= n)%Z.
Proof. intros Hn Hx. apply Qfloor_upper. now apply round_double_int_upper. Qed.

(** The side [floor(n * p)] of a crop by a fraction [p] of a side [n]. *)
Lemma fraction_side (n : Z) (p : Q) :
  (0 <= n < 2 ^ 53)%Z -> 0 <= p -> p <= 1 ->
  (0 <= Qfloor (fmul (inject_Z n) p) <= n)%Z.
Proof.
  intros Hn Hp0 Hp1. unfold fmul.
  assert (HnQ : 0 <= inject_Z n) by (apply inject_Z_nonneg; lia).
  split.
  - apply floor_round_lower; [simpl; lia |]. change (inject_Z 0) with 0. nra.
  - apply floor_round_upper; [lia |]. nra.
Qed.

(** The same side when the fraction is at most two thirds: three sides fit
    into two sides of the image. *)
Lemma fraction_side_two_thirds (n : Z) (p : Q) :
  (0 <= n < 2 ^ 50)%Z -> 0 <= p -> p <= 2 # 3 ->
  (0 <= Qfloor (fmul (inject_Z n) p) /\ 3 * Qfloor (fmul (inject_Z n) p) <= 2 * n)%Z.
Proof.
  intros Hn Hp0 Hp1. unfold fmul.
  assert (HnQ : 0 <= inject_Z n) by (apply inject_Z_nonneg; lia).
  split.
  - apply floor_round_lower; [simpl; lia |]. change (inject_Z 0) with 0. nra.
  - set (m := (2 * n / 3)%Z).
    assert (Hm : (2 * n = 3 * m + (2 * n) mod 3 /\ 0 <= (2 * n) mod 3 < 3)%Z).
    { split; [apply Z.div_mod; lia | apply Z.mod_pos_bound; lia]. }
    assert (Hx : inject_Z n * p <= inject_Z (4 * m + 3) * pow2 (-2)).
    { change (pow2 (-2)) with (1 # 4).
      assert (H2n : inject_Z (2 * n) <= inject_Z (3 * m + 2))
        by (rewrite <- Zle_Qle; lia).
      rewrite inject_Z_plus, !inject_Z_mult in H2n.
      change (inject_Z 2) with 2 in H2n. change (inject_Z 3) with 3 in H2n.
      rewrite inject_Z_plus, inject_Z_mult.
      change (inject_Z 4) with 4. change (inject_Z 3) with 3. nra. }
    apply round_double_upper in Hx; [| lia].
    assert (Hlt : (Qfloor (round_double (inject_Z n * p)) < m + 1)%Z).
    { rewrite Zlt_Qlt. eapply Qle_lt_trans; [apply Qfloor_le |].
      eapply Qle_lt_trans; [exact Hx |].
      change (pow2 (-2)) with (1 # 4).
      rewrite !inject_Z_plus, inject_Z_mult.
      change (inject_Z 4) with 4. change (inject_Z 3) with 3.
      change (inject_Z 1) with 1. lra. }
    lia.
Qed.

(** Half of a whole number of at most 53 bits is a float. *)
Lemma floor_fmul_half (n : Z) (p : Q) :
  (Z.abs n <= 2 ^ 53)%Z -> p == 1 # 2 ->
  Qfloor (fmul (inject_Z n) p) = (n / 2)%Z.
Proof.
  intros Hn Hp. unfold fmul. rewrite <- Qfloor_half. apply Qfloor_comp.
  assert (Hx : inject_Z n * p == inject_Z n * pow2 (-1)).
  { change (pow2 (-1)) with (1 # 2). now rewrite Hp. }
  setoid_replace (inject_Z n / 2) with (inject_Z n * pow2 (-1))
    by (change (pow2 (-1)) with (1 # 2); field).
  apply Qle_antisym.
  - apply round_double_upper; [assumption |]. rewrite Hx. apply Qle_refl.
  - apply round_double_lower; [assumption |]. rewrite Hx. apply Qle_refl.
Qed.

(** The products of the examples round as CPython rounds them: 100 * 0.57
    is just below 57, while 10 * 0.7 and 5 * 0.6, whose exact values are
    just below 7 and 3, round up to them. *)
Lemma fmul_samples :
  Qfloor (fmul (inject_Z 100) float_0_57) = 56%Z /\
  Qfloor (fmul (inject_Z 10) float_0_7) = 7%Z /\ Qfloor (inject_Z 10 * float_0_7) = 6%Z /\
  Qfloor (fmul (inject_Z 5) float_0_6) = 3%Z /\ Qfloor (inject_Z 5 * float_0_6) = 2%Z.
Proof. repeat split; vm_compute; reflexivity. Qed.

End FloatFacts.

Module CropPercentageFacts.
Import CropPercentage FloatFacts.



(** X11. With [centre] set and a fraction of at most two thirds, the box of
    [CropPercentage.perform_operation] stays inside the image; its sides
    are the floors of the float products [w * p] and [h * p], and no random
    number is drawn.  The sides of the image are below [2 ^ 50]. *)
Theorem crop_percentage_centre_inside self w h g :
  centre self = true -> 0 <= w < 2 ^ 50 -> 0 <= h < 2 ^ 50 ->
  (0 <= percentage_area self)%Q -> (percentage_area self <= 2 # 3)%Q ->
  exists x0 y0 x1 y1,
    perform_operation self w h g = Ok ((x0, y0, x1, y1), g) /\
    x1 - x0 = Qfloor (fmul (inject_Z w) (percentage_area self)) /\
    y1 - y0 = Qfloor (fmul (inject_Z h) (percentage_area self)) /\
    0 <= x0 /\ x1 <= w /\ 0 <= y0 /\ y1 <= h.
Proof.
  intros Hc Hw Hh Hp0 Hp1. unfold perform_operation. rewrite Hc.
  do 4 eexists. split; [reflexivity |].
  rewrite !Qfloor_half.
  destruct (fraction_side_two_thirds w _ Hw Hp0 Hp1) as [Hw0 Hw1].
  destruct (fraction_side_two_thirds h _ Hh Hp0 Hp1) as [Hh0 Hh1].
  set (w_new := Qfloor (fmul (inject_Z w) (percentage_area self))) in *.
  set (h_new := Qfloor (fmul (inject_Z h) (percentage_area self))) in *.
  pose proof (Z.div_mod w_new 2 ltac:(lia)).
  pose proof (Z.mod_pos_bound w_new 2 ltac:(lia)).
  pose proof (Z.div_mod h_new 2 ltac:(lia)).
  pose proof (Z.mod_pos_bound h_new 2 ltac:(lia)).
  lia.
Qed.

Lemma crop_percentage_centre_inside_witness :
  centre (mkCropPercentage float_0_57 true) = true /\
  0 <= 100 < 2 ^ 50 /\ 0 <= 100 < 2 ^ 50 /\
  (0 <= percentage_area (mkCropPercentage float_0_57 true))%Q /\
  (percentage_area (mkCropPercentage float_0_57 true) <= 2 # 3)%Q /\
  exists x0 y0 x1 y1,
    perform_operation (mkCropPercentage float_0_57 true) 100 100 demo_rng
      = Ok ((x0, y0, x1, y1), demo_rng) /\
    x1 - x0 = Qfloor (fmul (inject_Z 100) (percentage_area (mkCropPercentage float_0_57 true))) /\
    y1 - y0 = Qfloor (fmul (inject_Z 100) (percentage_area (mkCropPercentage float_0_57 true))) /\
    0 <= x0 /\ x1 <= 100 /\ 0 <= y0 /\ y1 <= 100.
Proof.
  assert (H0 : (0 <= percentage_area (mkCropPercentage float_0_57 true))%Q)
    by (vm_compute; discriminate).
  assert (H1 : (percentage_area (mkCropPercentage float_0_57 true) <= 2 # 3)%Q)
    by (vm_compute; discriminate).
  assert (Hw : 0 <= 100 < 2 ^ 50) by (vm_compute; split; discriminate || reflexivity).
  assert (Hh : 0 <= 100 < 2 ^ 50) by (vm_compute; split; discriminate || reflexivity).
  split; [reflexivity |]. split; [exact Hw |]. split; [exact Hh |].
  split; [exact H0 |]. split; [exact H1 |].
  exact (crop_percentage_centre_inside
           (mkCropPercentage float_0_57 true) 100 100 demo_rng eq_refl Hw Hh H0 H1).
Defined.

(** 57% of a 100 x 100 image, from the centre: sides of 56 pixels, shifted
    by 28. *)
Lemma crop_percentage_centre_sample :
  run (perform_operation (mkCropPercentage float_0_57 true) 100 100) demo_rng
    = Ok (28, 28, 84, 84).
Proof. vm_compute. reflexivity. Qed.

(** X12. Without [centre] and for a fraction between 0 and 1, both draws
    of [CropPercentage.perform_operation] succeed and the box it hands to
    [crop] lies inside the image; the sides of the box are the floors of
    the float products [w * p] and [h * p].  The sides of the image are
    below [2 ^ 53]. *)
Theorem crop_percentage_random_inside self w h g :
  centre self = false -> 0 <= w < 2 ^ 53 -> 0 <= h < 2 ^ 53 ->
  (0 <= percentage_area self)%Q -> (percentage_area self <= 1)%Q ->
  exists x0 y0 x1 y1,
    perform_operation self w h g = Ok ((x0, y0, x1, y1), advance g 2) /\
    x1 - x0 = Qfloor (fmul (inject_Z w) (percentage_area self)) /\
    y1 - y0 = Qfloor (fmul (inject_Z h) (percentage_area self)) /\
    0 <= x0 /\ x1 <= w /\ 0 <= y0 /\ y1 <= h.
Proof.
  intros Hc Hw Hh Hp0 Hp1. unfold perform_operation. rewrite Hc.
  pose proof (fraction_side w _ Hw Hp0 Hp1) as Hws.
  pose proof (fraction_side h _ Hh Hp0 Hp1) as Hhs.
  set (w_new := Qfloor (fmul (inject_Z w) (percentage_area self))) in *.
  set (h_new := Qfloor (fmul (inject_Z h) (percentage_area self))) in *.
  rewrite (bind_ok _ _ _ _ _ (randint_ok 0 (w - w_new) g ltac:(lia))).
  rewrite (bind_ok _ _ _ _ _ (randint_ok 0 (h - h_new) (advance g 1) ltac:(lia))).
  rewrite DistortFacts.advance_advance.
  do 4 eexists. split; [reflexivity |].
  pose proof (randint_bounds 0 (w - w_new) (supply g (cursor g)) ltac:(lia)).
  pose proof (randint_bounds 0 (h - h_new)
                (supply (advance g 1) (cursor (advance g 1))) ltac:(lia)).
  lia.
Qed.

Lemma crop_percentage_random_inside_witness :
  centre (mkCropPercentage float_0_57 false) = false /\
  0 <= 100 < 2 ^ 53 /\ 0 <= 100 < 2 ^ 53 /\
  (0 <= percentage_area (mkCropPercentage float_0_57 false))%Q /\
  (percentage_area (mkCropPercentage float_0_57 false) <= 1)%Q /\
  exists x0 y0 x1 y1,
    perform_operation (mkCropPercentage float_0_57 false) 100 100 demo_rng
      = Ok ((x0, y0, x1, y1), advance demo_rng 2) /\
    x1 - x0 = Qfloor (fmul (inject_Z 100) (percentage_area (mkCropPercentage float_0_57 false))) /\
    y1 - y0 = Qfloor (fmul (inject_Z 100) (percentage_area (mkCropPercentage float_0_57 false))) /\
    0 <= x0 /\ x1 <= 100 /\ 0 <= y0 /\ y1 <= 100.
Proof.
  assert (H0 : (0 <= percentage_area (mkCropPercentage float_0_57 false))%Q)
    by (vm_compute; discriminate).
  assert (H1 : (percentage_area (mkCropPercentage float_0_57 false) <= 1)%Q)
    by (vm_compute; discriminate).
  assert (Hw : 0 <= 100 < 2 ^ 53) by (vm_compute; split; discriminate || reflexivity).
  assert (Hh : 0 <= 100 < 2 ^ 53) by (vm_compute; split; discriminate || reflexivity).
  split; [reflexivity |]. split; [exact Hw |]. split; [exact Hh |].
  split; [exact H0 |]. split; [exact H1 |].
  exact (crop_percentage_random_inside
           (mkCropPercentage float_0_57 false) 100 100 demo_rng eq_refl Hw Hh H0 H1).
Defined.

End CropPercentageFacts.

Module CropRandomFacts.
Import CropRandom FloatFacts.

(** X13. For a fraction between 0 and 1 both draws of
    [CropRandom.perform_operation] succeed and the box it hands to [crop]
    lies inside the image; the sides of the box are the floors of the float
    products [w * p] and [h * p].  The fraction is applied to each side,
    not to the area: at 0.5 the sides are [w // 2] and [h // 2], so the box
    holds at most a quarter of the image.  The sides of the image are below
    [2 ^ 53]. *)
Theorem crop_random_area self w h g :
  0 <= w < 2 ^ 53 -> 0 <= h < 2 ^ 53 ->
  (0 <= percentage_area self)%Q -> (percentage_area self <= 1)%Q ->
  exists x0 y0 x1 y1,
    perform_operation self w h g = Ok ((x0, y0, x1, y1), advance g 2) /\
    x1 - x0 = Qfloor (fmul (inject_Z w) (percentage_area self)) /\
    y1 - y0 = Qfloor (fmul (inject_Z h) (percentage_area self)) /\
    0 <= x0 /\ x1 <= w /\ 0 <= y0 /\ y1 <= h /\
    ((percentage_area self == 1 # 2)%Q ->
     x1 - x0 = w / 2 /\ y1 - y0 = h / 2 /\ 4 * ((x1 - x0) * (y1 - y0)) <= w * h).
Proof.
  intros Hw Hh Hp0 Hp1. unfold perform_operation.
  pose proof (fraction_side w _ Hw Hp0 Hp1) as Hws.
  pose proof (fraction_side h _ Hh Hp0 Hp1) as Hhs.
  assert (Hhalf : (percentage_area self == 1 # 2)%Q ->
            Qfloor (fmul (inject_Z w) (percentage_area self)) = w / 2 /\
            Qfloor (fmul (inject_Z h) (percentage_area self)) = h / 2).
  { intros Hp. split; apply floor_fmul_half; try assumption; lia. }
  set (w_new := Qfloor (fmul (inject_Z w) (percentage_area self))) in *.
  set (h_new := Qfloor (fmul (inject_Z h) (percentage_area self))) in *.
  rewrite (bind_ok _ _ _ _ _ (randint_ok 0 (w - w_new) g ltac:(lia))).
  rewrite (bind_ok _ _ _ _ _ (randint_ok 0 (h - h_new) (advance g 1) ltac:(lia))).
  rewrite DistortFacts.advance_advance.
  do 4 eexists. split; [reflexivity |].
  pose proof (randint_bounds 0 (w - w_new) (supply g (cursor g)) ltac:(lia)).
  pose proof (randint_bounds 0 (h - h_new)
                (supply (advance g 1) (cursor (advance g 1))) ltac:(lia)).
  repeat (split; [lia |]).
  intros Hp. destruct (Hhalf Hp) as [Ew Eh].
  pose proof (Z.div_mod w 2 ltac:(lia)). pose proof (Z.mod_pos_bound w 2 ltac:(lia)).
  pose proof (Z.div_mod h 2 ltac:(lia)). pose proof (Z.mod_pos_bound h 2 ltac:(lia)).
  split; [lia |]. split; [lia |].
  match goal with
  | |- 4 * (?a * ?b) <= _ => replace a with (w / 2) by lia; replace b with (h / 2) by lia
  end.
  nia.
Qed.

Lemma crop_random_area_witness :
  0 <= 101 < 2 ^ 53 /\ 0 <= 50 < 2 ^ 53 /\
  (0 <= percentage_area (mkCropRandom (1 # 2)))%Q /\
  (percentage_area (mkCropRandom (1 # 2)) <= 1)%Q /\
  exists x0 y0 x1 y1,
    perform_operation (mkCropRandom (1 # 2)) 101 50 demo_rng
      = Ok ((x0, y0, x1, y1), advance demo_rng 2) /\
    x1 - x0 = Qfloor (fmul (inject_Z 101) (percentage_area (mkCropRandom (1 # 2)))) /\
    y1 - y0 = Qfloor (fmul (inject_Z 50) (percentage_area (mkCropRandom (1 # 2)))) /\
    0 <= x0 /\ x1 <= 101 /\ 0 <= y0 /\ y1 <= 50 /\
    ((percentage_area (mkCropRandom (1 # 2)) == 1 # 2)%Q ->
     x1 - x0 = 101 / 2 /\ y1 - y0 = 50 / 2 /\ 4 * ((x1 - x0) * (y1 - y0)) <= 101 * 50).
Proof.
  assert (H0 : (0 <= percentage_area (mkCropRandom (1 # 2)))%Q)
    by (vm_compute; discriminate).
  assert (H1 : (percentage_area (mkCropRandom (1 # 2)) <= 1)%Q)
    by (vm_compute; discriminate).
  assert (Hw : 0 <= 101 < 2 ^ 53) by (vm_compute; split; discriminate || reflexivity).
  assert (Hh : 0 <= 50 < 2 ^ 53) by (vm_compute; split; discriminate || reflexivity).
  split; [exact Hw |]. split; [exact Hh |]. split; [exact H0 |]. split; [exact H1 |].
  exact (crop_random_area (mkCropRandom (1 # 2)) 101 50 demo_rng Hw Hh H0 H1).
Defined.



End CropRandomFacts.

(** ** Scale *)

Module ScaleFacts.
Import Scale.

(** X15. [Scale.perform_operation] uses only the whole part [k] of the scale
    factor and unpacks [image.size], which is (width, height), as
    (height, width): the size it asks for is (height * k, width * k).  So a
    factor between 1 and 2 transposes the sides of the image and a factor
    below 1 asks for an empty image. *)
Theorem scale_whole_part_and_swap self width height k :
  (inject_Z k <= scale_factor self)%Q -> (scale_factor self < inject_Z (k + 1))%Q ->
  perform_operation self (width, height) = (height * k, width * k).
Proof.
  intros Hlo Hhi. unfold perform_operation.
  now rewrite (Qfloor_between _ _ Hlo Hhi).
Qed.

Lemma scale_whole_part_and_swap_witness :
  (inject_Z 1 <= scale_factor (mkScale (3 # 2)))%Q /\
  (scale_factor (mkScale (3 # 2)) < inject_Z (1 + 1))%Q /\
  perform_operation (mkScale (3 # 2)) (200, 100) = (100 * 1, 200 * 1).
Proof.
  assert (H0 : (inject_Z 1 <= scale_factor (mkScale (3 # 2)))%Q)
    by (vm_compute; discriminate).
  assert (H1 : (scale_factor (mkScale (3 # 2)) < inject_Z (1 + 1))%Q)
    by (vm_compute; reflexivity).
  split; [exact H0 |]. split; [exact H1 |].
  exact (scale_whole_part_and_swap (mkScale (3 # 2)) 200 100 1 H0 H1).
Defined.

End ScaleFacts.

(** ** Zoom *)

Module ZoomFacts.
Import Zoom.

#[local] Open Scope Q_scope.

Lemma uniform_ok a b g :
  exists u, Shear.uniform a b g = Ok (a + (b - a) * u, advance g 1) /\ 0 <= u /\ u < 1.
Proof.
  unfold Shear.uniform, Shear.random, bind, next_raw, ret.
  exists ((supply g (cursor g) mod 2 ^ 53)%Z # 2 ^ 53). split.
  - unfold advance. do 3 f_equal. lia.
  - pose proof (Z.mod_pos_bound (supply g (cursor g)) (2 ^ 53) ltac:(lia)) as Hm.
    unfold Qle, Qlt. simpl. change (Z.pos (2 ^ 53)) with (2 ^ 53)%Z. lia.
Qed.

(** X16. Whenever the zoomed size is not empty, so that PIL can resize to
    it, the box [Zoom.perform_operation] then hands to [crop] has exactly
    the width and the height of the original image, whatever the factor
    drawn, and is centred on the zoomed image up to the half pixel of an
    odd side; one random number has been drawn. *)
Theorem zoom_crop_has_original_size self original_width original_height g c g' :
  perform_operation self original_width original_height g = Ok (c, g') ->
  (0 < fst (zoomed_size c))%Z -> (0 < snd (zoomed_size c))%Z ->
  g' = advance g 1 /\
  exists x0 y0 x1 y1,
    crop c = (x0, y0, x1, y1) /\
    x1 - x0 == inject_Z original_width /\
    y1 - y0 == inject_Z original_height /\
    x0 + x1 == inject_Z (fst (zoomed_size c) - original_width mod 2) /\
    y0 + y1 == inject_Z (snd (zoomed_size c) - original_height mod 2).
Proof.
  unfold perform_operation. intros Hrun _ _.
  destruct (uniform_ok (min_factor self) (max_factor self) g) as (u & Hu & _).
  rewrite (bind_ok _ _ _ _ _ Hu) in Hrun. unfold ret in Hrun.
  injection Hrun as <- <-. split; [reflexivity |].
  do 4 eexists. split; [reflexivity |].
  cbn [zoomed_size fst snd].
  set (zw := py_round (inject_Z original_width * round2 (min_factor self + (max_factor self - min_factor self) * u))).
  set (zh := py_round (inject_Z original_height * round2 (min_factor self + (max_factor self - min_factor self) * u))).
  destruct (centred_box (inject_Z zw / 2) original_width) as [Hw Hw'].
  destruct (centred_box (inject_Z zh / 2) original_height) as [Hh Hh'].
  split; [exact Hw |]. split; [exact Hh |].
  split; [rewrite Hw' | rewrite Hh']; unfold Z.sub;
    rewrite inject_Z_plus, inject_Z_opp; field.
Qed.

Lemma zoom_crop_has_original_size_witness :
  let c := mkCalls (111, 55)%Z (9 # 2, 5 # 2, 211 # 2, 105 # 2) in
  perform_operation (mkZoom (11 # 10) (3 # 2)) 101 50 demo_rng
    = Ok (c, advance demo_rng 1) /\
  (0 < fst (zoomed_size c))%Z /\ (0 < snd (zoomed_size c))%Z /\
  advance demo_rng 1 = advance demo_rng 1 /\
  exists x0 y0 x1 y1,
    crop c = (x0, y0, x1, y1) /\
    x1 - x0 == inject_Z 101 /\
    y1 - y0 == inject_Z 50 /\
    x0 + x1 == inject_Z (fst (zoomed_size c) - 101 mod 2) /\
    y0 + y1 == inject_Z (snd (zoomed_size c) - 50 mod 2).
Proof.
  cbv zeta.
  assert (H : perform_operation (mkZoom (11 # 10) (3 # 2)) 101 50 demo_rng
              = Ok (mkCalls (111, 55)%Z (9 # 2, 5 # 2, 211 # 2, 105 # 2),
                    advance demo_rng 1))
    by (vm_compute; reflexivity).
  assert (H1 : (0 < fst (zoomed_size
                  (mkCalls (111, 55)%Z (9 # 2, 5 # 2, 211 # 2, 105 # 2))))%Z)
    by reflexivity.
  assert (H2 : (0 < snd (zoomed_size
                  (mkCalls (111, 55)%Z (9 # 2, 5 # 2, 211 # 2, 105 # 2))))%Z)
    by reflexivity.
  split; [exact H |]. split; [exact H1 |]. split; [exact H2 |].
  exact (zoom_crop_has_original_size (mkZoom (11 # 10) (3 # 2)) 101 50 demo_rng
           (mkCalls (111, 55)%Z (9 # 2, 5 # 2, 211 # 2, 105 # 2))
           (advance demo_rng 1) H H1 H2).
Defined.



End ZoomFacts.

(** ** Shear *)

Module ShearMore.
Import Shear.

#[local] Open Scope Q_scope.

(** X18. The shearing angle is never 0: the draw is truncated towards zero
    and then moved up by one unless it is -1, so the angle lies in
    [-20, -1] or in [1, 21]. *)
Theorem shear_angle_never_zero g :
  exists angle,
    angle_to_shear g = Ok (angle, advance g 1) /\
    ((-20 <= angle <= -1)%Z \/ (1 <= angle <= 21)%Z).
Proof.
  unfold angle_to_shear.
  destruct (ZoomFacts.uniform_ok (-20 - 1) (20 + 1) g) as (f & Hrun & Hf0 & Hf1).
  rewrite (bind_ok _ _ _ _ _ Hrun).
  set (u := -20 - 1 + (20 + 1 - (-20 - 1)) * f).
  assert (Hu : (-21 <= py_int u <= 21 - 1)%Z).
  { apply ShearFacts.py_int_bounds; [lia | |]; unfold u, inject_Z; lra. }
  eexists. split; [reflexivity |].
  destruct (Z.eqb_spec (py_int u) (-1)); simpl; lia.
Qed.

Lemma Qceiling_pos (q : Q) : 0 < q -> (1 <= Qceiling q)%Z.
Proof.
  intros Hq. assert (0 < Qceiling q)%Z; [| lia].
  rewrite Zlt_Qlt. eapply Qlt_le_trans; [exact Hq | apply Qle_ceiling].
Qed.

(** X19. Along x a shear to the left and a shear to the right by the same
    angle are laid out alike: for a positive slope [phi] the canvas is
    [ceil(phi * height)] pixels wider than the image in both cases, and the
    crop box and the final size are the same; only the transform matrix
    differs, the left shear having no offset. *)
Theorem shear_x_left_right_layout angle phi width height :
  (0 < angle)%Z -> 0 < phi -> (0 < height)%Z ->
  let right := shear_x angle phi width height in
  let left := shear_x (- angle) (- phi) width height in
  canvas right = ((width + Qceiling (phi * inject_Z height))%Z, height) /\
  canvas left = canvas right /\ crop left = crop right /\
  resize left = resize right /\
  transform_matrix right
    = (1, phi, - inject_Z (Qceiling (phi * inject_Z height)), 0, 1, 0) /\
  transform_matrix left = (1, py_abs (- phi) * -1, - inject_Z 0, 0, 1, 0).
Proof.
  intros Ha Hphi Hh right left.
  assert (Hs : 0 < phi * inject_Z height).
  { apply Qmult_lt_0_compat; [assumption |].
    change 0 with (inject_Z 0). now rewrite <- Zlt_Qlt. }
  assert (Hs' : ~ 0 < - phi * inject_Z height).
  { apply Qle_not_lt. setoid_replace (- phi * inject_Z height)
      with (- (phi * inject_Z height)) by ring.
    apply Qlt_le_weak in Hs. apply Qopp_le_compat in Hs. exact Hs. }
  pose proof (Qceiling_pos _ Hs) as Hc.
  assert (Hfl : Qfloor (- phi * inject_Z height) = (- Qceiling (phi * inject_Z height))%Z).
  { unfold Qceiling. rewrite Z.opp_involutive. apply Qfloor_comp. ring. }
  unfold right, left, shear_x.
  destruct (Qlt_le_dec 0 (phi * inject_Z height)) as [_ | Hn];
    [| exfalso; exact (Qlt_not_le _ _ Hs Hn)].
  destruct (Qlt_le_dec 0 (- phi * inject_Z height)) as [Hp | _];
    [exfalso; exact (Hs' Hp) |].
  destruct (Z.leb_spec angle 0) as [Hle | _]; [lia |].
  destruct (Z.leb_spec (- angle) 0) as [_ | Hgt]; [| lia].
  cbn [canvas crop resize transform_matrix].
  rewrite Hfl, !py_round_Z.
  replace (Z.abs (Z.abs (- Qceiling (phi * inject_Z height))))
    with (Qceiling (phi * inject_Z height)) by lia.
  replace (Z.abs (- Qceiling (phi * inject_Z height)))
    with (Qceiling (phi * inject_Z height)) by lia.
  replace (Z.abs (Qceiling (phi * inject_Z height)))
    with (Qceiling (phi * inject_Z height)) by lia.
  repeat split.
Qed.

Lemma shear_x_left_right_layout_witness :
  (0 < 10)%Z /\ 0 < tan_deg_sample 10 /\ (0 < 100)%Z /\
  canvas (shear_x 10 (tan_deg_sample 10) 100 100)
    = ((100 + Qceiling (tan_deg_sample 10 * inject_Z 100))%Z, 100%Z) /\
  canvas (shear_x (- 10) (- tan_deg_sample 10) 100 100)
    = canvas (shear_x 10 (tan_deg_sample 10) 100 100) /\
  crop (shear_x (- 10) (- tan_deg_sample 10) 100 100)
    = crop (shear_x 10 (tan_deg_sample 10) 100 100) /\
  resize (shear_x (- 10) (- tan_deg_sample 10) 100 100)
    = resize (shear_x 10 (tan_deg_sample 10) 100 100) /\
  transform_matrix (shear_x 10 (tan_deg_sample 10) 100 100)
    = (1, tan_deg_sample 10,
       - inject_Z (Qceiling (tan_deg_sample 10 * inject_Z 100)), 0, 1, 0) /\
  transform_matrix (shear_x (- 10) (- tan_deg_sample 10) 100 100)
    = (1, py_abs (- tan_deg_sample 10) * -1, - inject_Z 0, 0, 1, 0).
Proof.
  assert (H : 0 < tan_deg_sample 10) by (vm_compute; reflexivity).
  split; [lia |]. split; [exact H |]. split; [lia |].
  apply (shear_x_left_right_layout 10 (tan_deg_sample 10) 100 100); [lia | exact H | lia].
Defined.

End ShearMore.

(** ** Rotate and RotateRange *)

Module RotateMore.
Import Rotate.

#[local] Open Scope Q_scope.

Section WithLibraries.
Variable sin_deg : Q -> Q.
Variable expanded_size : Q -> Z * Z -> Z * Z.

(** X20. The rotation -1 is a flag, not an angle: [Rotate.perform_operation]
    then turns the image by 90, 180 or 270 degrees, chosen by one random
    draw, and neither crops nor resizes. *)
Theorem rotate_minus_one_is_right_angle self x y g :
  rotation self == -1 ->
  exists random_factor,
    perform_operation sin_deg expanded_size self x y g
      = Ok (Rotate90 random_factor, advance g 1) /\
    (1 <= random_factor <= 3)%Z.
Proof.
  intros Hr. unfold perform_operation. rewrite (Qeq_eq_bool _ _ Hr).
  rewrite (bind_ok _ _ _ _ _ (randint_ok 1 3 g ltac:(lia))).
  eexists. split; [reflexivity |].
  apply randint_bounds. lia.
Qed.

(** X21. Whenever the sine of [|rotation|] is 0, as for no rotation at all,
    the crop box is the whole of the canvas PIL returned, which is then
    resized to the original size. *)
Theorem rotate_zero_keeps_canvas self x y g :
  ~ rotation self == -1 ->
  sin_deg (py_abs (rotation self)) == 0 ->
  ~ sin_deg (90 - py_abs (rotation self)) == 0 ->
  perform_operation sin_deg expanded_size self x y g
    = Ok (CropResize (0, 0, fst (expanded_size (rotation self) (x, y)),
                      snd (expanded_size (rotation self) (x, y)))%Z (x, y), g).
Proof.
  intros Hr Hs0 Hs90. unfold perform_operation.
  destruct (Qeq_bool (rotation self) (-1)) eqn:E;
    [apply Qeq_bool_eq in E; contradiction |].
  unfold lift, crop_resize.
  destruct (expanded_size (rotation self) (x, y)) as [X Y]. cbn [fst snd].
  unfold crop_box. rewrite (RotateFacts.fdiv_ok _ _ Hs90).
  set (sa := sin_deg (py_abs (rotation self))) in *.
  set (sb := sin_deg (90 - py_abs (rotation self))) in *.
  assert (Ht : sa / sb == 0) by (rewrite Hs0; field; exact Hs90).
  assert (HE : crop_E sa sb (sa / sb) X Y == 0).
  { pose proof (RotateFacts.crop_E_value sa sb X Y Hs90) as Hv. cbv zeta in Hv.
    rewrite Hv, Ht. ring. }
  assert (HA : sa / sb * (inject_Z X - crop_E sa sb (sa / sb) X Y) == 0).
  { rewrite HE, Ht. ring. }
  rewrite (py_round_comp _ 0 HE), (py_round_comp _ 0 HA).
  rewrite (py_round_comp (inject_Z X - _) (inject_Z X)) by (rewrite HE; ring).
  rewrite (py_round_comp (inject_Z Y - _) (inject_Z Y)) by (rewrite HA; ring).
  rewrite !py_round_Z. reflexivity.
Qed.

End WithLibraries.

Lemma rotate_minus_one_is_right_angle_witness :
  rotation (mkRotate (-1)) == -1 /\
  exists random_factor,
    perform_operation sin_deg_sample expanded_size_sample (mkRotate (-1)) 200 100 demo_rng
      = Ok (Rotate90 random_factor, advance demo_rng 1) /\
    (1 <= random_factor <= 3)%Z.
Proof.
  assert (H : rotation (mkRotate (-1)) == -1) by reflexivity.
  split; [exact H |].
  exact (rotate_minus_one_is_right_angle sin_deg_sample expanded_size_sample
           (mkRotate (-1)) 200 100 demo_rng H).
Defined.

Lemma rotate_zero_keeps_canvas_witness :
  ~ rotation (mkRotate 0) == -1 /\
  sin_deg_sample (py_abs (rotation (mkRotate 0))) == 0 /\
  ~ sin_deg_sample (90 - py_abs (rotation (mkRotate 0))) == 0 /\
  perform_operation sin_deg_sample expanded_size_sample (mkRotate 0) 200 100 demo_rng
    = Ok (CropResize
            (0, 0, fst (expanded_size_sample (rotation (mkRotate 0)) (200, 100)),
             snd (expanded_size_sample (rotation (mkRotate 0)) (200, 100)))%Z
            (200, 100)%Z, demo_rng).
Proof.
  assert (H0 : ~ rotation (mkRotate 0) == -1) by (vm_compute; discriminate).
  assert (H1 : sin_deg_sample (py_abs (rotation (mkRotate 0))) == 0)
    by (vm_compute; reflexivity).
  assert (H2 : ~ sin_deg_sample (90 - py_abs (rotation (mkRotate 0))) == 0)
    by (vm_compute; discriminate).
  split; [exact H0 |]. split; [exact H1 |]. split; [exact H2 |].
  exact (rotate_zero_keeps_canvas sin_deg_sample expanded_size_sample
           (mkRotate 0) 200 100 demo_rng H0 H1 H2).
Defined.

End RotateMore.

Module RotateRangeFacts.
Import RotateRange.

Section WithLibraries.
Variable sin_deg : Q -> Q.
Variable expanded_size : Q -> Z * Z -> Z * Z.

(** X22. A [RotateRange] built with a bound of less than 5 degrees on either
    side cannot be performed: both sides are drawn before one is chosen, and
    [random.randint] raises [ValueError] on the empty range. *)
Theorem rotate_range_small_bound_raises l r x y g :
  Z.abs l < 5 \/ Z.abs r < 5 ->
  perform_operation sin_deg expanded_size (init l r) x y g = Err ValueError.
Proof.
  intros Hsmall. unfold perform_operation, init.
  cbn [max_left_rotation max_right_rotation].
  destruct (Z.lt_ge_cases (Z.abs l) 5) as [Hl | Hl].
  - unfold bind at 1. now rewrite randint_empty by lia.
  - destruct Hsmall as [Hsmall | Hr]; [lia |].
    rewrite (bind_ok _ _ _ _ _ (randint_ok (- Z.abs l) (-5) g ltac:(lia))).
    unfold bind at 1. now rewrite randint_empty by lia.
Qed.

(** X23. With bounds of at least 5 degrees, [RotateRange.perform_operation]
    draws three random numbers and rotates by a whole number of degrees
    that lies in [-|l|, -5] or in [5, |r|]: never by less than 5 degrees.
    The crop and the resize are those of [Rotate] for that angle. *)
Theorem rotate_range_angle l r x y g :
  5 <= Z.abs l -> 5 <= Z.abs r ->
  exists rotation,
    perform_operation sin_deg expanded_size (init l r) x y g
      = lift (Rotate.crop_resize sin_deg expanded_size (inject_Z rotation) x y)
             (advance g 3) /\
    (- Z.abs l <= rotation <= -5 \/ 5 <= rotation <= Z.abs r).
Proof.
  intros Hl Hr. unfold perform_operation, init.
  cbn [max_left_rotation max_right_rotation].
  rewrite (bind_ok _ _ _ _ _ (randint_ok (- Z.abs l) (-5) g ltac:(lia))).
  rewrite (bind_ok _ _ _ _ _ (randint_ok 5 (Z.abs r) (advance g 1) ltac:(lia))).
  rewrite (bind_ok _ _ _ _ _
             (randint_ok 0 1 (advance (advance g 1) 1) ltac:(lia))).
  rewrite !DistortFacts.advance_advance. cbn [Nat.add].
  pose proof (randint_bounds (- Z.abs l) (-5) (supply g (cursor g)) ltac:(lia)) as Hbl.
  pose proof (randint_bounds 5 (Z.abs r)
                (supply (advance g 1) (cursor (advance g 1))) ltac:(lia)) as Hbr.
  pose proof (randint_bounds 0 1
                (supply (advance g 2) (cursor (advance g 2))) ltac:(lia)) as Hb.
  eexists. split; [reflexivity |].
  destruct (Z.eqb_spec (0 + supply (advance g 2) (cursor (advance g 2)) mod (1 - 0 + 1)) 0);
    [left; exact Hbl |].
  destruct (Z.eqb_spec (0 + supply (advance g 2) (cursor (advance g 2)) mod (1 - 0 + 1)) 1);
    [right; exact Hbr | lia].
Qed.

End WithLibraries.

Lemma rotate_range_small_bound_raises_witness :
  (Z.abs 3 < 5 \/ Z.abs 40 < 5) /\
  perform_operation Rotate.sin_deg_sample Rotate.expanded_size_sample
    (init 3 40) 200 100 demo_rng = Err ValueError.
Proof.
  assert (H : Z.abs 3 < 5 \/ Z.abs 40 < 5) by (left; reflexivity).
  split; [exact H |].
  exact (rotate_range_small_bound_raises Rotate.sin_deg_sample
           Rotate.expanded_size_sample 3 40 200 100 demo_rng H).
Defined.

Lemma rotate_range_angle_witness :
  5 <= Z.abs 40 /\ 5 <= Z.abs 40 /\
  exists rotation,
    perform_operation Rotate.sin_deg_sample Rotate.expanded_size_sample
      (init 40 40) 200 100 rotate_range_rng
      = lift (Rotate.crop_resize Rotate.sin_deg_sample Rotate.expanded_size_sample
                (inject_Z rotation) 200 100)
             (advance rotate_range_rng 3) /\
    (- Z.abs 40 <= rotation <= -5 \/ 5 <= rotation <= Z.abs 40).
Proof.
  split; [simpl; lia |]. split; [simpl; lia |].
  apply (rotate_range_angle Rotate.sin_deg_sample Rotate.expanded_size_sample
           40 40 200 100 rotate_range_rng); simpl; lia.
Defined.

End RotateRangeFacts.

(** ** Skew: the distance and the destination corners *)

Module SkewMore.
Import Skew.

#[local] Open Scope Q_scope.

(** X25. Without a magnitude the skew distance is one random whole number
    between 1 and the larger side of the image. *)
Theorem skew_amount_random st w h g :
  (1 <= Z.max w h)%Z ->
  exists r,
    skew_amount (mkSkew st 0) w h g = Ok (inject_Z r, advance g 1) /\
    (1 <= r <= Z.max w h)%Z.
Proof.
  intros Hmax. unfold skew_amount. cbn [magnitude]. simpl (0 =? 0)%Z. cbv iota.
  rewrite (bind_ok _ _ _ _ _ (randint_ok 1 (Z.max w h) g Hmax)).
  eexists. split; [reflexivity |]. now apply randint_bounds.
Qed.

Lemma skew_amount_random_witness :
  (1 <= Z.max 200 100)%Z /\
  exists r,
    skew_amount (mkSkew "TILT" 0) 200 100 demo_rng = Ok (inject_Z r, advance demo_rng 1) /\
    (1 <= r <= Z.max 200 100)%Z.
Proof.
  assert (H : (1 <= Z.max 200 100)%Z) by (simpl; lia).
  split; [exact H |].
  exact (skew_amount_random "TILT" 200 100 demo_rng H).
Defined.

(** X26. The skew type "ALL" draws its offsets with
    [random.randint(1, skew_amount)]: when the magnitude does not divide the
    larger side of the image the distance is not a whole number and
    [Skew.perform_operation] raises [ValueError]. *)
Theorem skew_all_fractional_distance_raises linalg_inv m w h g :
  m <> 0%Z -> (Z.max w h mod m <> 0)%Z ->
  perform_operation linalg_inv (mkSkew "ALL" m) w h g = Err ValueError.
Proof.
  intros Hm Hmod. unfold perform_operation.
  rewrite (bind_ok _ _ _ _ _ (SkewFacts.skew_amount_set "ALL" m w h g Hm)).
  unfold new_plane. cbn [skew_type]. simpl String.eqb. cbn [orb].
  unfold bind at 1. unfold bind at 1. unfold ret at 1.
  unfold bind at 1. unfold ret at 1.
  unfold bind at 1. unfold all_plane. unfold bind at 1.
  assert (Hfrac : (Qnum (inject_Z (Z.max w h) / inject_Z m)
                   mod Z.pos (Qden (inject_Z (Z.max w h) / inject_Z m)) =? 0)%Z = false).
  { apply Z.eqb_neq. intros H. apply Hmod.
    unfold Qdiv, Qmult, Qinv, inject_Z in H. cbn [Qnum Qden] in H.
    destruct m as [| p | p]; [contradiction | |]; cbn [Qnum Qden] in H.
    - rewrite Z.mul_1_r in H. exact H.
    - change (Z.pos (1 * p)) with (Z.pos p) in H.
      replace (Z.max w h * Z.neg 1)%Z with (- Z.max w h)%Z in H by lia.
      apply Z.mod_divide in H; [| lia]. apply Z.mod_divide; [lia |].
      destruct H as [q Hq]. exists q. lia. }
  unfold randint_q at 1. rewrite Hfrac. reflexivity.
Qed.

Lemma skew_all_fractional_distance_raises_witness :
  3%Z <> 0%Z /\ (Z.max 200 100 mod 3 <> 0)%Z /\
  perform_operation (exact_inv 8) (mkSkew "ALL" 3) 200 100 demo_rng = Err ValueError.
Proof.
  assert (H0 : 3%Z <> 0%Z) by discriminate.
  assert (H1 : (Z.max 200 100 mod 3 <> 0)%Z) by discriminate.
  split; [exact H0 |]. split; [exact H1 |].
  exact (skew_all_fractional_distance_raises (exact_inv 8) 3 200 100 demo_rng H0 H1).
Defined.

(** X27. A tilt to the left or to the right never moves a corner sideways,
    and a tilt forwards or backwards never moves one up or down: the first
    keeps the abscissae of the four corners, the second their ordinates.
    Either draws one random number. *)
Theorem skew_tilt_keeps_one_axis m w h amount g :
  (exists p,
     new_plane (mkSkew "TILT_LEFT_RIGHT" m) w h amount g = Ok (Some p, advance g 1) /\
     map fst p = map fst (original_plane w h)) /\
  (exists p,
     new_plane (mkSkew "TILT_TOP_BOTTOM" m) w h amount g = Ok (Some p, advance g 1) /\
     map snd p = map snd (original_plane w h)).
Proof.
  split.
  - unfold new_plane. cbn [skew_type]. simpl String.eqb. cbn [orb].
    unfold bind at 1.
    rewrite (bind_ok _ _ _ _ _ (randint_ok 0 1 g ltac:(lia))).
    unfold bind, ret.
    pose proof (randint_bounds 0 1 (supply g (cursor g)) ltac:(lia)) as Hb.
    set (d := (0 + supply g (cursor g) mod (1 - 0 + 1))%Z) in *.
    assert (Hd : d = 0%Z \/ d = 1%Z) by lia.
    destruct Hd as [-> | ->]; eexists; (split; [reflexivity |]); reflexivity.
  - unfold new_plane. cbn [skew_type]. simpl String.eqb. cbn [orb].
    unfold bind at 1.
    rewrite (bind_ok _ _ _ _ _ (randint_ok 2 3 g ltac:(lia))).
    unfold bind, ret.
    pose proof (randint_bounds 2 3 (supply g (cursor g)) ltac:(lia)) as Hb.
    set (d := (2 + supply g (cursor g) mod (3 - 2 + 1))%Z) in *.
    assert (Hd : d = 2%Z \/ d = 3%Z) by lia.
    destruct Hd as [-> | ->]; eexists; (split; [reflexivity |]); reflexivity.
Qed.

(** X28. The skew type "CORNER" draws one random number and moves exactly
    one of the four corners: that corner is pushed by the skew distance
    along one axis, and the three others stay where they are in the
    original image. *)
Theorem skew_corner_moves_one_corner m w h amount g :
  exists p i c q,
    new_plane (mkSkew "CORNER" m) w h amount g = Ok (Some p, advance g 1) /\
    List.length p = 4%nat /\
    nth_error (original_plane w h) i = Some c /\
    nth_error p i = Some q /\ moved_by amount c q /\
    forall j, j <> i -> nth_error p j = nth_error (original_plane w h) j.
Proof.
  unfold new_plane. cbn [skew_type]. simpl String.eqb. cbn [orb].
  unfold bind at 1. unfold ret at 1. cbn beta iota.
  unfold bind at 1.
  rewrite (bind_ok _ _ _ _ _ (randint_ok 0 7 g ltac:(lia))).
  unfold ret.
  pose proof (randint_bounds 0 7 (supply g (cursor g)) ltac:(lia)) as Hb.
  set (d := (0 + supply g (cursor g) mod (7 - 0 + 1))%Z) in *.
  assert (Hd : (d = 0 \/ d = 1 \/ d = 2 \/ d = 3 \/ d = 4 \/ d = 5 \/ d = 6 \/ d = 7)%Z)
    by lia.
  unfold original_plane, moved_by.
  destruct Hd as [-> | [-> | [-> | [-> | [-> | [-> | [-> | ->]]]]]]].
  1, 2: eexists; exists 0%nat.
  3, 4: eexists; exists 1%nat.
  5, 6: eexists; exists 2%nat.
  7, 8: eexists; exists 3%nat.
  all: do 2 eexists; (split; [reflexivity |]); (split; [reflexivity |]);
    (split; [reflexivity |]); (split; [reflexivity |]);
    (split; [cbn [fst snd]; auto |]);
    intros [| [| [| [| j]]]] Hj; try reflexivity; now elim Hj.
Qed.

End SkewMore.
